(** * chantools: key derivation, address scanning and the remote-closed sweep

    A shallow embedding of
    - [lnd/hdkeychain.go]: [ParsePath], [DeriveChildren] and the address
      generators,
    - [cln/derivation.go]: [FundingKey] and [HkdfSha256],
    - [cmd/chantools/sweepremoteclosed.go]: the balance scan, the ancient
      channel lookup and the sweep transaction builder.

    Go values are modelled as follows: [uint32], [uint64] and [int64] are [Z]
    with the wrap-around written out; a Go [string] that the code inspects is
    the list of its bytes ([list ascii]); an [error] is a value of [error];
    a function that can return an error or panic returns a [result]. *)

From Stdlib Require Import String Ascii ZArith List Bool Lia.
Import ListNotations.

Local Open Scope Z_scope.

(** ** Go values *)

(** The bytes of a Go string. *)
Definition gostring : Type := list ascii.

Definition str (s : string) : gostring := list_ascii_of_string s.

(** Go [error] values.  [errAddrNotFound] is the sentinel the derivation cache
    returns; [errWrap] is [fmt.Errorf("...: %w", err)], which [errors.Is]
    sees through; [errNew] is any error built from a message only. *)
Inductive error : Type :=
| errAddrNotFound
| errNew (msg : string)
| errWrap (msg : string) (cause : error).

(** [errors.Is(err, errAddrNotFound)]. *)
Fixpoint isAddrNotFound (e : error) : bool :=
  match e with
  | errAddrNotFound => true
  | errNew _ => false
  | errWrap _ c => isAddrNotFound c
  end.

(** What a call produces: a value, a returned error, or a run-time panic
    (index out of range, nil dereference). *)
Inductive result (A : Type) : Type :=
| Ok (a : A)
| Err (e : error)
| Panic.

Arguments Ok {A} a.
Arguments Err {A} e.
Arguments Panic {A}.

Definition bind {A B : Type} (r : result A) (f : A -> result B) : result B :=
  match r with
  | Ok a => f a
  | Err e => Err e
  | Panic => Panic
  end.

(** [if err != nil { return fmt.Errorf(msg+": %w", err) }]. *)
Definition wrapErr {A : Type} (msg : string) (r : result A) : result A :=
  match r with
  | Ok a => Ok a
  | Err e => Err (errWrap msg e)
  | Panic => Panic
  end.

Definition isOk {A : Type} (r : result A) : bool :=
  match r with Ok _ => true | _ => false end.

Declare Scope result_scope.
Delimit Scope result_scope with result.
Notation "x <- r ;; k" := (bind r (fun x => k))
  (at level 61, r at next level, right associativity) : result_scope.

(** Fixed-width integers. *)
Definition uint32 (z : Z) : Z := z mod 2 ^ 32.
Definition uint64 (z : Z) : Z := z mod 2 ^ 64.
(** Conversion to [int64] (two's complement). *)
Definition int64 (z : Z) : Z := (z + 2 ^ 63) mod 2 ^ 64 - 2 ^ 63.

Definition add32 (a b : Z) : Z := uint32 (a + b).
Definition sub32 (a b : Z) : Z := uint32 (a - b).
Definition mul32 (a b : Z) : Z := uint32 (a * b).

Definition is_uint32 (z : Z) : Prop := 0 <= z < 2 ^ 32.

(** ** The [strings] and [strconv] functions [ParsePath] calls *)

Module GoStrings.

Definition ascii_eqb (a b : ascii) : bool := Ascii.eqb a b.

(** The byte sequences of the runes [unicode.IsSpace] accepts: the six ASCII
    ones, U+0085 and U+00A0, and the [White_Space] code points above Latin-1,
    in UTF-8. *)
Definition byte (n : nat) : ascii := ascii_of_nat n.

Definition spaceRunes : list gostring :=
  [ [byte 9]; [byte 10]; [byte 11]; [byte 12]; [byte 13]; [byte 32];
    [byte 194; byte 133]; [byte 194; byte 160];
    [byte 225; byte 154; byte 128];
    [byte 226; byte 128; byte 128]; [byte 226; byte 128; byte 129];
    [byte 226; byte 128; byte 130]; [byte 226; byte 128; byte 131];
    [byte 226; byte 128; byte 132]; [byte 226; byte 128; byte 133];
    [byte 226; byte 128; byte 134]; [byte 226; byte 128; byte 135];
    [byte 226; byte 128; byte 136]; [byte 226; byte 128; byte 137];
    [byte 226; byte 128; byte 138];
    [byte 226; byte 128; byte 168]; [byte 226; byte 128; byte 169];
    [byte 226; byte 128; byte 175]; [byte 226; byte 129; byte 159];
    [byte 227; byte 128; byte 128] ].

(** [strings.HasPrefix]. *)
Fixpoint HasPrefix (s prefix : gostring) : bool :=
  match prefix, s with
  | [], _ => true
  | p :: prefix', c :: s' => ascii_eqb c p && HasPrefix s' prefix'
  | _ :: _, [] => false
  end.

(** The width of the white-space rune [s] starts with, if any. *)
Fixpoint leadingSpace (runes : list gostring) (s : gostring) : option nat :=
  match runes with
  | [] => None
  | r :: runes' =>
      if HasPrefix s r then Some (length r) else leadingSpace runes' s
  end.

(** [strings.TrimLeftFunc(s, unicode.IsSpace)]; [fuel] bounds the number of
    runes removed, [length s] is always enough. *)
Fixpoint trimLeftSpace (fuel : nat) (s : gostring) : gostring :=
  match fuel with
  | O => s
  | S fuel' =>
      match leadingSpace spaceRunes s with
      | Some w => trimLeftSpace fuel' (skipn w s)
      | None => s
      end
  end.

(** The same from the right end: a string ends with a white-space rune
    exactly when its reversal starts with the reversed bytes of one. *)
Fixpoint trimRightSpaceRev (fuel : nat) (rs : gostring) : gostring :=
  match fuel with
  | O => rs
  | S fuel' =>
      match leadingSpace (map (@rev ascii) spaceRunes) rs with
      | Some w => trimRightSpaceRev fuel' (skipn w rs)
      | None => rs
      end
  end.

(** [strings.TrimSpace]. *)
Definition TrimSpace (s : gostring) : gostring :=
  let l := trimLeftSpace (length s) s in
  rev (trimRightSpaceRev (length l) (rev l)).

(** [strings.Split(s, sep)] for a one-byte separator: one part more than
    there are separators, [[""]] for the empty string. *)
Fixpoint Split (s : gostring) (sep : ascii) : list gostring :=
  match s with
  | [] => [[]]
  | c :: s' =>
      if ascii_eqb c sep then [] :: Split s' sep
      else match Split s' sep with
           | p :: ps => (c :: p) :: ps
           | [] => [[c]]
           end
  end.

(** [strings.Contains(s, sub)] for a one-byte [sub]. *)
Definition Contains (s : gostring) (c : ascii) : bool :=
  existsb (ascii_eqb c) s.

(** [strings.TrimRight(s, cutset)] for a one-byte cutset. *)
Fixpoint TrimRight (s : gostring) (c : ascii) : gostring :=
  match s with
  | [] => []
  | a :: s' =>
      match TrimRight s' c with
      | [] => if ascii_eqb a c then [] else [a]
      | t => a :: t
      end
  end.

Definition isDigit (c : ascii) : bool :=
  (48 <=? nat_of_ascii c)%nat && (nat_of_ascii c <=? 57)%nat.

Definition digitVal (c : ascii) : Z := Z.of_nat (nat_of_ascii c) - 48.

(** The value of a run of decimal digits, most significant first; [None] when
    a byte is not a digit. *)
Fixpoint parseDigits (acc : Z) (s : gostring) : option Z :=
  match s with
  | [] => Some acc
  | c :: s' =>
      if isDigit c then parseDigits (acc * 10 + digitVal c) s' else None
  end.

Definition minus : ascii := "-"%char.
Definition plus : ascii := "+"%char.

(** The digits after the sign: at least one, decimal, and a value in the
    range of a 64-bit [int]. *)
Definition atoiDigits (neg : bool) (digits : gostring) : result Z :=
  match digits with
  | [] => Err (errNew "strconv.Atoi: invalid syntax")
  | _ =>
      match parseDigits 0 digits with
      | None => Err (errNew "strconv.Atoi: invalid syntax")
      | Some n =>
          let v := if neg then - n else n in
          if (- 2 ^ 63 <=? v) && (v <=? 2 ^ 63 - 1) then Ok v
          else Err (errNew "strconv.Atoi: value out of range")
      end
  end.

(** [strconv.Atoi] with a 64-bit [int]: an optional sign, at least one
    decimal digit, nothing else, and a value that fits [int64]; every other
    text is a syntax or range error. *)
Definition Atoi (s : gostring) : result Z :=
  match s with
  | c :: s' =>
      if ascii_eqb c minus then atoiDigits true s'
      else if ascii_eqb c plus then atoiDigits false s'
      else atoiDigits false s
  | [] => atoiDigits false []
  end.

End GoStrings.

(** ** [lnd/hdkeychain.go] *)

Module Lnd.

Import GoStrings.

Definition HardenedKeyStart : Z := 2 ^ 31.

Definition slash : ascii := "/"%char.
Definition quote : ascii := "'"%char.

(** Writing [indices[i] = v] into a slice; out of range is a run-time panic in
    Go, the loop below never gets there. *)
Fixpoint setIndex (l : list Z) (i : nat) (v : Z) : option (list Z) :=
  match l, i with
  | [], _ => None
  | _ :: l', O => Some (v :: l')
  | x :: l', S i' => option_map (cons x) (setIndex l' i' v)
  end.

(** The body of the loop of [ParsePath] for one part: the index it stores. *)
Definition parsePart (p : gostring) : result Z :=
  let index := 0 in
  let '(index, part) :=
    if Contains p quote
    then (add32 index HardenedKeyStart, TrimRight p quote)
    else (index, p) in
  match Atoi part with
  | Ok parsed => Ok (add32 index (uint32 parsed))
  | Err _ => Err (errNew "could not parse part")
  | Panic => Panic
  end.

(** [for i := 1; i < len(parts); i++ { ... indices[i-1] = ... }]: [rest] is
    [parts[i:]]. *)
Fixpoint ParsePath_loop (rest : list gostring) (i : nat) (indices : list Z)
  : result (list Z) :=
  match rest with
  | [] => Ok indices
  | p :: rest' =>
      match parsePart p with
      | Ok v =>
          match setIndex indices (i - 1) v with
          | Some indices' => ParsePath_loop rest' (S i) indices'
          | None => Panic
          end
      | Err e => Err e
      | Panic => Panic
      end
  end.

Definition ParsePath (path : gostring) : result (list Z) :=
  let path := TrimSpace path in
  if (length path =? 0)%nat then Err (errNew "path cannot be empty")
  else if negb (HasPrefix path (str "m/"))
  then Err (errNew "path must start with m/")
  else
    let parts := Split path slash in
    let indices := repeat 0 (length parts - 1) in
    ParsePath_loop (skipn 1 parts) 1 indices.

Definition HardenedKey (key : Z) : Z := add32 key HardenedKeyStart.

(** *** The libraries behind the key tree

    [btcec] keys and [btcutil/hdkeychain] extended keys are used through
    their methods only. *)

(** Binary data: a slice of bytes, each an 8-bit [Z]. *)
Definition bytes : Type := list Z.

Class Btcec : Type := {
  PublicKey : Type;
  PrivateKey : Type;
  (** [PublicKey.SerializeCompressed], 33 bytes. *)
  SerializeCompressed : PublicKey -> bytes;
  (** [PrivateKey.PubKey]. *)
  PubKey : PrivateKey -> PublicKey;
  (** [btcec.PrivKeyFromBytes]: the private key the bytes stand for. *)
  PrivKeyFromBytes : bytes -> PrivateKey;
  (** [btcec.ParsePubKey]. *)
  ParsePubKey : bytes -> result PublicKey
}.

Class Hdkeychain {ec : Btcec} : Type := {
  ExtendedKey : Type;
  (** [ExtendedKey.DeriveNonStandard]: the child at an index. *)
  DeriveNonStandard : ExtendedKey -> Z -> result ExtendedKey;
  (** [ExtendedKey.Depth], a [uint8]. *)
  Depth : ExtendedKey -> Z;
  (** [ExtendedKey.String]: the serialized form. *)
  KeyString : ExtendedKey -> gostring;
  (** [hdkeychain.NewKeyFromString]. *)
  NewKeyFromString : gostring -> result ExtendedKey;
  (** [ExtendedKey.ECPrivKey]. *)
  ECPrivKey : ExtendedKey -> result PrivateKey
}.

Section Derive.

Context {ec : Btcec} {hd : Hdkeychain}.

(** Lines 48-54 of [DeriveChildren]: whether the key derived at position
    [idx], of depth [depth], is serialized and parsed back.  [path[idx+1]]
    out of range is a run-time panic. *)
Definition needsRoundTrip (depth : Z) (path : list Z) (idx : nat)
  (pathPart : Z) : result bool :=
  let keyID := sub32 pathPart HardenedKeyStart in
  let nextID :=
    if (depth =? 2) && (2 <? length path)%nat
    then match nth_error path (S idx) with
         | Some next => Ok (sub32 next HardenedKeyStart)
         | None => Panic
         end
    else Ok 0 in
  bind nextID (fun nextID =>
    Ok (((depth =? 2) && negb (nextID =? 0))
        || ((depth =? 3) && negb (keyID =? 0)))).

(** [for idx, pathPart := range path { ... }]: [rest] is [path[idx:]]. *)
Fixpoint DeriveChildren_loop (path : list Z) (idx : nat) (rest : list Z)
  (currentKey : ExtendedKey) : result ExtendedKey :=
  match rest with
  | [] => Ok currentKey
  | pathPart :: rest' =>
      bind (DeriveNonStandard currentKey pathPart) (fun derivedKey =>
      bind (needsRoundTrip (Depth derivedKey) path idx pathPart) (fun again =>
      if again
      then bind (NewKeyFromString (KeyString derivedKey))
             (DeriveChildren_loop path (S idx) rest')
      else DeriveChildren_loop path (S idx) rest' derivedKey))
  end.

Definition DeriveChildren (key : ExtendedKey) (path : list Z)
  : result ExtendedKey :=
  DeriveChildren_loop path 0 path key.

(** Child derivation step by step with nothing in between: each key is the
    [DeriveNonStandard] child of the one before. *)
Fixpoint plainDerive (key : ExtendedKey) (path : list Z)
  : result ExtendedKey :=
  match path with
  | [] => Ok key
  | pathPart :: rest =>
      bind (DeriveNonStandard key pathPart) (fun child =>
        plainDerive child rest)
  end.

(** The account/key index of a path segment as [DeriveChildren] computes it. *)
Definition keyID (pathPart : Z) : Z := sub32 pathPart HardenedKeyStart.

(** The round-trip rule in the words of the specification: at depth 2 when
    the next segment's index is non-zero, at depth 3 when the current
    segment's index is non-zero. *)
Definition roundTripStated (depth : Z) (path : list Z) (idx : nat)
  (pathPart : Z) : bool :=
  ((depth =? 2)
   && match nth_error path (S idx) with
      | Some next => negb (keyID next =? 0)
      | None => false
      end)
  || ((depth =? 3) && negb (keyID pathPart =? 0)).

(** The rule the code follows: at depth 2 the next segment is looked at only
    in a path of more than two segments. *)
Definition roundTripRule (depth : Z) (path : list Z) (idx : nat)
  (pathPart : Z) : bool :=
  ((depth =? 2) && (2 <? length path)%nat
   && match nth_error path (S idx) with
      | Some next => negb (keyID next =? 0)
      | None => false
      end)
  || ((depth =? 3) && negb (keyID pathPart =? 0)).


(** Derivation along a path under a round-trip rule: each derived key is
    serialized and parsed back where the rule says so, and used as it is
    elsewhere. *)
Fixpoint deriveBy (rule : Z -> list Z -> nat -> Z -> bool) (path : list Z)
  (idx : nat) (rest : list Z) (key : ExtendedKey) : result ExtendedKey :=
  match rest with
  | [] => Ok key
  | pathPart :: rest' =>
      bind (DeriveNonStandard key pathPart) (fun derivedKey =>
        if rule (Depth derivedKey) path idx pathPart
        then bind (NewKeyFromString (KeyString derivedKey))
               (deriveBy rule path (S idx) rest')
        else deriveBy rule path (S idx) rest' derivedKey)
  end.

(** What [hdkeychain] guarantees about depths: a depth is a [uint8], a child
    is one level below its parent, and a key read back from its serialized
    form keeps its depth. *)
Definition depthLaws : Prop :=
  (forall k, 0 <= Depth k)
  /\ (forall k i c, DeriveNonStandard k i = Ok c -> Depth c = Depth k + 1)
  /\ (forall k r, NewKeyFromString (KeyString k) = Ok r -> Depth r = Depth k).

End Derive.

(** *** Addresses ([btcutil]) and the scripts of [lnd/input] *)

(** The address types of [btcutil]; the payload is the hash or key the
    address encodes, [net] the network it is for. *)
Inductive Address (Params : Type) : Type :=
| AddressPubKeyHash (hash : bytes) (net : Params)
| AddressScriptHash (hash : bytes) (net : Params)
| AddressWitnessPubKeyHash (program : bytes) (net : Params)
| AddressWitnessScriptHash (program : bytes) (net : Params)
| AddressTaproot (program : bytes) (net : Params).

Arguments AddressPubKeyHash {Params}.
Arguments AddressScriptHash {Params}.
Arguments AddressWitnessPubKeyHash {Params}.
Arguments AddressWitnessScriptHash {Params}.
Arguments AddressTaproot {Params}.

Class Btcutil {ec : Btcec} : Type := {
  (** [chaincfg.Params]. *)
  Params : Type;
  HDCoinType : Params -> Z;
  (** [btcutil.Hash160]: RIPEMD160(SHA256(b)), 20 bytes. *)
  Hash160 : bytes -> bytes;
  (** [sha256.Sum256], 32 bytes. *)
  Sum256 : bytes -> bytes;
  (** [schnorr.SerializePubKey], 32 bytes. *)
  SchnorrSerializePubKey : PublicKey -> bytes;
  (** [txscript.ComputeTaprootKeyNoScript]. *)
  ComputeTaprootKeyNoScript : PublicKey -> PublicKey;
  (** [txscript.PayToAddrScript]. *)
  PayToAddrScript : Address Params -> result bytes;
  (** [(Address).EncodeAddress]; [String] of these address types is the
      same text. *)
  EncodeAddress : Address Params -> gostring;
  (** [btcutil.DecodeAddress]. *)
  DecodeAddress : gostring -> Params -> result (Address Params);
  (** [(Address).IsForNet]. *)
  IsForNet : Address Params -> Params -> bool;
  (** [input.CommitScriptTree] with the fields the sweep reads. *)
  CommitScriptTree : Type;
  TaprootKey : CommitScriptTree -> PublicKey;
  (** [input.CommitScriptToRemoteConfirmed]. *)
  CommitScriptToRemoteConfirmed : PublicKey -> result bytes;
  (** [input.NewRemoteCommitScriptTree]. *)
  NewRemoteCommitScriptTree : PublicKey -> result CommitScriptTree
}.

Section Addresses.

Context {ec : Btcec} {bu : Btcutil}.

Definition badLength : error := errNew "witness program must be of the right length".

(** [btcutil.NewAddressPubKeyHash]: the hash must be 20 bytes. *)
Definition NewAddressPubKeyHash (pkHash : bytes) (net : Params)
  : result (Address Params) :=
  if (length pkHash =? 20)%nat then Ok (AddressPubKeyHash pkHash net)
  else Err badLength.

(** [btcutil.NewAddressWitnessPubKeyHash]: the program must be 20 bytes. *)
Definition NewAddressWitnessPubKeyHash (witnessProg : bytes) (net : Params)
  : result (Address Params) :=
  if (length witnessProg =? 20)%nat
  then Ok (AddressWitnessPubKeyHash witnessProg net)
  else Err badLength.

(** [btcutil.NewAddressWitnessScriptHash]: the program must be 32 bytes. *)
Definition NewAddressWitnessScriptHash (witnessProg : bytes) (net : Params)
  : result (Address Params) :=
  if (length witnessProg =? 32)%nat
  then Ok (AddressWitnessScriptHash witnessProg net)
  else Err badLength.

(** [btcutil.NewAddressTaproot]: the program must be 32 bytes. *)
Definition NewAddressTaproot (witnessProg : bytes) (net : Params)
  : result (Address Params) :=
  if (length witnessProg =? 32)%nat
  then Ok (AddressTaproot witnessProg net)
  else Err badLength.

(** [btcutil.NewAddressScriptHash]: the address of the hash of a script. *)
Definition NewAddressScriptHash (serializedScript : bytes) (net : Params)
  : result (Address Params) :=
  Ok (AddressScriptHash (Hash160 serializedScript) net).

(** Parses an address text into an address of the given network. *)
Definition ParseAddress (addr : gostring) (chainParams : Params)
  : result (Address Params) :=
  bind (wrapErr "unable to decode address" (DecodeAddress addr chainParams))
    (fun targetAddr =>
  if negb (IsForNet targetAddr chainParams)
  then Err (errNew "address is not valid for this network")
  else Ok targetAddr).

Definition P2PKHAddr (pubKey : PublicKey) (params : Params)
  : result (Address Params) :=
  let hash160 := Hash160 (SerializeCompressed pubKey) in
  wrapErr "could not create address" (NewAddressPubKeyHash hash160 params).

Definition P2WKHAddr (pubKey : PublicKey) (params : Params)
  : result (Address Params) :=
  let hash160 := Hash160 (SerializeCompressed pubKey) in
  NewAddressWitnessPubKeyHash hash160 params.

Definition NP2WKHAddr (pubKey : PublicKey) (params : Params)
  : result (Address Params) :=
  let hash160 := Hash160 (SerializeCompressed pubKey) in
  bind (wrapErr "could not create address"
          (NewAddressWitnessPubKeyHash hash160 params)) (fun addrP2WKH =>
  bind (wrapErr "could not create script" (PayToAddrScript addrP2WKH))
    (fun script => NewAddressScriptHash script params)).

Definition P2TRAddr (pubKey : PublicKey) (params : Params)
  : result (Address Params) :=
  let taprootKey := ComputeTaprootKeyNoScript pubKey in
  NewAddressTaproot (SchnorrSerializePubKey taprootKey) params.

(** Returns the address and the script it commits to.  The last [return]
    hands back the script together with whatever [btcutil] returned. *)
Definition P2AnchorStaticRemote (pubKey : PublicKey) (params : Params)
  : result (Address Params * bytes) :=
  bind (wrapErr "could not create script"
          (CommitScriptToRemoteConfirmed pubKey)) (fun commitScript =>
  let scriptHash := Sum256 commitScript in
  bind (NewAddressWitnessScriptHash scriptHash params) (fun p2wsh =>
    Ok (p2wsh, commitScript))).

(** Declared as [P2TaprootStaticRemove] in [hdkeychain.go]; the sweep calls
    it as [P2TaprootStaticRemote]. *)
Definition P2TaprootStaticRemove (pubKey : PublicKey) (params : Params)
  : result (Address Params * CommitScriptTree) :=
  bind (wrapErr "could not create script"
          (NewRemoteCommitScriptTree pubKey)) (fun scriptTree =>
  bind (NewAddressTaproot
          (SchnorrSerializePubKey (TaprootKey scriptTree)) params)
    (fun addr => Ok (addr, scriptTree))).

End Addresses.

End Lnd.

(** ** [cln/derivation.go] *)

Module Cln.

Import Lnd.

(** [golang.org/x/crypto/hkdf] over SHA-256: the first [n] bytes read from
    [hkdf.New(sha256.New, secret, salt, info)]; reading past the limit of the
    expander is the only error. *)
Class Hkdf : Type := {
  hkdfRead : forall (secret salt info : bytes) (n : nat), result bytes
}.

(** [[]byte(s)]. *)
Definition bytesOf (s : string) : bytes :=
  map (fun c => Z.of_nat (nat_of_ascii c)) (str s).

Definition InfoPeerSeed : bytes := bytesOf "peer seed".
Definition InfoPerPeer : bytes := bytesOf "per-peer seed".
Definition InfoCLightning : bytes := bytesOf "c-lightning".

(** [make([]byte, n)]. *)
Definition make (n : nat) : bytes := repeat 0 n.

(** [copy(dst[lo:hi], src)]: as many bytes as both hold. *)
Definition copyInto (dst : bytes) (lo hi : nat) (src : bytes) : bytes :=
  let n := Nat.min (Nat.min hi (length dst) - lo) (length src) in
  firstn lo dst ++ firstn n src ++ skipn (lo + n) dst.

(** [byte(v)]. *)
Definition byteOf (v : Z) : Z := v mod 256.

(** [binary.LittleEndian.PutUint64(b[lo:], v)]: eight stores, a panic when
    the slice is shorter than eight bytes. *)
Definition PutUint64 (b : bytes) (lo : nat) (v : Z) : result bytes :=
  if (lo + 8 <=? length b)%nat
  then Ok (firstn lo b
           ++ [ byteOf v; byteOf (Z.shiftr v 8); byteOf (Z.shiftr v 16);
                byteOf (Z.shiftr v 24); byteOf (Z.shiftr v 32);
                byteOf (Z.shiftr v 40); byteOf (Z.shiftr v 48);
                byteOf (Z.shiftr v 56) ]
           ++ skipn (lo + 8) b)
  else Panic.

Section Derivation.

Context {ec : Btcec} {kdf : Hkdf}.

(** The 32-byte array [outputKey] after [expander.Read(outputKey[:])]. *)
Definition HkdfSha256 (key salt info : bytes) : result bytes :=
  bind (hkdfRead key salt info 32) (fun read =>
    Ok (copyInto (make 32) 0 32 read)).

Definition FundingKey (hsmSecret : bytes) (peerPubKey : PublicKey)
  (channelNum : Z) : result PublicKey :=
  bind (HkdfSha256 hsmSecret [] InfoPeerSeed) (fun channelBase =>
  let peerAndChannel := make (33 + 8) in
  let peerAndChannel :=
    copyInto peerAndChannel 0 33 (SerializeCompressed peerPubKey) in
  bind (PutUint64 peerAndChannel 33 channelNum) (fun peerAndChannel =>
  bind (HkdfSha256 channelBase peerAndChannel InfoPerPeer)
    (fun channelSeed =>
  bind (HkdfSha256 channelSeed [] InfoCLightning) (fun fundingKey =>
  Ok (PubKey (PrivKeyFromBytes fundingKey)))))).

(** The derivation in the words of the specification. *)

(** [n] as [k] little-endian bytes. *)
Fixpoint littleEndian (k : nat) (n : Z) : bytes :=
  match k with
  | O => []
  | S k' => n mod 256 :: littleEndian k' (n / 256)
  end.

(** The value little-endian bytes stand for. *)
Definition littleEndianValue (b : bytes) : Z :=
  fold_right (fun x acc => x + 256 * acc) 0 b.

(** What the [hkdf] reader guarantees: a successful read of 32 bytes fills
    all of them. *)
Definition hkdfFills : Prop :=
  forall secret salt info out,
    hkdfRead secret salt info 32 = Ok out -> length out = 32%nat.

(** One HKDF-SHA256 expansion to 32 bytes. *)
Definition expand32 (ikm salt info : bytes) : result bytes :=
  hkdfRead ikm salt info 32.

Definition fundingKeyStated (secret : bytes) (P : PublicKey) (n : Z)
  : result PublicKey :=
  bind (expand32 secret [] (bytesOf "peer seed")) (fun channelBase =>
  bind (expand32 channelBase (SerializeCompressed P ++ littleEndian 8 n)
          (bytesOf "per-peer seed")) (fun channelSeed =>
  bind (expand32 channelSeed [] (bytesOf "c-lightning")) (fun priv =>
  Ok (PubKey (PrivKeyFromBytes priv))))).

End Derivation.

End Cln.

(** ** [cmd/chantools/sweepremoteclosed.go] *)

Module Sweep.

Import GoStrings Lnd.

Local Open Scope result_scope.

Definition sweepRemoteClosedDefaultRecoveryWindow : Z := 200.
Definition sweepDustLimit : Z := 600.

(** [keychain.KeyFamilyPaymentBase]. *)
Definition KeyFamilyPaymentBase : Z := 3.

(** *** [wire] and [keychain] records *)

Record OutPoint : Type := { opHash : bytes; opIndex : Z }.

Record TxOut : Type := { Value : Z; PkScript : bytes }.

Record TxIn : Type :=
  { PreviousOutPoint : OutPoint; Sequence : Z; Witness : list bytes }.

Record MsgTx : Type :=
  { Version : Z; txIn : list TxIn; txOut : list TxOut; LockTime : Z }.

(** [wire.MaxTxInSequenceNum]. *)
Definition MaxTxInSequenceNum : Z := 4294967295.

(** [wire.NewMsgTx(version)]. *)
Definition NewMsgTx (version : Z) : MsgTx :=
  {| Version := version; txIn := []; txOut := []; LockTime := 0 |}.

(** The struct [utxo] embeds a [wire.TxOut] and a [wire.OutPoint]. *)
Record utxo : Type := { utxoTxOut : TxOut; utxoOutPoint : OutPoint }.

Record KeyLocator : Type := { Family : Z; Index : Z }.

(** [txscript.SigHashType] values the sweep uses. *)
Definition SigHashDefault : Z := 0.
Definition SigHashAll : Z := 1.

(** [input.SignMethod]. *)
Inductive SignMethod : Type :=
| WitnessV0SignMethod
| TaprootKeySpendBIP0086SignMethod
| TaprootKeySpendSignMethod
| TaprootScriptSpendSignMethod.

Definition isTaprootScriptSpend (m : SignMethod) : bool :=
  match m with TaprootScriptSpendSignMethod => true | _ => false end.

(** *** The block explorer ([btc.ExplorerAPI]) *)

(** [btc.Vout] with the fields [parseUtxos] reads. *)
Record Vout : Type :=
  { voutValue : Z; ScriptPubkey : gostring; OutspendTxid : gostring;
    OutspendVin : Z }.

(** [btc.TX]. *)
Record TX : Type := { txVout : list Vout }.

(** What the explorer answers; the answers are the collaborator's, the
    code only sees them. *)
Record ExplorerAPI : Type :=
  { Unspent : gostring -> result (list Vout);
    Transaction : gostring -> result TX;
    PublishTx : gostring -> result gostring }.

(** The requests sent to the explorer, oldest first. *)
Inductive apiCall : Type :=
| CallUnspent (addr : gostring)
| CallTransaction (txid : gostring)
| CallPublishTx (rawTx : gostring).

(** Decimal text of an unsigned integer ([%d] of [fmt.Sprintf]); twenty
    digits hold every [uint64]. *)
Definition digitChar (d : Z) : ascii := ascii_of_nat (Z.to_nat (48 + d)).

Fixpoint formatDigits (fuel : nat) (n : Z) (acc : gostring) : gostring :=
  match fuel with
  | O => acc
  | S fuel' =>
      let acc' := digitChar (n mod 10) :: acc in
      if n / 10 =? 0 then acc' else formatDigits fuel' (n / 10) acc'
  end.

Definition formatUint (n : Z) : gostring := formatDigits 20 n [].

Section Records.

Context {ec : Btcec} {bu : Btcutil}.

Record KeyDescriptor : Type :=
  { keyLocator : KeyLocator; descPubKey : PublicKey }.

Record targetAddr : Type :=
  { addr : Address Params;
    keyDesc : KeyDescriptor;
    tweak : bytes;
    utxos : list utxo;
    script : bytes;
    scriptTree : option CommitScriptTree }.

(** [ancientChannel], one entry of the embedded JSON list. *)
Record ancientChannel : Type :=
  { OP : gostring; Addr : gostring; CP : gostring }.

End Records.

(** *** What the sweep uses of [lnd/input], [chainfee], [txscript] and of the
    missing files of this repository *)

Class SweepEnv {ec : Btcec} {hd : Hdkeychain} {bu : Btcutil} : Type := {
  (** The package variable [chainParams]. *)
  chainParams : Params;
  (** [input.TxWeightEstimator]. *)
  TxWeightEstimator : Type;
  newEstimator : TxWeightEstimator;
  AddP2WKHInput : TxWeightEstimator -> TxWeightEstimator;
  AddWitnessInput : TxWeightEstimator -> Z -> TxWeightEstimator;
  Weight : TxWeightEstimator -> Z;
  ToRemoteConfirmedWitnessSize : Z;
  TaprootToRemoteWitnessSize : Z;
  (** [chainfee.SatPerKVByte.FeePerKWeight] and
      [chainfee.SatPerKWeight.FeeForWeight]. *)
  FeePerKWeight : Z -> Z;
  FeeForWeight : Z -> Z -> Z;
  (** [CtrlBlockForPath(input.ScriptPathSuccess)] of a script tree, the
      control block's [ToBytes], and the fields [SettleLeaf.Script] and
      [TapscriptRoot]. *)
  ControlBlock : Type;
  CtrlBlockForPathSuccess : CommitScriptTree -> result ControlBlock;
  ToBytes : ControlBlock -> result bytes;
  SettleLeafScript : CommitScriptTree -> bytes;
  TapscriptRoot : CommitScriptTree -> bytes;
  (** [txscript.TxSigHashes]. *)
  TxSigHashes : Type;
  NewTxSigHashes : MsgTx -> list (OutPoint * TxOut) -> TxSigHashes;
  (** [chainhash.NewHashFromStr], [hex.DecodeString], [hex.EncodeToString],
      [MsgTx.Serialize]. *)
  NewHashFromStr : gostring -> result bytes;
  hexDecodeString : gostring -> result bytes;
  hexEncodeToString : bytes -> gostring;
  Serialize : MsgTx -> result bytes;
  HashString : bytes -> gostring;
  (** [lnd.PrepareWalletAddress]: the sweep script, and the estimator with
      the output added. *)
  PrepareWalletAddress :
    gostring -> Params -> TxWeightEstimator -> ExtendedKey ->
    result (bytes * TxWeightEstimator);
  (** [lnd.ParseOutpoint]. *)
  ParseOutpoint : gostring -> result OutPoint;
  (** The embedded [sweepremoteclosed_ancient.json] after [json.Unmarshal]. *)
  ancientChannelPoints : result (list ancientChannel);
  (** The derivation cache, a package variable, with [fillCache] and
      [keyInCache]. *)
  Cache : Type;
  fillCache : Z -> ExtendedKey -> Cache -> result Cache;
  keyInCache :
    Cache -> Z -> gostring -> PublicKey -> result (KeyDescriptor * bytes)
}.

Section Descriptors.

Context {ec : Btcec} {hd : Hdkeychain} {bu : Btcutil} {env : SweepEnv}.

(** [input.SignDescriptor].  [PrevOutputFetcher] points to the fetcher all
    descriptors share; it is passed beside the descriptor when signing. *)
Record SignDescriptor : Type :=
  { KeyDesc : KeyDescriptor;
    SingleTweak : bytes;
    WitnessScript : bytes;
    Output : TxOut;
    HashType : Z;
    SigHashes : option TxSigHashes;
    InputIndex : nat;
    ControlBlockBytes : bytes;
    SignMethodOf : SignMethod;
    TapTweak : bytes }.

(** The witness generators of [lnd/input], called with the signer of the
    root key, the descriptor, the shared fetcher and the transaction. *)
Class Signing : Type := {
  TaprootCommitSpendSuccess :
    ExtendedKey -> SignDescriptor -> list (OutPoint * TxOut) -> MsgTx ->
    result (list bytes);
  CommitSpendToRemoteConfirmed :
    ExtendedKey -> SignDescriptor -> list (OutPoint * TxOut) -> MsgTx ->
    result (list bytes);
  CommitSpendNoDelay :
    ExtendedKey -> SignDescriptor -> list (OutPoint * TxOut) -> MsgTx ->
    bool -> result (list bytes)
}.

End Descriptors.

(** *** The session: explorer requests and the derivation cache *)

Section Session.

Context {ec : Btcec} {hd : Hdkeychain} {bu : Btcutil} {env : SweepEnv}.

Record World : Type := { apiLog : list apiCall; cache : Cache }.

(** A computation that may send requests or touch the cache, and ends with a
    value, an error or a panic. *)
Definition M (A : Type) : Type := World -> result A * World.

Definition ret {A : Type} (a : A) : M A := fun w => (Ok a, w).

Definition mbind {A B : Type} (m : M A) (k : A -> M B) : M B :=
  fun w =>
    match m w with
    | (Ok a, w') => k a w'
    | (Err e, w') => (Err e, w')
    | (Panic, w') => (Panic, w')
    end.

Definition lift {A : Type} (r : result A) : M A := fun w => (r, w).

Definition wrapM {A : Type} (msg : string) (m : M A) : M A :=
  fun w => let '(r, w') := m w in (wrapErr msg r, w').

Definition logged (c : apiCall) (w : World) : World :=
  {| apiLog := apiLog w ++ [c]; cache := cache w |}.

(** The world after further requests. *)
Definition withCalls (w : World) (calls : list apiCall) : World :=
  {| apiLog := apiLog w ++ calls; cache := cache w |}.

Definition callUnspent (api : ExplorerAPI) (a : gostring) : M (list Vout) :=
  fun w => (Unspent api a, logged (CallUnspent a) w).

Definition callTransaction (api : ExplorerAPI) (txid : gostring) : M TX :=
  fun w => (Transaction api txid, logged (CallTransaction txid) w).

Definition callPublishTx (api : ExplorerAPI) (rawTx : gostring)
  : M gostring :=
  fun w => (PublishTx api rawTx, logged (CallPublishTx rawTx) w).

(** A computation whose outcome does not depend on the state it starts
    in: the explorer answers by address, the log only grows. *)
Definition worldBlind {A : Type} (m : M A) : Prop :=
  forall w w0, fst (m w) = fst (m w0).

End Session.

Notation "x <~ m ;; k" := (mbind m (fun x => k))
  (at level 61, m at next level, right associativity) : result_scope.

Section Scan.

Context {ec : Btcec} {hd : Hdkeychain} {bu : Btcutil} {env : SweepEnv}.

Fixpoint parseUtxos (vouts : list Vout) : result (list utxo) :=
  match vouts with
  | [] => Ok []
  | vout :: rest =>
      txHash <- wrapErr "error parsing tx hash"
                  (NewHashFromStr (OutspendTxid vout)) ;;
      pkScript <- wrapErr "error decoding script pubkey"
                    (hexDecodeString (ScriptPubkey vout)) ;;
      parsed <- parseUtxos rest ;;
      Ok ({| utxoTxOut :=
               {| PkScript := pkScript; Value := int64 (voutValue vout) |};
             utxoOutPoint :=
               {| opHash := txHash; opIndex := uint32 (OutspendVin vout) |} |}
          :: parsed)
  end.

(** The closure [queryAddr] of [queryAddressBalances]; [targets] is the
    slice it appends to. *)
Definition queryAddr (api : ExplorerAPI) (keyDesc : KeyDescriptor)
  (targets : list targetAddr) (address : Address Params) (script : bytes)
  (scriptTree : option CommitScriptTree) : M (list targetAddr) :=
  unspent <~ wrapM "could not query unspent"
               (callUnspent api (EncodeAddress address)) ;;
  if (0 <? length unspent)%nat
  then
    utxos <~ lift (parseUtxos unspent) ;;
    ret (targets ++ [ {| addr := address; keyDesc := keyDesc; tweak := [];
                         utxos := utxos; script := script;
                         scriptTree := scriptTree |} ])
  else ret targets.

Definition queryAddressBalances (pubKey : PublicKey) (path : gostring)
  (keyDesc : KeyDescriptor) (api : ExplorerAPI) : M (list targetAddr) :=
  let targets := [] in
  p2wkh <~ lift (P2WKHAddr pubKey chainParams) ;;
  targets <~ queryAddr api keyDesc targets p2wkh [] None ;;
  p2anchor <~ lift (P2AnchorStaticRemote pubKey chainParams) ;;
  targets <~ queryAddr api keyDesc targets (fst p2anchor) (snd p2anchor)
               None ;;
  p2tr <~ lift (P2TaprootStaticRemove pubKey chainParams) ;;
  targets <~ queryAddr api keyDesc targets (fst p2tr) [] (Some (snd p2tr)) ;;
  ret targets.

(** [fmt.Sprintf("m/1017'/%d'/%d'/0/%d", chainParams.HDCoinType,
    keychain.KeyFamilyPaymentBase, index)]. *)
Definition scanPath (index : Z) : gostring :=
  str "m/1017'/" ++ formatUint (HDCoinType chainParams) ++ str "'/"
  ++ formatUint KeyFamilyPaymentBase ++ str "'/0/" ++ formatUint index.

(** The body of the scan loop of [sweepRemoteClosed] for one index. *)
Definition scanIndex (api : ExplorerAPI) (extendedKey : ExtendedKey)
  (index : Z) : M (list targetAddr) :=
  let path := scanPath index in
  parsedPath <~ lift (wrapErr "error parsing path" (ParsePath path)) ;;
  hdKey <~ lift (wrapErr "eror deriving children"
                   (DeriveChildren extendedKey parsedPath)) ;;
  privKey <~ lift (wrapErr "could not derive private key"
                     (ECPrivKey hdKey)) ;;
  wrapM "could not query API for addresses with funds"
    (queryAddressBalances (PubKey privKey) path
       {| keyLocator :=
            {| Family := KeyFamilyPaymentBase; Index := index |};
          descPubKey := PubKey privKey |} api).

(** [for index := range recoveryWindow { ... }]: [n] indices are left,
    starting at [index]. *)
Fixpoint scanLoop (api : ExplorerAPI) (extendedKey : ExtendedKey) (n : nat)
  (index : Z) (targets : list targetAddr) : M (list targetAddr) :=
  match n with
  | O => ret targets
  | S n' =>
      foundTargets <~ scanIndex api extendedKey index ;;
      scanLoop api extendedKey n' (index + 1) (targets ++ foundTargets)
  end.

Definition scan (api : ExplorerAPI) (extendedKey : ExtendedKey)
  (recoveryWindow : Z) : M (list targetAddr) :=
  scanLoop api extendedKey (Z.to_nat recoveryWindow) 0 [].

(** The scan in the words of the specification: derive the key of an
    index, generate its candidate addresses, look each one up. *)

(** A candidate output of a key: the address, and the script or script tree
    that goes with it. *)
Record candidate : Type :=
  { cAddr : Address Params; cScript : bytes;
    cTree : option CommitScriptTree }.

(** The three candidates of a public key, without any lookup. *)
Definition targetsFor (pubKey : PublicKey) : result (list candidate) :=
  p2wkh <- P2WKHAddr pubKey chainParams ;;
  p2anchor <- P2AnchorStaticRemote pubKey chainParams ;;
  p2tr <- P2TaprootStaticRemove pubKey chainParams ;;
  Ok [ {| cAddr := p2wkh; cScript := []; cTree := None |};
       {| cAddr := fst p2anchor; cScript := snd p2anchor; cTree := None |};
       {| cAddr := fst p2tr; cScript := []; cTree := Some (snd p2tr) |} ].

(** The public key of the payment-base family at an index. *)
Definition paymentBaseKey (extendedKey : ExtendedKey) (index : Z)
  : result PublicKey :=
  parsedPath <- wrapErr "error parsing path" (ParsePath (scanPath index)) ;;
  hdKey <- wrapErr "eror deriving children"
             (DeriveChildren extendedKey parsedPath) ;;
  privKey <- wrapErr "could not derive private key" (ECPrivKey hdKey) ;;
  Ok (PubKey privKey).

Definition paymentBaseDesc (pubKey : PublicKey) (index : Z)
  : KeyDescriptor :=
  {| keyLocator := {| Family := KeyFamilyPaymentBase; Index := index |};
     descPubKey := pubKey |}.

(** The request a candidate is looked up with. *)
Definition callFor (c : candidate) : apiCall :=
  CallUnspent (EncodeAddress (cAddr c)).

(** The lookup of a candidate answers, and the answer parses. *)
Definition lookupSucceeds (api : ExplorerAPI) (c : candidate) : Prop :=
  exists vouts us,
    Unspent api (EncodeAddress (cAddr c)) = Ok vouts
    /\ parseUtxos vouts = Ok us.

(** [lookupSucceeds] as a test. *)
Definition lookupAnswers (api : ExplorerAPI) (c : candidate) : bool :=
  match Unspent api (EncodeAddress (cAddr c)) with
  | Ok vouts => isOk (parseUtxos vouts)
  | _ => false
  end.

(** What a candidate contributes: one target holding its unspent outputs
    when there are any, nothing otherwise. *)
Definition foundAt (api : ExplorerAPI) (keyDesc : KeyDescriptor)
  (c : candidate) : list targetAddr :=
  match Unspent api (EncodeAddress (cAddr c)) with
  | Ok (v :: vs) =>
      match parseUtxos (v :: vs) with
      | Ok us =>
          [ {| addr := cAddr c; keyDesc := keyDesc; tweak := [];
               utxos := us; script := cScript c; scriptTree := cTree c |} ]
      | _ => []
      end
  | _ => []
  end.

(** The indices [0 .. window-1] in ascending order. *)
Definition indices (window : Z) : list Z :=
  map Z.of_nat (seq 0 (Z.to_nat window)).

(** *** Ancient channels *)

Definition doFillCache (numKeys : Z) (key : ExtendedKey) : M unit :=
  fun w =>
    match fillCache numKeys key (cache w) with
    | Ok c => (Ok tt, {| apiLog := apiLog w; cache := c |})
    | Err e => (Err e, w)
    | Panic => (Panic, w)
    end.

Definition lookupInCache (numKeys : Z) (a : gostring)
  (commitPoint : PublicKey) : M (KeyDescriptor * bytes) :=
  fun w => (keyInCache (cache w) numKeys a commitPoint, w).

(** The loop of [findAncientChannels]; [foundChannels] is the slice built so
    far. *)
Fixpoint findAncientChannels_loop (channels : list ancientChannel)
  (numKeys : Z) (foundChannels : list ancientChannel)
  : M (list ancientChannel) :=
  match channels with
  | [] => ret foundChannels
  | channel :: rest =>
      commitPointBytes <~ lift (wrapErr "unable to decode commit point"
                                  (hexDecodeString (CP channel))) ;;
      commitPoint <~ lift (wrapErr "unable to parse commit point"
                             (ParsePubKey commitPointBytes)) ;;
      a <~ lift (ParseAddress (Addr channel) chainParams) ;;
      fun w =>
        match lookupInCache numKeys (EncodeAddress a) commitPoint w with
        | (Ok _, w') =>
            findAncientChannels_loop rest numKeys
              (foundChannels ++ [channel]) w'
        | (Err e, w') =>
            if isAddrNotFound e
            then findAncientChannels_loop rest numKeys foundChannels w'
            else (Err e, w')
        | (Panic, w') => (Panic, w')
        end
  end.

(** What the lookup of one record comes to: found, not found, or an error
    of another kind. *)
Definition recordOutcome (c : Cache) (numKeys : Z) (channel : ancientChannel)
  : result bool :=
  commitPointBytes <- wrapErr "unable to decode commit point"
                        (hexDecodeString (CP channel)) ;;
  commitPoint <- wrapErr "unable to parse commit point"
                   (ParsePubKey commitPointBytes) ;;
  a <- ParseAddress (Addr channel) chainParams ;;
  match keyInCache c numKeys (EncodeAddress a) commitPoint with
  | Ok _ => Ok true
  | Err e => if isAddrNotFound e then Ok false else Err e
  | Panic => Panic
  end.

(** A record whose lookup is settled: found or not found. *)
Definition classified (c : Cache) (numKeys : Z) (channel : ancientChannel)
  : Prop :=
  exists found, recordOutcome c numKeys channel = Ok found.

Definition isFound (c : Cache) (numKeys : Z) (channel : ancientChannel)
  : bool :=
  match recordOutcome c numKeys channel with
  | Ok true => true
  | _ => false
  end.

Definition findAncientChannels (channels : list ancientChannel)
  (numKeys : Z) (key : ExtendedKey) : M (list ancientChannel) :=
  _ <~ doFillCache numKeys key ;;
  findAncientChannels_loop channels numKeys [].

Fixpoint checkAncientChannelPoints_loop (api : ExplorerAPI) (numKeys : Z)
  (ancientChannels : list ancientChannel) (targets : list targetAddr)
  : M (list targetAddr) :=
  match ancientChannels with
  | [] => ret targets
  | ancientChannel :: rest =>
      op <~ lift (wrapErr "unable to parse outpoint"
                    (ParseOutpoint (OP ancientChannel))) ;;
      commitPointBytes <~ lift (wrapErr "unable to decode commit point"
                                  (hexDecodeString (CP ancientChannel))) ;;
      commitPoint <~ lift (wrapErr "unable to parse commit point"
                             (ParsePubKey commitPointBytes)) ;;
      a <~ lift (ParseAddress (Addr ancientChannel) chainParams) ;;
      tx <~ wrapM "could not query transaction"
              (callTransaction api (HashString (opHash op))) ;;
      vout <~ lift (match nth_error (txVout tx) (Z.to_nat (opIndex op)) with
                    | Some v => Ok v
                    | None => Panic
                    end) ;;
      pkScript <~ lift (wrapErr "could not decode script pubkey"
                          (hexDecodeString (ScriptPubkey vout))) ;;
      let txOut :=
        {| Value := int64 (voutValue vout); PkScript := pkScript |} in
      found <~ lookupInCache numKeys (EncodeAddress a) commitPoint ;;
      checkAncientChannelPoints_loop api numKeys rest
        (targets ++ [ {| addr := a; keyDesc := fst found;
                         tweak := snd found;
                         utxos := [ {| utxoOutPoint := op;
                                       utxoTxOut := txOut |} ];
                         script := []; scriptTree := None |} ])
  end.

Definition checkAncientChannelPoints (api : ExplorerAPI) (numKeys : Z)
  (key : ExtendedKey) : M (list targetAddr) :=
  channels <~ lift ancientChannelPoints ;;
  ancientChannels <~ findAncientChannels channels numKeys key ;;
  checkAncientChannelPoints_loop api numKeys ancientChannels [].

End Scan.

(** *** The sweep transaction *)

Section Build.

Context {ec : Btcec} {hd : Hdkeychain} {bu : Btcutil} {env : SweepEnv}.
Context {signing : Signing}.

(** The variables the input loop of [sweepRemoteClosed] updates.
    [prevOutFetcher] is the [txscript.MultiPrevOutFetcher] every sign
    descriptor points to; a descriptor that stayed [nil] is [None]. *)
Record buildState : Type :=
  { estimator : TxWeightEstimator;
    signDescs : list (option SignDescriptor);
    sweepTx : MsgTx;
    totalOutputValue : Z;
    prevOutFetcher : list (OutPoint * TxOut) }.

Definition withInputs (tx : MsgTx) (ins : list TxIn) : MsgTx :=
  {| Version := Version tx; txIn := ins; txOut := txOut tx;
     LockTime := LockTime tx |}.

Definition withOutputs (tx : MsgTx) (outs : list TxOut) : MsgTx :=
  {| Version := Version tx; txIn := txIn tx; txOut := outs;
     LockTime := LockTime tx |}.

(** Updating the input at [i] in place; [None] when there is none. *)
Fixpoint updateInput (ins : list TxIn) (i : nat) (f : TxIn -> TxIn)
  : option (list TxIn) :=
  match ins, i with
  | [], _ => None
  | x :: ins', O => Some (f x :: ins')
  | x :: ins', S i' => option_map (cons x) (updateInput ins' i' f)
  end.

Definition setSequence (s : Z) (i : TxIn) : TxIn :=
  {| PreviousOutPoint := PreviousOutPoint i; Sequence := s;
     Witness := Witness i |}.

Definition setWitness (w : list bytes) (i : TxIn) : TxIn :=
  {| PreviousOutPoint := PreviousOutPoint i; Sequence := Sequence i;
     Witness := w |}.

(** [txIn.Sequence = s] for the input appended last: [txIn] points into
    [sweepTx.TxIn], the store changes the transaction. *)
Definition setLastSequence (tx : MsgTx) (inputIndex : nat) (s : Z)
  : result MsgTx :=
  match updateInput (txIn tx) inputIndex (setSequence s) with
  | Some ins => Ok (withInputs tx ins)
  | None => Panic
  end.

(** The body of the inner loop: one UTXO of one target. *)
Definition addUtxo (target : targetAddr) (u : utxo) (st : buildState)
  : result buildState :=
  let total :=
    uint64 (totalOutputValue st + uint64 (Value (utxoTxOut u))) in
  let fetcher := prevOutFetcher st ++ [(utxoOutPoint u, utxoTxOut u)] in
  let newIn :=
    {| PreviousOutPoint := utxoOutPoint u; Sequence := MaxTxInSequenceNum;
       Witness := [] |} in
  let tx := withInputs (sweepTx st) (txIn (sweepTx st) ++ [newIn]) in
  let inputIndex := (length (txIn tx) - 1)%nat in
  match addr target with
  | AddressWitnessPubKeyHash _ _ =>
      let est := AddP2WKHInput (estimator st) in
      let signDesc :=
        {| KeyDesc := keyDesc target; WitnessScript := script target;
           SingleTweak := tweak target; Output := utxoTxOut u;
           HashType := SigHashAll; SigHashes := None;
           InputIndex := inputIndex; ControlBlockBytes := [];
           SignMethodOf := WitnessV0SignMethod; TapTweak := [] |} in
      Ok {| estimator := est; signDescs := signDescs st ++ [Some signDesc];
            sweepTx := tx; totalOutputValue := total;
            prevOutFetcher := fetcher |}
  | AddressWitnessScriptHash _ _ =>
      let est := AddWitnessInput (estimator st)
                   ToRemoteConfirmedWitnessSize in
      tx <- setLastSequence tx inputIndex 1 ;;
      let signDesc :=
        {| KeyDesc := keyDesc target; WitnessScript := script target;
           SingleTweak := []; Output := utxoTxOut u;
           HashType := SigHashAll; SigHashes := None;
           InputIndex := inputIndex; ControlBlockBytes := [];
           SignMethodOf := WitnessV0SignMethod; TapTweak := [] |} in
      Ok {| estimator := est; signDescs := signDescs st ++ [Some signDesc];
            sweepTx := tx; totalOutputValue := total;
            prevOutFetcher := fetcher |}
  | AddressTaproot _ _ =>
      let est := AddWitnessInput (estimator st) TaprootToRemoteWitnessSize in
      tx <- setLastSequence tx inputIndex 1 ;;
      tree <- match scriptTree target with
              | Some t => Ok t
              | None => Panic
              end ;;
      controlBlock <- CtrlBlockForPathSuccess tree ;;
      controlBlockBytes <- ToBytes controlBlock ;;
      let signDesc :=
        {| KeyDesc := keyDesc target;
           WitnessScript := SettleLeafScript tree;
           SingleTweak := []; Output := utxoTxOut u;
           HashType := SigHashDefault; SigHashes := None;
           InputIndex := inputIndex;
           ControlBlockBytes := controlBlockBytes;
           SignMethodOf := TaprootScriptSpendSignMethod;
           TapTweak := TapscriptRoot tree |} in
      Ok {| estimator := est; signDescs := signDescs st ++ [Some signDesc];
            sweepTx := tx; totalOutputValue := total;
            prevOutFetcher := fetcher |}
  | _ =>
      Ok {| estimator := estimator st; signDescs := signDescs st ++ [None];
            sweepTx := tx; totalOutputValue := total;
            prevOutFetcher := fetcher |}
  end.

Fixpoint addUtxos (target : targetAddr) (us : list utxo) (st : buildState)
  : result buildState :=
  match us with
  | [] => Ok st
  | u :: us' => st' <- addUtxo target u st ;; addUtxos target us' st'
  end.

(** [for _, target := range targets { for _, utxo := range target.utxos ]. *)
Fixpoint addTargets (targets : list targetAddr) (st : buildState)
  : result buildState :=
  match targets with
  | [] => Ok st
  | target :: rest =>
      st' <- addUtxos target (utxos target) st ;; addTargets rest st'
  end.

Definition initialState (est : TxWeightEstimator) : buildState :=
  {| estimator := est; signDescs := []; sweepTx := NewMsgTx 2;
     totalOutputValue := 0; prevOutFetcher := [] |}.

(** The error of the dust check. *)
Definition errBelowDust : error :=
  errNew "found sweep targets with total value which is below the dust limit".

Definition withSigning (d : SignDescriptor) (h : TxSigHashes) (idx : nat)
  : SignDescriptor :=
  {| KeyDesc := KeyDesc d; SingleTweak := SingleTweak d;
     WitnessScript := WitnessScript d; Output := Output d;
     HashType := HashType d; SigHashes := Some h; InputIndex := idx;
     ControlBlockBytes := ControlBlockBytes d;
     SignMethodOf := SignMethodOf d; TapTweak := TapTweak d |}.

Definition withWitnessScript (d : SignDescriptor) (s : bytes)
  : SignDescriptor :=
  {| KeyDesc := KeyDesc d; SingleTweak := SingleTweak d;
     WitnessScript := s; Output := Output d;
     HashType := HashType d; SigHashes := SigHashes d;
     InputIndex := InputIndex d;
     ControlBlockBytes := ControlBlockBytes d;
     SignMethodOf := SignMethodOf d; TapTweak := TapTweak d |}.

(** The [switch] of the signing loop for one descriptor. *)
Definition signInput (extendedKey : ExtendedKey)
  (fetcher : list (OutPoint * TxOut)) (desc : SignDescriptor) (tx : MsgTx)
  : result (list bytes) :=
  if isTaprootScriptSpend (SignMethodOf desc)
  then TaprootCommitSpendSuccess extendedKey desc fetcher tx
  else if (0 <? length (WitnessScript desc))%nat
  then CommitSpendToRemoteConfirmed extendedKey desc fetcher tx
  else
    let desc := withWitnessScript desc (PkScript (Output desc)) in
    CommitSpendNoDelay extendedKey desc fetcher tx true.

(** [for idx, desc := range signDescs { ... }]. *)
Fixpoint signLoop (extendedKey : ExtendedKey) (sigHashes : TxSigHashes)
  (fetcher : list (OutPoint * TxOut)) (idx : nat)
  (descs : list (option SignDescriptor)) (tx : MsgTx) : result MsgTx :=
  match descs with
  | [] => Ok tx
  | None :: _ => Panic
  | Some desc :: rest =>
      let desc := withSigning desc sigHashes idx in
      witness <- signInput extendedKey fetcher desc tx ;;
      match updateInput (txIn tx) idx (setWitness witness) with
      | Some ins =>
          signLoop extendedKey sigHashes fetcher (S idx) rest
            (withInputs tx ins)
      | None => Panic
      end
  end.

(** The fee of lines 304-307. *)
Definition totalFeeOf (feeRate : Z) (est : TxWeightEstimator) : Z :=
  let feeRateKWeight := FeePerKWeight (mul32 1000 feeRate) in
  FeeForWeight feeRateKWeight (Weight est).

(** The transaction of lines 312-315, before signing. *)
Definition withSweepOutput (st : buildState) (sweepScript : bytes)
  (feeRate : Z) : MsgTx :=
  let totalFee := totalFeeOf feeRate (estimator st) in
  withOutputs (sweepTx st)
    [ {| Value :=
           int64 (int64 (totalOutputValue st) - int64 totalFee);
         PkScript := sweepScript |} ].

Definition signSweep (extendedKey : ExtendedKey) (st : buildState)
  (tx : MsgTx) : result MsgTx :=
  let sigHashes := NewTxSigHashes tx (prevOutFetcher st) in
  signLoop extendedKey sigHashes (prevOutFetcher st) 0 (signDescs st) tx.

(** Lines 210-364 of [sweepRemoteClosed]: from the targets to the signed
    transaction. *)
Definition buildAndSign (extendedKey : ExtendedKey)
  (targets : list targetAddr) (est : TxWeightEstimator)
  (sweepScript : bytes) (feeRate : Z) : result MsgTx :=
  st <- addTargets targets (initialState est) ;;
  if (length targets =? 0)%nat || (totalOutputValue st <? sweepDustLimit)
  then Err errBelowDust
  else signSweep extendedKey st (withSweepOutput st sweepScript feeRate).

(** The inputs of the sweep in the order they are added: every UTXO of
    every target, with the target's address. *)
Definition inputsOf (targets : list targetAddr)
  : list (Address Params * utxo) :=
  flat_map (fun t => map (fun u => (addr t, u)) (utxos t)) targets.

(** The sequence number by address type: the one-block delay for the anchor
    and taproot outputs, the default for the rest. *)
Definition sequenceFor (a : Address Params) : Z :=
  match a with
  | AddressWitnessScriptHash _ _ => 1
  | AddressTaproot _ _ => 1
  | _ => MaxTxInSequenceNum
  end.

(** The input spending a UTXO, before it is signed. *)
Definition inputFor (au : Address Params * utxo) : TxIn :=
  {| PreviousOutPoint := utxoOutPoint (snd au);
     Sequence := sequenceFor (fst au); Witness := [] |}.

(** What one input of an address type adds to the weight estimate. *)
Definition estimatorStep (e : TxWeightEstimator) (au : Address Params * utxo)
  : TxWeightEstimator :=
  match fst au with
  | AddressWitnessPubKeyHash _ _ => AddP2WKHInput e
  | AddressWitnessScriptHash _ _ =>
      AddWitnessInput e ToRemoteConfirmedWitnessSize
  | AddressTaproot _ _ => AddWitnessInput e TaprootToRemoteWitnessSize
  | _ => e
  end.

Definition estimatorAfter (targets : list targetAddr)
  (est : TxWeightEstimator) : TxWeightEstimator :=
  fold_left estimatorStep (inputsOf targets) est.

(** The running total as the loop computes it, in [uint64]. *)
Definition totalAfter (inputs : list (Address Params * utxo)) (start : Z)
  : Z :=
  fold_left (fun acc au => uint64 (acc + uint64 (Value (utxoTxOut (snd au)))))
    inputs start.

(** The sum of the values of all inputs. *)
Definition totalValue (targets : list targetAddr) : Z :=
  fold_right (fun au acc => Value (utxoTxOut (snd au)) + acc) 0
    (inputsOf targets).

(** The fee of the sweep: the rate in sat/vByte as sat/kvByte (a [uint32]
    product), converted to sat/kweight, applied to the weight estimated for
    all inputs. *)
Definition sweepFee (feeRate : Z) (targets : list targetAddr)
  (est : TxWeightEstimator) : Z :=
  FeeForWeight (FeePerKWeight (mul32 1000 feeRate))
    (Weight (estimatorAfter targets est)).

(** Every input value is a non-negative amount. *)
Definition valuesNonNegative (targets : list targetAddr) : Prop :=
  Forall (fun au => 0 <= Value (utxoTxOut (snd au))) (inputsOf targets).

(** Lines 196-208: the ancient channel targets, with an address that was
    not found taken for no targets. *)
Definition ancientTargets (api : ExplorerAPI) (recoveryWindow : Z)
  (extendedKey : ExtendedKey) : M (list targetAddr) :=
  fun w =>
    match checkAncientChannelPoints api recoveryWindow extendedKey w with
    | (Ok ts, w') => (Ok ts, w')
    | (Err e, w') =>
        if isAddrNotFound e then (Ok [], w')
        else (Err (errWrap "could not check ancient channel points" e), w')
    | (Panic, w') => (Panic, w')
    end.

(** Lines 210-386: build, sign, serialize and, when asked, publish. *)
Definition finishSweep (extendedKey : ExtendedKey) (api : ExplorerAPI)
  (targets : list targetAddr) (est : TxWeightEstimator)
  (sweepScript : bytes) (feeRate : Z) (publish : bool) : M unit :=
  tx <~ lift (buildAndSign extendedKey targets est sweepScript feeRate) ;;
  buf <~ lift (Serialize tx) ;;
  if publish
  then _ <~ callPublishTx api (hexEncodeToString buf) ;; ret tt
  else ret tt.

Definition sweepRemoteClosed (extendedKey : ExtendedKey)
  (api : ExplorerAPI) (sweepAddr : gostring) (recoveryWindow feeRate : Z)
  (publish : bool) : M unit :=
  prepared <~ lift (PrepareWalletAddress sweepAddr chainParams newEstimator
                      extendedKey) ;;
  let sweepScript := fst prepared in
  let est := snd prepared in
  targets <~ scan api extendedKey recoveryWindow ;;
  ancientChannelTargets <~ ancientTargets api recoveryWindow extendedKey ;;
  let targets := targets ++ ancientChannelTargets in
  finishSweep extendedKey api targets est sweepScript feeRate publish.

End Build.

End Sweep.

(** ** The text of derivation paths

    The strings [ParsePath] accepts, described segment by segment. *)

Module PathGrammar.

Import GoStrings Lnd Sweep.

(** A path segment as text: an optional sign, decimal digits, and hardened
    marks at the end. *)
Inductive sign : Type := NoSign | PlusSign | MinusSign.

Record segment : Type :=
  { sgSign : sign; sgDigits : gostring; sgMarks : nat }.

Definition signText (s : sign) : gostring :=
  match s with NoSign => [] | PlusSign => [plus] | MinusSign => [minus] end.

Definition decimalValue (ds : gostring) : Z :=
  fold_left (fun acc c => acc * 10 + digitVal c) ds 0.

Definition signedValue (s : sign) (ds : gostring) : Z :=
  match s with MinusSign => - decimalValue ds | _ => decimalValue ds end.

Definition segText (s : segment) : gostring :=
  signText (sgSign s) ++ sgDigits s ++ repeat quote (sgMarks s).

Definition segValue (s : segment) : Z := signedValue (sgSign s) (sgDigits s).

(** What [ParsePath] accepts as a segment: at least one digit, and a value
    that fits a 64-bit [int]. *)
Definition segOk (s : segment) : Prop :=
  sgDigits s <> [] /\ forallb isDigit (sgDigits s) = true
  /\ - 2 ^ 63 <= segValue s <= 2 ^ 63 - 1.

(** The index stored for a segment: the value modulo [2^32], moved by
    [HardenedKeyStart] modulo [2^32] when the segment carries a mark. *)
Definition segIndex (s : segment) : Z :=
  ((if (0 <? sgMarks s)%nat then HardenedKeyStart else 0) + segValue s)
    mod 2 ^ 32.

(** The text [m/seg/seg/...]. *)
Definition pathText (segs : list segment) : gostring :=
  str "m" ++ flat_map (fun s => slash :: segText s) segs.

(** [text] is a path of segments [ParsePath] accepts, with the indices
    [indices]. *)
Definition parsesTo (text : gostring) (indices : list Z) : Prop :=
  exists segs, segs <> [] /\ Forall segOk segs
               /\ text = pathText segs /\ indices = map segIndex segs.

(** A decimal segment, marked or not. *)
Definition decimalSegment (n : Z) (marks : nat) : segment :=
  {| sgSign := NoSign; sgDigits := formatUint n; sgMarks := marks |}.

(** The parts put together again with the separator between them. *)
Fixpoint joinParts (parts : list gostring) : gostring :=
  match parts with
  | [] => []
  | p :: ps =>
      match ps with
      | [] => p
      | _ :: _ => p ++ slash :: joinParts ps
      end
  end.

(** Every part parsed in turn, stopping at the first error. *)
Fixpoint parseAll (parts : list gostring) : result (list Z) :=
  match parts with
  | [] => Ok []
  | p :: rest =>
      bind (parsePart p) (fun v =>
        bind (parseAll rest) (fun vs => Ok (v :: vs)))
  end.

End PathGrammar.

(** ** A small executable instance

    The interfaces above are instantiated once, so that the definitions can
    be run on concrete inputs: extended keys are the text of their
    derivation, a hash keeps the last bytes of its input, the explorer is a
    table.  The fee
    functions and the P2WKH sizes of the estimator are those of [lnd].  The
    general statements below hold for every instance. *)

Module Model.

Import GoStrings Lnd Cln Sweep.

Definition textBytes (s : gostring) : bytes :=
  map (fun c => Z.of_nat (nat_of_ascii c)) s.

Definition bytesText (b : bytes) : gostring :=
  map (fun z => ascii_of_nat (Z.to_nat z)) b.

Definition pad (n : nat) (b : bytes) : bytes := firstn n (b ++ repeat 0 n).

#[export] Instance btcec : Btcec :=
  {| PublicKey := bytes;
     PrivateKey := bytes;
     SerializeCompressed := fun pk => pk;
     PubKey := fun priv => 2 :: priv;
     PrivKeyFromBytes := fun b => b;
     ParsePubKey := fun b =>
       if (length b =? 33)%nat then Ok b
       else Err (errNew "malformed public key") |}.

(** An extended key: the text of its derivation, and whether it was read
    back from its serialized form. *)
Record symKey : Type := { skText : gostring; skReread : bool }.

Definition countSlash (s : gostring) : Z :=
  Z.of_nat (List.length (filter (ascii_eqb slash) s)).

(** An index in binary, by recursion on its representation. *)
Fixpoint posBits (p : positive) : gostring :=
  match p with
  | xH => str "1"
  | xO q => posBits q ++ str "0"
  | xI q => posBits q ++ str "1"
  end.

Definition indexText (i : Z) : gostring :=
  match i with
  | Z0 => str "0"
  | Zpos p => posBits p
  | Zneg p => minus :: posBits p
  end.

Definition symDerive (k : symKey) (i : Z) : result symKey :=
  Ok {| skText := skText k ++ (if skReread k then str "=" else [])
                  ++ slash :: indexText i;
        skReread := false |}.

#[export] Instance hdkeychain : Hdkeychain :=
  {| ExtendedKey := symKey;
     DeriveNonStandard := symDerive;
     Depth := fun k => countSlash (skText k);
     KeyString := skText;
     NewKeyFromString := fun s => Ok {| skText := s; skReread := true |};
     ECPrivKey := fun k => Ok (textBytes (skText k)) |}.

Definition addressTag (a : Address Z) : gostring :=
  match a with
  | AddressPubKeyHash h _ => str "1" ++ bytesText h
  | AddressScriptHash h _ => str "3" ++ bytesText h
  | AddressWitnessPubKeyHash p _ => str "q" ++ bytesText p
  | AddressWitnessScriptHash p _ => str "s" ++ bytesText p
  | AddressTaproot p _ => str "p" ++ bytesText p
  end.

Definition decodeTagged (s : gostring) (net : Z) : result (Address Z) :=
  match s with
  | c :: rest =>
      if ascii_eqb c "q" then Ok (AddressWitnessPubKeyHash (textBytes rest) net)
      else if ascii_eqb c "s"
      then Ok (AddressWitnessScriptHash (textBytes rest) net)
      else if ascii_eqb c "p" then Ok (AddressTaproot (textBytes rest) net)
      else Err (errNew "unknown address type")
  | [] => Err (errNew "empty address")
  end.

#[export] Instance btcutil : Btcutil :=
  {| Params := Z;
     HDCoinType := fun p => p;
     Hash160 := fun b => pad 20 (rev b);
     Sum256 := fun b => pad 32 (rev b);
     SchnorrSerializePubKey := fun pk => pad 32 (skipn 1 pk);
     ComputeTaprootKeyNoScript := fun pk => pk;
     PayToAddrScript := fun a => Ok (textBytes (addressTag a));
     EncodeAddress := addressTag;
     DecodeAddress := decodeTagged;
     IsForNet := fun _ _ => true;
     CommitScriptTree := bytes;
     TaprootKey := fun t => t;
     CommitScriptToRemoteConfirmed := fun pk => Ok (33 :: pk ++ [173; 81; 178]);
     NewRemoteCommitScriptTree := fun pk => Ok pk |}.

(** An expander whose output is the last bytes of what it is keyed with. *)
#[export] Instance hkdf : Hkdf :=
  {| hkdfRead := fun secret salt info n =>
       Ok (pad n (rev (secret ++ salt ++ info))) |}.

(** The fields of [input.TxWeightEstimator]. *)
Record estimatorState : Type :=
  { hasWitness : bool; inputCount : Z; outputCount : Z; inputSize : Z;
    inputWitnessSize : Z; outputSize : Z }.

Definition VarIntSerializeSize (n : Z) : Z :=
  if n <? 253 then 1 else if n <=? 65535 then 3
  else if n <=? 4294967295 then 5 else 9.

Definition addWitnessInput (e : estimatorState) (witnessSize : Z)
  : estimatorState :=
  {| hasWitness := true; inputCount := inputCount e + 1;
     outputCount := outputCount e; inputSize := inputSize e + 41;
     inputWitnessSize := inputWitnessSize e + witnessSize;
     outputSize := outputSize e |}.

Definition addP2WKHOutput (e : estimatorState) : estimatorState :=
  {| hasWitness := hasWitness e; inputCount := inputCount e;
     outputCount := outputCount e + 1; inputSize := inputSize e;
     inputWitnessSize := inputWitnessSize e;
     outputSize := outputSize e + 31 |}.

Definition weight (e : estimatorState) : Z :=
  let txSizeStripped :=
    8 + VarIntSerializeSize (inputCount e) + inputSize e
    + VarIntSerializeSize (outputCount e) + outputSize e in
  let w := txSizeStripped * 4 in
  if hasWitness e then w + 2 + inputWitnessSize e else w.

Definition found : gostring := str "qfound".

#[export] Instance env : SweepEnv :=
  {| chainParams := 0;
     TxWeightEstimator := estimatorState;
     newEstimator :=
       {| hasWitness := false; inputCount := 0; outputCount := 0;
          inputSize := 0; inputWitnessSize := 0; outputSize := 0 |};
     AddP2WKHInput := fun e => addWitnessInput e 109;
     AddWitnessInput := addWitnessInput;
     Weight := weight;
     ToRemoteConfirmedWitnessSize := 113;
     TaprootToRemoteWitnessSize := 141;
     FeePerKWeight := fun s => Z.quot s 4;
     FeeForWeight := fun s wu => Z.quot (s * wu) 1000;
     ControlBlock := bytes;
     CtrlBlockForPathSuccess := fun t => Ok (192 :: t);
     ToBytes := fun c => Ok c;
     SettleLeafScript := fun t => 32 :: t ++ [172; 81; 178; 117];
     TapscriptRoot := pad 32;
     TxSigHashes := unit;
     NewTxSigHashes := fun _ _ => tt;
     NewHashFromStr := fun s => Ok (pad 32 (textBytes s));
     hexDecodeString := fun s => Ok (textBytes s);
     hexEncodeToString := bytesText;
     Serialize := fun tx => Ok [Version tx; Z.of_nat (List.length (txIn tx))];
     HashString := bytesText;
     PrepareWalletAddress := fun a _ e _ => Ok (textBytes a, addP2WKHOutput e);
     ParseOutpoint := fun s =>
       Ok {| opHash := pad 32 (textBytes s); opIndex := 0 |};
     ancientChannelPoints :=
       Ok [ {| OP := str "aa:0"; Addr := str "qlost";
               CP := str "02ccccccccccccccccccccccccccccccc" |} ];
     Cache := Z;
     fillCache := fun n _ _ => Ok n;
     keyInCache := fun _ _ a cp =>
       if HasPrefix a found
       then Ok ({| keyLocator := {| Family := KeyFamilyPaymentBase;
                                    Index := 0 |};
                   descPubKey := cp |}, [7])
       else Err errAddrNotFound |}.

#[export] Instance signing : Signing :=
  {| TaprootCommitSpendSuccess := fun _ d _ _ =>
       Ok [[64]; WitnessScript d; ControlBlockBytes d];
     CommitSpendToRemoteConfirmed := fun _ d _ _ =>
       Ok [[72]; WitnessScript d];
     CommitSpendNoDelay := fun _ d _ _ _ =>
       Ok [[72]; SerializeCompressed (descPubKey (KeyDesc d))] |}.

(** An explorer that knows one funded address. *)
Definition explorer (funded : gostring) (value : Z) : ExplorerAPI :=
  {| Unspent := fun a =>
       if HasPrefix a funded && HasPrefix funded a
       then Ok [ {| voutValue := value; ScriptPubkey := a;
                    OutspendTxid := str "tx"; OutspendVin := 0 |} ]
       else Ok [];
     Transaction := fun txid =>
       Ok {| txVout := [ {| voutValue := value; ScriptPubkey := txid;
                            OutspendTxid := txid; OutspendVin := 0 |} ] |};
     PublishTx := fun _ => Ok (str "ok") |}.

Definition master : symKey := {| skText := str "m"; skReread := false |}.

Definition sampleKeyDesc : KeyDescriptor :=
  {| keyLocator := {| Family := KeyFamilyPaymentBase; Index := 3 |};
     descPubKey := 2 :: repeat 9 32 |}.

Definition sampleUtxo (value : Z) : utxo :=
  {| utxoTxOut := {| Value := value; PkScript := [0; 20] |};
     utxoOutPoint := {| opHash := repeat 171 32; opIndex := 0 |} |}.

(** A plain key-hash target with one UTXO. *)
Definition p2wkhTarget (value : Z) : targetAddr :=
  {| addr := AddressWitnessPubKeyHash (repeat 1 20) 0;
     keyDesc := sampleKeyDesc; tweak := []; utxos := [sampleUtxo value];
     script := []; scriptTree := None |}.

Definition anchorTarget (value : Z) : targetAddr :=
  {| addr := AddressWitnessScriptHash (repeat 2 32) 0;
     keyDesc := sampleKeyDesc; tweak := []; utxos := [sampleUtxo value];
     script := 33 :: descPubKey sampleKeyDesc ++ [173; 81; 178];
     scriptTree := None |}.

Definition taprootTarget (value : Z) : targetAddr :=
  {| addr := AddressTaproot (repeat 3 32) 0;
     keyDesc := sampleKeyDesc; tweak := []; utxos := [sampleUtxo value];
     script := []; scriptTree := Some (descPubKey sampleKeyDesc) |}.

(** Two records of ancient channels: one whose address the cache does not
    hold, one it holds. *)
Definition lostRecord : ancientChannel :=
  {| OP := str "aa:0"; Addr := str "qlost";
     CP := str "02ccccccccccccccccccccccccccccccc" |}.

Definition foundRecord : ancientChannel :=
  {| OP := str "bb:0"; Addr := str "qfound1";
     CP := str "02ddddddddddddddddddddddddddddddd" |}.

(** The estimator after [PrepareWalletAddress] added a P2WKH output. *)
Definition preparedEstimator : estimatorState :=
  addP2WKHOutput newEstimator.

(** The payment base key of an index under [master], its candidates, and
    the address the sample explorer funds. *)
Definition pkAt (i : Z) : PublicKey :=
  match paymentBaseKey master i with
  | Ok pk => pk
  | _ => []
  end.

Definition candsAt (i : Z) : list candidate :=
  match targetsFor (pkAt i) with
  | Ok cs => cs
  | _ => []
  end.

(** The key-hash address of index 3. *)
Definition fundedAddress : gostring :=
  match candsAt 3 with
  | c :: _ => EncodeAddress (cAddr c)
  | [] => []
  end.

Definition emptyWorld : World := {| apiLog := []; cache := 0 |}.

End Model.

(** ** [lnd/hdkeychain.go]: path texts, single keys, scripts, the key ring *)

Module LndKeys.

Import GoStrings Lnd Sweep.

Local Open Scope result_scope.

(** [keychain.BIP0043Purpose] and the key families the paths name. *)
Definition BIP0043Purpose : Z := 1017.
Definition KeyFamilyMultiSig : Z := 0.
Definition KeyFamilyNodeKey : Z := 6.

Definition WalletDefaultDerivationPath : gostring := str "m/84'/0'/0'".
Definition WalletBIP49DerivationPath : gostring := str "m/49'/0'/0'".
Definition WalletBIP86DerivationPath : gostring := str "m/86'/0'/0'".

(** [%d] of a signed integer. *)
Definition formatInt (n : Z) : gostring :=
  if n <? 0 then minus :: formatUint (- n) else formatUint n.

(** [fmt.Sprintf(LndDerivationPath, coinType, family)] with
    [LndDerivationPath = "m/1017'/%d'/%d'"]. *)
Definition LndDerivationPath (coinType family : Z) : gostring :=
  str "m/1017'/" ++ formatUint coinType ++ str "'/" ++ formatUint family
  ++ str "'".

(** [paths[idx] = p]; out of range is a run-time panic in Go. *)
Fixpoint storeAt {A : Type} (l : list A) (i : nat) (v : A)
  : option (list A) :=
  match l, i with
  | [], _ => None
  | _ :: l', O => Some (v :: l')
  | x :: l', S i' => option_map (cons x) (storeAt l' i' v)
  end.

(** [for idx, path := range pathStrings { ... paths[idx] = p }]. *)
Fixpoint AllDerivationPaths_loop (rest : list gostring) (idx : nat)
  (paths : list (list Z)) : result (list (list Z)) :=
  match rest with
  | [] => Ok paths
  | path :: rest' =>
      p <- ParsePath path ;;
      match storeAt paths idx p with
      | Some paths' => AllDerivationPaths_loop rest' (S idx) paths'
      | None => Panic
      end
  end.

(** What the functions below use of [hdkeychain], [btcutil] and
    [keychain] beyond the interfaces above. *)
Class KeyTools {ec : Btcec} {hd : Hdkeychain} {bu : Btcutil} : Type := {
  (** [ExtendedKey.ECPubKey]. *)
  ECPubKey : ExtendedKey -> result PublicKey;
  (** [btcutil.WIF] and [btcutil.NewWIF]. *)
  WIF : Type;
  NewWIF : PrivateKey -> Params -> bool -> result WIF;
  (** [PublicKey.IsEqual]. *)
  IsEqual : PublicKey -> PublicKey -> bool;
  (** [keychain.MaxKeyRangeScan]. *)
  MaxKeyRangeScan : Z
}.

(** [txscript.ScriptBuilder]. *)
Class Txscript : Type := {
  ScriptBuilder : Type;
  NewScriptBuilder : ScriptBuilder;
  AddOp : ScriptBuilder -> Z -> ScriptBuilder;
  AddData : ScriptBuilder -> bytes -> ScriptBuilder;
  BuilderScript : ScriptBuilder -> result bytes
}.

Definition OP_0 : Z := 0.

(** [keychain.ErrCannotDerivePrivKey]. *)
Definition ErrCannotDerivePrivKey : error :=
  errNew "unable to derive private key".

Section Keys.

Context {ec : Btcec} {hd : Hdkeychain} {bu : Btcutil}.
Context {kt : KeyTools} {ts : Txscript}.

Definition IdentityPath (params : Params) : gostring :=
  LndDerivationPath (HDCoinType params) KeyFamilyNodeKey ++ str "/0/0".

Definition MultisigPath (params : Params) (index : Z) : gostring :=
  LndDerivationPath (HDCoinType params) KeyFamilyMultiSig ++ str "/0/"
  ++ formatInt index.

Definition AllDerivationPaths (params : Params)
  : result (list gostring * list (list Z)) :=
  let mkPath := fun f : Z =>
    LndDerivationPath (HDCoinType params) (uint32 f) in
  let pathStrings :=
    [ WalletBIP49DerivationPath; WalletDefaultDerivationPath;
      WalletBIP86DerivationPath; mkPath KeyFamilyPaymentBase ] in
  let paths := repeat [] (length pathStrings) in
  paths <- AllDerivationPaths_loop pathStrings 0 paths ;;
  Ok (pathStrings, paths).

(** [lnd.DeriveKey]: the key at a path text, with its public key and its
    private key in WIF. *)
Definition DeriveKey (extendedKey : ExtendedKey) (path : gostring)
  (params : Params) : result (ExtendedKey * PublicKey * WIF) :=
  parsedPath <- wrapErr "could not parse derivation path" (ParsePath path) ;;
  derivedKey <- wrapErr "could not derive children"
                  (DeriveChildren extendedKey parsedPath) ;;
  pubKey <- wrapErr "could not derive public key" (ECPubKey derivedKey) ;;
  privKey <- wrapErr "could not derive private key" (ECPrivKey derivedKey) ;;
  wif <- wrapErr "could not encode WIF" (NewWIF privKey params true) ;;
  Ok (derivedKey, pubKey, wif).

Definition PrivKeyFromPath (extendedKey : ExtendedKey) (path : list Z)
  : result PrivateKey :=
  derivedKey <- wrapErr "could not derive children"
                  (DeriveChildren extendedKey path) ;;
  privKey <- wrapErr "could not derive private key" (ECPrivKey derivedKey) ;;
  Ok privKey.

(** [(Address).ScriptAddress]: the hash or program the address encodes. *)
Definition ScriptAddress (a : Address Params) : bytes :=
  match a with
  | AddressPubKeyHash h _ => h
  | AddressScriptHash h _ => h
  | AddressWitnessPubKeyHash p _ => p
  | AddressWitnessScriptHash p _ => p
  | AddressTaproot p _ => p
  end.

(** Returns the hash a native SegWit address encodes and whether it is a
    script hash. *)
Definition DecodeAddressHash (addr : gostring) (chainParams : Params)
  : result (bytes * bool) :=
  targetAddr <- ParseAddress addr chainParams ;;
  match targetAddr with
  | AddressWitnessPubKeyHash _ _ => Ok (ScriptAddress targetAddr, false)
  | AddressWitnessScriptHash _ _ => Ok (ScriptAddress targetAddr, true)
  | _ => Err (errNew "address: must be a bech32 P2WPKH or P2WSH address")
  end.

Definition GetWitnessAddrScript (a : Address Params) (chainParams : Params)
  : result bytes :=
  if negb (IsForNet a chainParams)
  then Err (errNew "address is not for net")
  else PayToAddrScript a.

Definition GetP2WPKHScript (addr : gostring) (chainParams : Params)
  : result bytes :=
  decoded <- DecodeAddressHash addr chainParams ;;
  let '(targetPubKeyHash, isScriptHash) := decoded in
  if isScriptHash
  then Err (errNew "address is not a P2WKH address")
  else
    let builder := NewScriptBuilder in
    let builder := AddOp builder OP_0 in
    let builder := AddData builder targetPubKeyHash in
    BuilderScript builder.

Definition GetP2WSHScript (addr : gostring) (chainParams : Params)
  : result bytes :=
  decoded <- DecodeAddressHash addr chainParams ;;
  let '(targetScriptHash, isScriptHash) := decoded in
  if negb isScriptHash
  then Err (errNew "address is not a P2WSH address")
  else
    let builder := NewScriptBuilder in
    let builder := AddOp builder OP_0 in
    let builder := AddData builder targetScriptHash in
    BuilderScript builder.

(** *** [HDKeyRing] *)

Record HDKeyRing : Type :=
  { ringExtendedKey : ExtendedKey; ringChainParams : Params }.

(** [keychain.KeyDescriptor] as the key ring handles it: [PubKey] is a
    pointer and may be nil. *)
Record keyDescriptor : Type :=
  { kdLocator : KeyLocator; kdPubKey : option PublicKey }.

Definition emptyDescriptor : keyDescriptor :=
  {| kdLocator := {| Family := 0; Index := 0 |}; kdPubKey := None |}.

Definition HDKeyRing_DeriveNextKey (r : HDKeyRing) (family : Z)
  : result keyDescriptor :=
  Ok emptyDescriptor.

(** The indices [HDKeyRing.DeriveKey] derives along. *)
Definition keyPath (r : HDKeyRing) (keyLoc : KeyLocator) : list Z :=
  [ add32 HardenedKeyStart (uint32 BIP0043Purpose);
    add32 HardenedKeyStart (HDCoinType (ringChainParams r));
    add32 HardenedKeyStart (uint32 (Family keyLoc));
    0;
    Index keyLoc ].

Definition HDKeyRing_DeriveKey (r : HDKeyRing) (keyLoc : KeyLocator)
  : result keyDescriptor :=
  derivedKey <- DeriveChildren (ringExtendedKey r) (keyPath r keyLoc) ;;
  derivedPubKey <- ECPubKey derivedKey ;;
  Ok {| kdLocator := {| Family := Family keyLoc; Index := Index keyLoc |};
        kdPubKey := Some derivedPubKey |}.

(** The static part of the path, derived once by [CheckDescriptor]. *)
Definition familyPath (r : HDKeyRing) (family : Z) : list Z :=
  [ add32 HardenedKeyStart (uint32 BIP0043Purpose);
    add32 HardenedKeyStart (HDCoinType (ringChainParams r));
    add32 HardenedKeyStart (uint32 family);
    0 ].

(** [for i := 0; i < keychain.MaxKeyRangeScan; i++ { ... }]: [n] indices
    are left, starting at [i]. *)
Fixpoint CheckDescriptor_loop (familyKey : ExtendedKey) (pub : PublicKey)
  (n : nat) (i : Z) : result unit :=
  match n with
  | O => Err ErrCannotDerivePrivKey
  | S n' =>
      child <- DeriveChildren familyKey [uint32 i] ;;
      pubKey <- ECPubKey child ;;
      if negb (IsEqual pubKey pub)
      then CheckDescriptor_loop familyKey pub n' (i + 1)
      else Ok tt
  end.

(** One pass of that loop: whether the key at index [i] is the one looked
    for. *)
Definition keyMatches (familyKey : ExtendedKey) (pub : PublicKey) (i : Z)
  : result bool :=
  child <- DeriveChildren familyKey [uint32 i] ;;
  pubKey <- ECPubKey child ;;
  Ok (IsEqual pubKey pub).

Definition HDKeyRing_CheckDescriptor (r : HDKeyRing) (keyDesc : keyDescriptor)
  : result unit :=
  match kdPubKey keyDesc with
  | None => Err (errNew "no public key provided to check")
  | Some pub =>
      familyKey <- DeriveChildren (ringExtendedKey r)
                     (familyPath r (Family (kdLocator keyDesc))) ;;
      CheckDescriptor_loop familyKey pub (Z.to_nat MaxKeyRangeScan) 0
  end.

Definition HDKeyRing_NodePubKey (r : HDKeyRing) : result (option PublicKey) :=
  keyDesc <- HDKeyRing_DeriveKey r
               {| Family := KeyFamilyNodeKey; Index := 0 |} ;;
  Ok (kdPubKey keyDesc).

End Keys.

End LndKeys.

(** ** Instances of the further interfaces *)

Module ModelKeys.

Import GoStrings Lnd Sweep LndKeys Model.

Fixpoint bytes_eqb (a b : bytes) : bool :=
  match a, b with
  | [], [] => true
  | x :: a', y :: b' => (x =? y) && bytes_eqb a' b'
  | _, _ => false
  end.

#[export] Instance keytools : KeyTools :=
  {| ECPubKey := fun k => Ok (2 :: textBytes (skText k));
     WIF := bytes;
     NewWIF := fun priv _ _ => Ok (128 :: priv);
     IsEqual := bytes_eqb;
     MaxKeyRangeScan := 100000 |}.

(** A builder that keeps the script so far; data is pushed behind its
    length. *)
#[export] Instance txscript : Txscript :=
  {| ScriptBuilder := bytes;
     NewScriptBuilder := [];
     AddOp := fun b op => b ++ [op];
     AddData := fun b d => b ++ Z.of_nat (List.length d) :: d;
     BuilderScript := fun b => Ok b |}.

Definition sampleRing : HDKeyRing :=
  {| ringExtendedKey := master; ringChainParams := 0 |}.

(** The root key and the estimator of the sample session. *)
Definition rootKey : ExtendedKey := master.

Definition sampleEstimator : TxWeightEstimator := preparedEstimator.

(** A target with a legacy address, as only the list of ancient channels
    could name one. *)
Definition legacyTarget (value : Z) : targetAddr :=
  {| addr := AddressPubKeyHash (repeat 4 20) 0;
     keyDesc := sampleKeyDesc; tweak := []; utxos := [sampleUtxo value];
     script := []; scriptTree := None |}.

(** An explorer whose transactions have no outputs. *)
Definition emptyExplorer : ExplorerAPI :=
  {| Unspent := fun _ => Ok [];
     Transaction := fun _ => Ok {| txVout := [] |};
     PublishTx := fun _ => Ok (str "ok") |}.

End ModelKeys.

(** ** The requests of a sweep session, and the targets the builder takes *)

Module SweepLog.

Import GoStrings Lnd Sweep.

Definition isPublish (c : apiCall) : bool :=
  match c with CallPublishTx _ => true | _ => false end.

Definition isLookup (c : apiCall) : bool := negb (isPublish c).

Section Log.

Context {ec : Btcec} {hd : Hdkeychain} {bu : Btcutil} {env : SweepEnv}.

(** A computation that only looks things up: from every state, the log
    afterwards is the log before followed by requests none of which
    publishes. *)
Definition looksUpOnly {A : Type} (m : M A) : Prop :=
  forall w, exists calls,
    apiLog (snd (m w)) = apiLog w ++ calls
    /\ forallb isLookup calls = true.

(** The utxo [parseUtxos] makes of an explorer output once its
    transaction hash and script are decoded. *)
Definition utxoOf (vout : Vout) (txHash pkScript : bytes) : utxo :=
  {| utxoTxOut := {| PkScript := pkScript; Value := int64 (voutValue vout) |};
     utxoOutPoint :=
       {| opHash := txHash; opIndex := uint32 (OutspendVin vout) |} |}.

(** An explorer output and the utxo it is parsed into. *)
Definition parsedAs (vout : Vout) (u : utxo) : Prop :=
  exists txHash pkScript,
    NewHashFromStr (OutspendTxid vout) = Ok txHash
    /\ hexDecodeString (ScriptPubkey vout) = Ok pkScript
    /\ u = utxoOf vout txHash pkScript.

(** Address types the input loop has no case for. *)
Definition unhandledAddress (a : Address Params) : bool :=
  match a with
  | AddressPubKeyHash _ _ => true
  | AddressScriptHash _ _ => true
  | _ => false
  end.

(** A target the input loop makes a sign descriptor for: a witness
    address, with its script tree when it is a taproot address. *)
Definition handled (t : targetAddr) : Prop :=
  match addr t with
  | AddressWitnessPubKeyHash _ _ => True
  | AddressWitnessScriptHash _ _ => True
  | AddressTaproot _ _ => scriptTree t <> None
  | _ => False
  end.

(** A target as the scan makes it: it holds outputs, has no tweak, and its
    address is the key hash, anchor or taproot address of the public key in
    its own key descriptor, with the script or script tree that goes with
    it. *)
Definition scanTarget (t : targetAddr) : Prop :=
  utxos t <> [] /\ tweak t = []
  /\ Family (keyLocator (keyDesc t)) = KeyFamilyPaymentBase
  /\ match addr t with
     | AddressWitnessPubKeyHash program net =>
         program = Hash160 (SerializeCompressed (descPubKey (keyDesc t)))
         /\ net = chainParams /\ script t = [] /\ scriptTree t = None
     | AddressWitnessScriptHash program net =>
         CommitScriptToRemoteConfirmed (descPubKey (keyDesc t))
         = Ok (script t)
         /\ program = Sum256 (script t)
         /\ net = chainParams /\ scriptTree t = None
     | AddressTaproot program net =>
         script t = [] /\ net = chainParams
         /\ exists tree,
              NewRemoteCommitScriptTree (descPubKey (keyDesc t)) = Ok tree
              /\ scriptTree t = Some tree
              /\ program = SchnorrSerializePubKey (TaprootKey tree)
     | _ => False
     end.

End Log.

Section Descriptors.

Context {ec : Btcec} {hd : Hdkeychain} {bu : Btcutil} {env : SweepEnv}.

(** The sign descriptor the input loop makes for a key hash or script hash
    input: the script of the target, and the tweak given. *)
Definition v0Descriptor (t : targetAddr) (u : utxo) (singleTweak : bytes)
  (inputIndex : nat) : SignDescriptor :=
  {| KeyDesc := keyDesc t; WitnessScript := script t;
     SingleTweak := singleTweak; Output := utxoTxOut u;
     HashType := SigHashAll; SigHashes := None; InputIndex := inputIndex;
     ControlBlockBytes := []; SignMethodOf := WitnessV0SignMethod;
     TapTweak := [] |}.

(** The sign descriptor it makes for a taproot input. *)
Definition taprootDescriptor (t : targetAddr) (u : utxo)
  (tree : CommitScriptTree) (controlBlockBytes : bytes) (inputIndex : nat)
  : SignDescriptor :=
  {| KeyDesc := keyDesc t; WitnessScript := SettleLeafScript tree;
     SingleTweak := []; Output := utxoTxOut u;
     HashType := SigHashDefault; SigHashes := None;
     InputIndex := inputIndex; ControlBlockBytes := controlBlockBytes;
     SignMethodOf := TaprootScriptSpendSignMethod;
     TapTweak := TapscriptRoot tree |}.

(** The target [checkAncientChannelPoints] makes of a record of the list:
    the record's address, the key and tweak the cache holds for it, and as
    only output the one the record's outpoint names, read from the
    explorer's transaction. *)
Definition ancientTarget (api : ExplorerAPI) (c : Cache) (numKeys : Z)
  (channel : ancientChannel) (t : targetAddr) : Prop :=
  exists op commitPointBytes commitPoint a tx vout pkScript found,
    ParseOutpoint (OP channel) = Ok op
    /\ hexDecodeString (CP channel) = Ok commitPointBytes
    /\ ParsePubKey commitPointBytes = Ok commitPoint
    /\ ParseAddress (Addr channel) chainParams = Ok a
    /\ Transaction api (HashString (opHash op)) = Ok tx
    /\ nth_error (txVout tx) (Z.to_nat (opIndex op)) = Some vout
    /\ hexDecodeString (ScriptPubkey vout) = Ok pkScript
    /\ keyInCache c numKeys (EncodeAddress a) commitPoint = Ok found
    /\ t = {| addr := a; keyDesc := fst found; tweak := snd found;
              utxos := [ {| utxoOutPoint := op;
                            utxoTxOut :=
                              {| Value := int64 (voutValue vout);
                                 PkScript := pkScript |} |} ];
              script := []; scriptTree := None |}.

(** The request [checkAncientChannelPoints] sends for a record. *)
Definition ancientCall (channel : ancientChannel) : list apiCall :=
  match ParseOutpoint (OP channel) with
  | Ok op => [CallTransaction (HashString (opHash op))]
  | _ => []
  end.

(** An error of looking a found record up: of its outpoint, of its
    transaction at the explorer, or of that transaction's script. *)
Definition lookupError (e : error) : Prop :=
  exists msg cause,
    e = errWrap msg cause
    /\ (msg = "unable to parse outpoint"%string
        \/ msg = "could not query transaction"%string
        \/ msg = "could not decode script pubkey"%string).

End Descriptors.

End SweepLog.

(** ** [cln/derivation.go]: the salt of the second expansion *)

Module ClnSalt.

Import Lnd Cln.

Section Salt.

Context {ec : Btcec}.

(** Lines 76-78 of [FundingKey]: the 41 bytes [peerAndChannel]. *)
Definition peerAndChannel (peerPubKey : PublicKey) (channelNum : Z)
  : result bytes :=
  let peerAndChannel := make (33 + 8) in
  let peerAndChannel :=
    copyInto peerAndChannel 0 33 (SerializeCompressed peerPubKey) in
  PutUint64 peerAndChannel 33 channelNum.

End Salt.

End ClnSalt.

(** * Properties *)

(** ** Results *)

Lemma bind_Ok_inv :
  forall (A B : Type) (r : result A) (f : A -> result B) (b : B),
    bind r f = Ok b -> exists a, r = Ok a /\ f a = Ok b.
Proof.
  intros A B r f b Hb. destruct r as [a | e | ]; simpl in Hb; try discriminate.
  exists a. split; [reflexivity | exact Hb].
Qed.

Lemma wrapErr_Ok_inv :
  forall (A : Type) (msg : string) (r : result A) (a : A),
    wrapErr msg r = Ok a -> r = Ok a.
Proof.
  intros A msg r a Hw. destruct r; simpl in Hw; try discriminate.
  exact Hw.
Qed.

(** ** [ParsePath] *)

Module ParsePathFacts.

Import GoStrings Lnd PathGrammar.

(** *** Characters *)

Lemma ascii_eqb_eq : forall a b, ascii_eqb a b = true <-> a = b.
Proof. intros a b. unfold ascii_eqb. apply Ascii.eqb_eq. Qed.

Lemma ascii_eqb_neq : forall a b, ascii_eqb a b = false <-> a <> b.
Proof. intros a b. unfold ascii_eqb. apply Ascii.eqb_neq. Qed.

Lemma digit_not_special :
  forall c, isDigit c = true -> c <> minus /\ c <> plus /\ c <> quote /\ c <> slash.
Proof.
  intros c Hd. unfold isDigit in Hd.
  apply andb_prop in Hd. destruct Hd as [Hlo Hhi].
  apply Nat.leb_le in Hlo. apply Nat.leb_le in Hhi.
  repeat split; intro Hc; subst c; vm_compute in Hlo, Hhi; lia.
Qed.

(** *** [parseDigits] and [Atoi] *)

Lemma parseDigits_digits :
  forall ds acc, forallb isDigit ds = true ->
    parseDigits acc ds = Some (fold_left (fun a c => a * 10 + digitVal c) ds acc).
Proof.
  induction ds as [| c ds IH]; intros acc Hd; simpl in *.
  - reflexivity.
  - apply andb_prop in Hd. destruct Hd as [Hc Hds].
    rewrite Hc. apply IH. exact Hds.
Qed.

Lemma parseDigits_Some :
  forall ds acc v, parseDigits acc ds = Some v ->
    forallb isDigit ds = true
    /\ v = fold_left (fun a c => a * 10 + digitVal c) ds acc.
Proof.
  induction ds as [| c ds IH]; intros acc v Hp; simpl in *.
  - split; [reflexivity | congruence].
  - destruct (isDigit c) eqn:Hc; [| discriminate].
    apply IH in Hp. destruct Hp as [Hds Hv]. split; [exact Hds | exact Hv].
Qed.

(** [Atoi] accepts exactly the signed decimal texts within range. *)
Lemma Atoi_accepts :
  forall sg ds,
    ds <> [] -> forallb isDigit ds = true ->
    - 2 ^ 63 <= signedValue sg ds <= 2 ^ 63 - 1 ->
    Atoi (signText sg ++ ds) = Ok (signedValue sg ds).
Proof.
  intros sg ds Hne Hd Hr.
  destruct ds as [| d ds]; [congruence |].
  assert (Hd0 : isDigit d = true).
  { simpl in Hd. apply andb_prop in Hd. tauto. }
  destruct (digit_not_special d Hd0) as (Hm & Hp & _ & _).
  apply ascii_eqb_neq in Hm. apply ascii_eqb_neq in Hp.
  assert (Hv : parseDigits 0 (d :: ds) = Some (decimalValue (d :: ds))).
  { apply parseDigits_digits. exact Hd. }
  assert (Hgen : forall neg : bool,
    - 2 ^ 63 <= (if neg then - decimalValue (d :: ds)
                 else decimalValue (d :: ds)) <= 2 ^ 63 - 1 ->
    atoiDigits neg (d :: ds)
    = Ok (if neg then - decimalValue (d :: ds) else decimalValue (d :: ds))).
  { intros neg Hn. unfold atoiDigits. rewrite Hv. cbv zeta.
    replace ((- 2 ^ 63 <=? (if neg then - decimalValue (d :: ds)
                            else decimalValue (d :: ds)))
             && ((if neg then - decimalValue (d :: ds)
                  else decimalValue (d :: ds)) <=? 2 ^ 63 - 1)) with true.
    - reflexivity.
    - symmetry. apply andb_true_intro. split; apply Z.leb_le; lia. }
  unfold Atoi.
  destruct sg; cbn [signText app]; unfold signedValue in Hr |- *.
  - rewrite Hm, Hp. apply (Hgen false). exact Hr.
  - replace (ascii_eqb plus minus) with false by reflexivity.
    replace (ascii_eqb plus plus) with true by reflexivity.
    apply (Hgen false). exact Hr.
  - replace (ascii_eqb minus minus) with true by reflexivity.
    apply (Hgen true). exact Hr.
Qed.

Lemma Atoi_Ok_inv :
  forall s v, Atoi s = Ok v ->
    exists sg ds, s = signText sg ++ ds /\ ds <> []
                  /\ forallb isDigit ds = true
                  /\ v = signedValue sg ds
                  /\ - 2 ^ 63 <= v <= 2 ^ 63 - 1.
Proof.
  intros s v Ha. unfold Atoi in Ha.
  assert (Hgen : forall (neg : bool) ds, atoiDigits neg ds = Ok v ->
    ds <> [] /\ forallb isDigit ds = true
    /\ v = (if neg then - decimalValue ds else decimalValue ds)
    /\ - 2 ^ 63 <= v <= 2 ^ 63 - 1).
  { intros neg ds Hm. unfold atoiDigits in Hm.
    destruct ds as [| d ds]; [discriminate |].
    destruct (parseDigits 0 (d :: ds)) as [n |] eqn:Hp; [| discriminate].
    apply parseDigits_Some in Hp. destruct Hp as [Hd Hn].
    fold (decimalValue (d :: ds)) in Hn. subst n.
    cbv zeta in Hm.
    destruct ((- 2 ^ 63 <=? (if neg then - decimalValue (d :: ds)
                             else decimalValue (d :: ds)))
              && ((if neg then - decimalValue (d :: ds)
                   else decimalValue (d :: ds)) <=? 2 ^ 63 - 1)) eqn:Hr;
      [| discriminate].
    inversion Hm; subst v. apply andb_prop in Hr. destruct Hr as [Hlo Hhi].
    apply Z.leb_le in Hlo. apply Z.leb_le in Hhi.
    repeat split; try assumption; try discriminate. }
  destruct s as [| c s'].
  - discriminate.
  - destruct (ascii_eqb c minus) eqn:Hm.
    + apply ascii_eqb_eq in Hm. subst c.
      apply Hgen in Ha. destruct Ha as (Hne & Hd & Hv & Hr).
      exists MinusSign, s'. repeat split; assumption || tauto.
    + destruct (ascii_eqb c plus) eqn:Hp.
      * apply ascii_eqb_eq in Hp. subst c.
        apply Hgen in Ha. destruct Ha as (Hne & Hd & Hv & Hr).
        exists PlusSign, s'. repeat split; assumption || tauto.
      * apply Hgen in Ha. destruct Ha as (Hne & Hd & Hv & Hr).
        exists NoSign, (c :: s'). repeat split; assumption || tauto.
Qed.

(** *** [Split], [Contains] and [TrimRight] *)

Lemma Split_not_nil : forall s sep, Split s sep <> [].
Proof.
  induction s as [| c s IH]; intros sep; simpl.
  - discriminate.
  - destruct (ascii_eqb c sep); [discriminate |].
    destruct (Split s sep); discriminate.
Qed.

Lemma Split_no_sep_app :
  forall p rest sep, ~ In sep p ->
    Split (p ++ sep :: rest) sep = p :: Split rest sep.
Proof.
  induction p as [| c p IH]; intros rest sep Hn; simpl.
  - replace (ascii_eqb sep sep) with true
      by (symmetry; apply ascii_eqb_eq; reflexivity).
    reflexivity.
  - assert (Hc : ascii_eqb c sep = false).
    { apply ascii_eqb_neq. intro Hc. apply Hn. left. exact Hc. }
    rewrite Hc. rewrite IH; [reflexivity |].
    intro Hi. apply Hn. right. exact Hi.
Qed.

Lemma Split_no_sep :
  forall p sep, ~ In sep p -> Split p sep = [p].
Proof.
  induction p as [| c p IH]; intros sep Hn; simpl.
  - reflexivity.
  - assert (Hc : ascii_eqb c sep = false).
    { apply ascii_eqb_neq. intro Hc. apply Hn. left. exact Hc. }
    rewrite Hc. rewrite IH; [reflexivity |].
    intro Hi. apply Hn. right. exact Hi.
Qed.

Lemma Split_joinParts :
  forall parts, parts <> [] -> Forall (fun p => ~ In slash p) parts ->
    Split (joinParts parts) slash = parts.
Proof.
  induction parts as [| p ps IH]; intros Hne Hall; [congruence |].
  inversion Hall as [| ? ? Hp Hps]; subst.
  destruct ps as [| q ps'].
  - simpl. apply Split_no_sep. exact Hp.
  - change (joinParts (p :: q :: ps'))
      with (p ++ slash :: joinParts (q :: ps')).
    rewrite Split_no_sep_app by exact Hp.
    rewrite IH; [reflexivity | discriminate | exact Hps].
Qed.

Lemma joinParts_Split :
  forall s, joinParts (Split s slash) = s
            /\ Forall (fun p => ~ In slash p) (Split s slash).
Proof.
  induction s as [| c s [IHj IHf]]; simpl.
  - split; [reflexivity |]. constructor; [intros [] | constructor].
  - destruct (ascii_eqb c slash) eqn:Hc.
    + apply ascii_eqb_eq in Hc. subst c. split.
      * pose proof (Split_not_nil s slash) as Hne.
        destruct (Split s slash) as [| q qs] eqn:Hs; [congruence |].
        change (joinParts ([] :: q :: qs))
          with ([] ++ slash :: joinParts (q :: qs)).
        rewrite IHj. reflexivity.
      * constructor; [intros [] | exact IHf].
    + apply ascii_eqb_neq in Hc.
      pose proof (Split_not_nil s slash) as Hne.
      destruct (Split s slash) as [| q qs] eqn:Hs; [congruence |].
      apply Forall_cons_iff in IHf. destruct IHf as [Hq Hqs]. split.
      * destruct qs as [| q2 qs'].
        -- simpl in IHj |- *. rewrite IHj. reflexivity.
        -- change (joinParts ((c :: q) :: q2 :: qs'))
             with ((c :: q) ++ slash :: joinParts (q2 :: qs')).
           change (joinParts (q :: q2 :: qs'))
             with (q ++ slash :: joinParts (q2 :: qs')) in IHj.
           rewrite <- app_comm_cons. rewrite IHj. reflexivity.
      * constructor; [| exact Hqs].
        intros [Hi | Hi]; [apply Hc; exact Hi | apply Hq; exact Hi].
Qed.

Lemma Contains_In : forall s c, Contains s c = true <-> In c s.
Proof.
  intros s c. unfold Contains. rewrite existsb_exists. split.
  - intros [x [Hx Hc]]. apply ascii_eqb_eq in Hc. subst x. exact Hx.
  - intros Hi. exists c. split; [exact Hi | apply ascii_eqb_eq; reflexivity].
Qed.

Lemma TrimRight_marks :
  forall k c, TrimRight (repeat c k) c = [].
Proof.
  induction k as [| k IH]; intros c; simpl.
  - reflexivity.
  - rewrite IH.
    replace (ascii_eqb c c) with true
      by (symmetry; apply ascii_eqb_eq; reflexivity).
    reflexivity.
Qed.

Lemma TrimRight_app_marks :
  forall t k c, TrimRight (t ++ repeat c k) c = TrimRight t c.
Proof.
  induction t as [| a t IH]; intros k c; simpl.
  - apply TrimRight_marks.
  - rewrite IH. reflexivity.
Qed.

Lemma TrimRight_absent :
  forall t c, ~ In c t -> TrimRight t c = t.
Proof.
  induction t as [| a t IH]; intros c Hn; simpl.
  - reflexivity.
  - rewrite IH by (intro Hi; apply Hn; right; exact Hi).
    destruct t as [| b t'].
    + assert (Hc : ascii_eqb a c = false).
      { apply ascii_eqb_neq. intro Hc. apply Hn. left. exact Hc. }
      rewrite Hc. reflexivity.
    + reflexivity.
Qed.

Lemma TrimRight_decomp :
  forall s c, exists k, s = TrimRight s c ++ repeat c k.
Proof.
  induction s as [| a s IH]; intros c.
  - exists 0%nat. reflexivity.
  - destruct (IH c) as [k Hk]. simpl.
    destruct (TrimRight s c) as [| b t] eqn:Ht.
    + destruct (ascii_eqb a c) eqn:Hc.
      * apply ascii_eqb_eq in Hc. subst a. exists (S k).
        simpl in Hk |- *. rewrite <- Hk. reflexivity.
      * exists k. simpl in Hk |- *. rewrite <- Hk. reflexivity.
    + exists k. simpl in Hk |- *. rewrite <- Hk. reflexivity.
Qed.

(** The text of a sign and digits holds neither a mark nor a separator. *)
Lemma signed_digits_plain :
  forall sg ds, forallb isDigit ds = true ->
    ~ In quote (signText sg ++ ds) /\ ~ In slash (signText sg ++ ds).
Proof.
  intros sg ds Hd.
  assert (Hds : forall c, In c ds -> c <> quote /\ c <> slash).
  { intros c Hc. rewrite forallb_forall in Hd.
    destruct (digit_not_special c (Hd c Hc)) as (_ & _ & Hq & Hs). tauto. }
  split; intro Hi; apply in_app_or in Hi; destruct Hi as [Hi | Hi].
  - destruct sg; simpl in Hi; try tauto;
      destruct Hi as [Hi | []]; discriminate Hi.
  - destruct (Hds _ Hi) as [Hq _]. apply Hq. reflexivity.
  - destruct sg; simpl in Hi; try tauto;
      destruct Hi as [Hi | []]; discriminate Hi.
  - destruct (Hds _ Hi) as [_ Hs]. apply Hs. reflexivity.
Qed.

Lemma segText_no_slash :
  forall s, segOk s -> ~ In slash (segText s).
Proof.
  intros s (_ & Hd & _). unfold segText. rewrite app_assoc.
  intro Hi. apply in_app_or in Hi. destruct Hi as [Hi | Hi].
  - apply (proj2 (signed_digits_plain (sgSign s) (sgDigits s) Hd)). exact Hi.
  - apply repeat_spec in Hi. discriminate Hi.
Qed.

(** *** One part *)

Lemma index_of_segment :
  forall (hard : bool) v,
    add32 (if hard then add32 0 HardenedKeyStart else 0) (uint32 v)
    = ((if hard then HardenedKeyStart else 0) + v) mod 2 ^ 32.
Proof.
  intros hard v. unfold add32, uint32. destruct hard.
  - rewrite Z.add_0_l. rewrite <- Z.add_mod by (vm_compute; discriminate).
    reflexivity.
  - rewrite Z.add_0_l. rewrite Z.mod_mod by (vm_compute; discriminate).
    reflexivity.
Qed.

Lemma parsePart_accepts :
  forall s, segOk s -> parsePart (segText s) = Ok (segIndex s).
Proof.
  intros s Hok. pose proof Hok as (Hne & Hd & Hr).
  destruct (signed_digits_plain (sgSign s) (sgDigits s) Hd) as [Hq _].
  unfold parsePart, segText. rewrite app_assoc.
  destruct (sgMarks s) as [| k] eqn:Hk.
  - simpl repeat. rewrite app_nil_r.
    assert (Hc : Contains (signText (sgSign s) ++ sgDigits s) quote = false).
    { destruct (Contains _ quote) eqn:Hc; [| reflexivity].
      apply Contains_In in Hc. contradiction. }
    rewrite Hc. rewrite Atoi_accepts by assumption.
    pose proof (index_of_segment false (signedValue (sgSign s) (sgDigits s)))
      as Hi.
    cbv iota in Hi. rewrite Hi. unfold segIndex, segValue. rewrite Hk.
    reflexivity.
  - assert (Hc : Contains ((signText (sgSign s) ++ sgDigits s)
                           ++ repeat quote (S k)) quote = true).
    { apply Contains_In. apply in_or_app. right. left. reflexivity. }
    rewrite Hc. rewrite TrimRight_app_marks.
    rewrite TrimRight_absent by exact Hq.
    rewrite Atoi_accepts by assumption.
    pose proof (index_of_segment true (signedValue (sgSign s) (sgDigits s)))
      as Hi.
    cbv iota in Hi. rewrite Hi. unfold segIndex, segValue. rewrite Hk.
    reflexivity.
Qed.

Lemma parsePart_Ok_inv :
  forall p v, parsePart p = Ok v ->
    exists s, segOk s /\ p = segText s /\ v = segIndex s.
Proof.
  intros p v Hp. unfold parsePart in Hp.
  destruct (Contains p quote) eqn:Hc.
  - destruct (Atoi (TrimRight p quote)) as [parsed | e | ] eqn:Ha;
      try discriminate.
    apply Atoi_Ok_inv in Ha.
    destruct Ha as (sg & ds & Ht & Hne & Hd & Hv & Hr).
    destruct (TrimRight_decomp p quote) as [k Hk].
    destruct (signed_digits_plain sg ds Hd) as [Hq _].
    assert (Hk0 : k <> 0%nat).
    { intro Hz. subst k. simpl in Hk. rewrite app_nil_r in Hk.
      apply Contains_In in Hc. rewrite Hk, Ht in Hc. contradiction. }
    exists {| sgSign := sg; sgDigits := ds; sgMarks := k |}.
    split; [| split].
    + unfold segOk, segValue. cbn [sgMarks sgSign sgDigits].
      subst parsed. tauto.
    + unfold segText. cbn [sgMarks sgSign sgDigits].
      rewrite app_assoc. rewrite <- Ht. exact Hk.
    + inversion Hp as [Hi].
      pose proof (index_of_segment true parsed) as Hx. cbv iota in Hx.
      rewrite Hx. unfold segIndex, segValue. cbn [sgMarks sgSign sgDigits].
      destruct k as [| k']; [congruence |].
      change (0 <? S k')%nat with true. subst parsed. reflexivity.
  - destruct (Atoi p) as [parsed | e | ] eqn:Ha; try discriminate.
    apply Atoi_Ok_inv in Ha.
    destruct Ha as (sg & ds & Ht & Hne & Hd & Hv & Hr).
    exists {| sgSign := sg; sgDigits := ds; sgMarks := 0 |}.
    split; [| split].
    + unfold segOk, segValue. cbn [sgMarks sgSign sgDigits].
      subst parsed. tauto.
    + unfold segText. cbn [sgMarks sgSign sgDigits repeat].
      rewrite app_nil_r. exact Ht.
    + inversion Hp as [Hi].
      pose proof (index_of_segment false parsed) as Hx. cbv iota in Hx.
      rewrite Hx. unfold segIndex, segValue. cbn [sgMarks sgSign sgDigits].
      change (0 <? 0)%nat with false. subst parsed. reflexivity.
Qed.

Lemma parsePart_no_panic : forall p, parsePart p <> Panic.
Proof.
  intros p. unfold parsePart.
  assert (Ha : forall s, Atoi s <> Panic).
  { intros s. unfold Atoi.
    assert (Hd : forall neg ds, atoiDigits neg ds <> Panic).
    { intros neg ds. unfold atoiDigits. destruct ds; [discriminate |].
      destruct (parseDigits 0 (a :: ds)); [| discriminate].
      cbv zeta. destruct (_ && _); discriminate. }
    destruct s as [| c s']; [apply Hd |].
    destruct (ascii_eqb c minus); [apply Hd |].
    destruct (ascii_eqb c plus); apply Hd. }
  destruct (Contains p quote).
  - specialize (Ha (TrimRight p quote)).
    destruct (Atoi (TrimRight p quote)); congruence.
  - specialize (Ha p). destruct (Atoi p); congruence.
Qed.

(** *** The loop *)

Lemma setIndex_in_range :
  forall l j v, (j < length l)%nat ->
    setIndex l j v = Some (firstn j l ++ v :: skipn (S j) l).
Proof.
  induction l as [| x l IH]; intros j v Hj; simpl in Hj; [lia |].
  destruct j as [| j]; simpl.
  - reflexivity.
  - rewrite IH by lia. reflexivity.
Qed.

Lemma firstn_after_store :
  forall (l : list Z) j v r, (j <= length l)%nat ->
    firstn (S j) (firstn j l ++ v :: r) = firstn j l ++ [v].
Proof.
  induction l as [| x l IH]; intros j v r Hj; simpl in Hj.
  - replace j with 0%nat by lia. reflexivity.
  - destruct j as [| j]; [reflexivity |].
    cbn [firstn app]. f_equal. apply IH. lia.
Qed.

Lemma ParsePath_loop_parseAll :
  forall rest j indices,
    length indices = (j + length rest)%nat ->
    ParsePath_loop rest (S j) indices
    = bind (parseAll rest) (fun vs => Ok (firstn j indices ++ vs)).
Proof.
  induction rest as [| p rest IH]; intros j indices Hlen; simpl in *.
  - rewrite Nat.add_0_r in Hlen. rewrite <- Hlen, firstn_all, app_nil_r.
    reflexivity.
  - destruct (parsePart p) as [v | e | ] eqn:Hp; simpl; try reflexivity.
    rewrite Nat.sub_0_r. rewrite setIndex_in_range by lia.
    rewrite IH.
    + rewrite firstn_after_store by lia.
      destruct (parseAll rest) as [vs | e | ]; simpl; try reflexivity.
      rewrite <- app_assoc. reflexivity.
    + rewrite length_app, length_firstn. cbn [length].
      rewrite length_skipn. lia.
Qed.

Lemma parseAll_accepts :
  forall segs, Forall segOk segs ->
    parseAll (map segText segs) = Ok (map segIndex segs).
Proof.
  induction segs as [| s segs IH]; intros Hall; simpl.
  - reflexivity.
  - apply Forall_cons_iff in Hall. destruct Hall as [Hs Hall].
    rewrite parsePart_accepts by exact Hs. simpl.
    rewrite IH by exact Hall. reflexivity.
Qed.

Lemma parseAll_Ok_inv :
  forall parts vs, parseAll parts = Ok vs ->
    exists segs, Forall segOk segs /\ parts = map segText segs
                 /\ vs = map segIndex segs.
Proof.
  induction parts as [| p parts IH]; intros vs Hp; simpl in Hp.
  - inversion Hp. exists []. repeat split. constructor.
  - apply bind_Ok_inv in Hp. destruct Hp as (v & Hv & Hp).
    apply bind_Ok_inv in Hp. destruct Hp as (vs' & Hvs & Hp).
    inversion Hp; subst vs.
    apply parsePart_Ok_inv in Hv. destruct Hv as (s & Hs & Hps & Hvi).
    destruct (IH _ Hvs) as (segs & Hall & Hparts & Hidx).
    exists (s :: segs). split; [| split].
    + constructor; assumption.
    + simpl. congruence.
    + simpl. congruence.
Qed.

Lemma parseAll_no_panic : forall parts, parseAll parts <> Panic.
Proof.
  induction parts as [| p parts IH]; simpl; [discriminate |].
  pose proof (parsePart_no_panic p) as Hp.
  destruct (parsePart p); simpl; try congruence.
  destruct (parseAll parts); simpl; congruence.
Qed.

(** *** The whole path *)

Lemma pathText_joinParts :
  forall segs,
    pathText segs = joinParts (str "m" :: map segText segs).
Proof.
  intros segs. unfold pathText.
  generalize (str "m") as p0.
  induction segs as [| s segs IH]; intros p0.
  - simpl. apply app_nil_r.
  - change (joinParts (p0 :: map segText (s :: segs)))
      with (p0 ++ slash :: joinParts (segText s :: map segText segs)).
    rewrite <- IH. reflexivity.
Qed.

Lemma HasPrefix_m_slash :
  forall t', HasPrefix ("m"%char :: slash :: t') (str "m/") = true.
Proof. intros t'. destruct t'; reflexivity. Qed.

Lemma HasPrefix_m_slash_inv :
  forall t, HasPrefix t (str "m/") = true ->
    exists t', t = "m"%char :: slash :: t'.
Proof.
  intros t Hh. destruct t as [| a t]; [discriminate |].
  cbn [HasPrefix str list_ascii_of_string] in Hh.
  apply andb_prop in Hh. destruct Hh as [Ha Hh].
  apply ascii_eqb_eq in Ha. subst a.
  destruct t as [| b t']; [discriminate |].
  apply andb_prop in Hh. destruct Hh as [Hb _].
  apply ascii_eqb_eq in Hb. subst b. exists t'. reflexivity.
Qed.

(** On a text that starts with [m/], [ParsePath] parses the parts after the
    first. *)
Lemma ParsePath_trimmed :
  forall path t',
    TrimSpace path = "m"%char :: slash :: t' ->
    ParsePath path = parseAll (Split t' slash).
Proof.
  intros path t' Ht. unfold ParsePath. rewrite Ht.
  rewrite HasPrefix_m_slash.
  cbn [length Nat.eqb negb].
  assert (Hs : Split ("m"%char :: slash :: t') slash
               = ["m"%char] :: Split t' slash).
  { cbn [Split]. replace (ascii_eqb "m" slash) with false by reflexivity.
    replace (ascii_eqb slash slash) with true by reflexivity. reflexivity. }
  rewrite Hs. cbn [skipn length Nat.sub].
  rewrite Nat.sub_0_r.
  rewrite ParsePath_loop_parseAll.
  - destruct (parseAll (Split t' slash)); reflexivity.
  - rewrite repeat_length. reflexivity.
Qed.

Lemma ParsePath_untrimmed :
  forall path,
    (forall t', TrimSpace path <> "m"%char :: slash :: t') ->
    exists e, ParsePath path = Err e.
Proof.
  intros path Hn. unfold ParsePath.
  destruct (TrimSpace path) as [| a t] eqn:Ht.
  - eexists. reflexivity.
  - cbn [length Nat.eqb].
    destruct (HasPrefix (a :: t) (str "m/")) eqn:Hp.
    + exfalso. apply HasPrefix_m_slash_inv in Hp. destruct Hp as [t' Hp].
      apply (Hn t'). exact Hp.
    + eexists. reflexivity.
Qed.

Lemma ParsePath_Ok_iff :
  forall path indices,
    ParsePath path = Ok indices <-> parsesTo (TrimSpace path) indices.
Proof.
  intros path indices. split.
  - intros Hp.
    assert (Ht : exists t', TrimSpace path = "m"%char :: slash :: t').
    { destruct (TrimSpace path) as [| a t] eqn:Ht.
      - unfold ParsePath in Hp. rewrite Ht in Hp. discriminate.
      - unfold ParsePath in Hp. rewrite Ht in Hp.
        cbn [length Nat.eqb] in Hp.
        destruct (HasPrefix (a :: t) (str "m/")) eqn:Hh; [| discriminate].
        apply HasPrefix_m_slash_inv in Hh. exact Hh. }
    destruct Ht as [t' Ht].
    rewrite (ParsePath_trimmed path t' Ht) in Hp.
    apply parseAll_Ok_inv in Hp.
    destruct Hp as (segs & Hall & Hparts & Hidx).
    exists segs. split; [| split; [| split]].
    + intro Hnil. subst segs. simpl in Hparts.
      apply (Split_not_nil t' slash). exact Hparts.
    + exact Hall.
    + rewrite Ht. rewrite pathText_joinParts.
      destruct segs as [| s segs].
      * simpl in Hparts. exfalso. apply (Split_not_nil t' slash). exact Hparts.
      * change (joinParts (str "m" :: map segText (s :: segs)))
          with (str "m" ++ slash :: joinParts (map segText (s :: segs))).
        rewrite <- Hparts.
        rewrite (proj1 (joinParts_Split t')). reflexivity.
    + exact Hidx.
  - intros (segs & Hne & Hall & Ht & Hidx).
    destruct segs as [| s segs]; [congruence |].
    assert (Hm : TrimSpace path
                 = "m"%char :: slash :: joinParts (map segText (s :: segs))).
    { rewrite Ht, pathText_joinParts. reflexivity. }
    rewrite (ParsePath_trimmed path _ Hm).
    rewrite Split_joinParts.
    + rewrite parseAll_accepts by exact Hall. congruence.
    + discriminate.
    + apply Forall_forall. intros p Hp. apply in_map_iff in Hp.
      destruct Hp as (x & Hx & Hin). subst p.
      apply segText_no_slash. rewrite Forall_forall in Hall. auto.
Qed.

Lemma ParsePath_no_panic : forall path, ParsePath path <> Panic.
Proof.
  intros path.
  destruct (TrimSpace path) as [| a t] eqn:Ht.
  - unfold ParsePath. rewrite Ht. discriminate.
  - destruct (HasPrefix (a :: t) (str "m/")) eqn:Hh.
    + rewrite <- Ht in Hh. apply HasPrefix_m_slash_inv in Hh.
      destruct Hh as [t' Hm].
      rewrite (ParsePath_trimmed path t' Hm). apply parseAll_no_panic.
    + unfold ParsePath. rewrite Ht. cbn [length Nat.eqb]. rewrite Hh.
      discriminate.
Qed.

End ParsePathFacts.

Import GoStrings Lnd PathGrammar ParsePathFacts.

(** C7, as stated, fails: a negative segment and a segment beyond 32 bits
    are parsed, not rejected.  [m/-5] gives the index [2^32 - 5], and
    [m/4294967296] gives the index [0]. *)
Lemma ParsePath_accepts_negative_and_large :
  ParsePath (str "m/-5") = Ok [4294967291]
  /\ ParsePath (str "m/4294967296") = Ok [0]
  /\ ParsePath (str "m/2147483648'") = Ok [0].
Proof. repeat split; vm_compute; reflexivity. Qed.

(** C7, amended: [ParsePath] returns an error exactly when the text, with
    the surrounding white space removed, is not [m] followed by one or more
    segments [/seg], each an optionally signed run of decimal digits whose
    value fits a 64-bit [int], followed by any number of hardened marks ['];
    otherwise it returns one index per segment: the value modulo [2^32],
    moved by [2^31] modulo [2^32] when the segment is marked.  It never
    panics. *)
Theorem ParsePath_error_iff_malformed :
  forall path : gostring,
    (forall indices,
        ParsePath path = Ok indices <-> parsesTo (TrimSpace path) indices)
    /\ ((exists e, ParsePath path = Err e)
        <-> ~ (exists indices, parsesTo (TrimSpace path) indices))
    /\ ParsePath path <> Panic.
Proof.
  intros path. split; [| split].
  - intros indices. apply ParsePath_Ok_iff.
  - split.
    + intros [e He] [indices Hp]. apply ParsePath_Ok_iff in Hp. congruence.
    + intros Hn. destruct (ParsePath path) as [indices | e | ] eqn:Hp.
      * exfalso. apply Hn. exists indices. apply ParsePath_Ok_iff. exact Hp.
      * exists e. reflexivity.
      * exfalso. apply (ParsePath_no_panic path). exact Hp.
  - apply ParsePath_no_panic.
Qed.

(** ** [FundingKey] *)

Module ClnFacts.

Import Cln.

Lemma copyInto_whole :
  forall (n : nat) (src : bytes), length src = n ->
    copyInto (make n) 0 n src = src.
Proof.
  intros n src Hlen. unfold copyInto, make.
  rewrite repeat_length, Hlen.
  replace (Nat.min (Nat.min n n - 0) n) with n by lia.
  cbn [firstn app Nat.add].
  rewrite <- Hlen at 1. rewrite firstn_all.
  rewrite skipn_all2 by (rewrite repeat_length; lia).
  apply app_nil_r.
Qed.

Lemma copyInto_front :
  forall (n m : nat) (src : bytes), length src = n ->
    copyInto (make (n + m)) 0 n src = src ++ make m.
Proof.
  intros n m src Hlen. unfold copyInto, make.
  rewrite repeat_length, Hlen.
  replace (Nat.min (Nat.min n (n + m) - 0) n) with n by lia.
  cbn [firstn app Nat.add].
  rewrite <- Hlen at 1. rewrite firstn_all.
  rewrite repeat_app, skipn_app.
  rewrite skipn_all2 by (rewrite repeat_length; lia).
  rewrite repeat_length. replace (n - n)%nat with 0%nat by lia.
  reflexivity.
Qed.

Lemma byteOf_shiftr :
  forall v k, 0 <= k -> byteOf (Z.shiftr v k) = (v / 2 ^ k) mod 256.
Proof.
  intros v k Hk. unfold byteOf. rewrite Z.shiftr_div_pow2 by exact Hk.
  reflexivity.
Qed.

Lemma littleEndian_8 :
  forall v,
    littleEndian 8 v
    = [ byteOf v; byteOf (Z.shiftr v 8); byteOf (Z.shiftr v 16);
        byteOf (Z.shiftr v 24); byteOf (Z.shiftr v 32);
        byteOf (Z.shiftr v 40); byteOf (Z.shiftr v 48);
        byteOf (Z.shiftr v 56) ].
Proof.
  intros v. rewrite !byteOf_shiftr by lia. unfold byteOf.
  cbn [littleEndian].
  rewrite !Z.div_div by lia.
  reflexivity.
Qed.

Lemma PutUint64_tail :
  forall (front : bytes) (v : Z),
    PutUint64 (front ++ make 8) (length front) v
    = Ok (front ++ littleEndian 8 v).
Proof.
  intros front v. unfold PutUint64.
  replace (length front + 8 <=? length (front ++ make 8))%nat with true.
  - rewrite firstn_app, firstn_all, Nat.sub_diag. cbn [firstn].
    rewrite app_nil_r.
    rewrite skipn_all2
      by (rewrite length_app; unfold make; rewrite repeat_length; lia).
    rewrite app_nil_r. rewrite littleEndian_8. reflexivity.
  - symmetry. apply Nat.leb_le. rewrite length_app. unfold make.
    rewrite repeat_length. lia.
Qed.

Lemma littleEndian_value :
  forall k v, 0 <= v < 256 ^ Z.of_nat k ->
    littleEndianValue (littleEndian k v) = v.
Proof.
  induction k as [| k IH]; intros v Hv.
  - cbn in Hv |- *. lia.
  - cbn [littleEndian littleEndianValue fold_right].
    fold (littleEndianValue (littleEndian k (v / 256))).
    rewrite IH.
    + pose proof (Z.div_mod v 256 ltac:(lia)). lia.
    + rewrite Nat2Z.inj_succ, Z.pow_succ_r in Hv by lia.
      split.
      * apply Z.div_pos; lia.
      * apply Z.div_lt_upper_bound; lia.
Qed.

Section Chain.

Context {ec : Btcec} {kdf : Hkdf}.

Lemma HkdfSha256_expand32 :
  hkdfFills ->
  forall key salt info, HkdfSha256 key salt info = expand32 key salt info.
Proof.
  intros Hfill key salt info. unfold HkdfSha256, expand32.
  destruct (hkdfRead key salt info 32) as [out | e | ] eqn:Hr;
    cbn [bind]; try reflexivity.
  rewrite copyInto_whole; [reflexivity |].
  apply (Hfill _ _ _ _ Hr).
Qed.

Lemma FundingKey_chain :
  hkdfFills ->
  forall hsmSecret peerPubKey channelNum,
    length (SerializeCompressed peerPubKey) = 33%nat ->
    FundingKey hsmSecret peerPubKey channelNum
    = fundingKeyStated hsmSecret peerPubKey channelNum.
Proof.
  intros Hfill hsmSecret peerPubKey channelNum Hlen.
  unfold FundingKey, fundingKeyStated.
  rewrite !HkdfSha256_expand32 by exact Hfill.
  change (bytesOf "peer seed") with InfoPeerSeed.
  destruct (expand32 hsmSecret [] InfoPeerSeed) as [channelBase | e | ];
    cbn [bind]; try reflexivity.
  rewrite (copyInto_front 33 8) by exact Hlen.
  rewrite <- Hlen at 1. rewrite PutUint64_tail. cbn [bind].
  rewrite HkdfSha256_expand32 by exact Hfill.
  change (bytesOf "per-peer seed") with InfoPerPeer.
  destruct (expand32 channelBase _ InfoPerPeer) as [channelSeed | e | ];
    cbn [bind]; try reflexivity.
  rewrite HkdfSha256_expand32 by exact Hfill.
  reflexivity.
Qed.

End Chain.

Lemma model_hkdfFills : @hkdfFills Model.hkdf.
Proof.
  intros secret salt info out Hr.
  unfold hkdfRead, Model.hkdf in Hr. injection Hr as Hr. subst out.
  unfold Model.pad. rewrite length_firstn, length_app, repeat_length. lia.
Qed.

End ClnFacts.

(** ** [DeriveChildren] *)

Module DeriveFacts.

Section Rule.

Context {ec : Btcec} {hd : Hdkeychain}.

(** The decision of lines 48-54 in closed form: a panic when the key is at
    depth 2 in a path of more than two segments that has no next segment,
    the rule otherwise. *)
Lemma needsRoundTrip_rule :
  forall depth path idx pathPart,
    needsRoundTrip depth path idx pathPart
    = if (depth =? 2) && (2 <? length path)%nat
         && (length path <=? S idx)%nat
      then Panic
      else Ok (roundTripRule depth path idx pathPart).
Proof.
  intros depth path idx pathPart.
  unfold needsRoundTrip, roundTripRule, keyID.
  destruct (depth =? 2) eqn:Hd; cbn [andb orb].
  - destruct (2 <? length path)%nat eqn:Hl; cbn [andb orb].
    + destruct (nth_error path (S idx)) as [next |] eqn:Hn.
      * assert (Hlt : (S idx < length path)%nat).
        { apply nth_error_Some. congruence. }
        replace (length path <=? S idx)%nat with false
          by (symmetry; apply Nat.leb_gt; exact Hlt).
        reflexivity.
      * apply nth_error_None in Hn.
        replace (length path <=? S idx)%nat with true
          by (symmetry; apply Nat.leb_le; exact Hn).
        reflexivity.
    + reflexivity.
  - reflexivity.
Qed.

Lemma needsRoundTrip_off_levels :
  forall depth path idx pathPart,
    depth <> 2 -> depth <> 3 ->
    needsRoundTrip depth path idx pathPart = Ok false.
Proof.
  intros depth path idx pathPart H2 H3. rewrite needsRoundTrip_rule.
  unfold roundTripRule.
  apply Z.eqb_neq in H2. apply Z.eqb_neq in H3. rewrite H2, H3.
  reflexivity.
Qed.

(** Below depth 2, and from depth 3 downwards, the loop is plain
    derivation. *)
Lemma DeriveChildren_loop_plain :
  depthLaws ->
  forall rest path idx key,
    Depth key + Z.of_nat (length rest) < 2 \/ 3 <= Depth key ->
    DeriveChildren_loop path idx rest key = plainDerive key rest.
Proof.
  intros (Hnonneg & Hchild & Hread).
  induction rest as [| pathPart rest IH]; intros path idx key Hd.
  - reflexivity.
  - cbn [DeriveChildren_loop plainDerive].
    destruct (DeriveNonStandard key pathPart) as [d | e | ] eqn:Hder;
      cbn [bind]; try reflexivity.
    pose proof (Hchild _ _ _ Hder) as Hdd.
    cbn [length] in Hd.
    rewrite needsRoundTrip_off_levels by lia.
    cbn [bind]. apply IH. lia.
Qed.

(** From a key whose depth is that of its position, the loop follows the
    rule and does not panic. *)
Lemma DeriveChildren_loop_rule :
  depthLaws ->
  forall rest path idx key,
    Z.of_nat idx <= Depth key ->
    DeriveChildren_loop path idx rest key
    = deriveBy roundTripRule path idx rest key.
Proof.
  intros (Hnonneg & Hchild & Hread).
  induction rest as [| pathPart rest IH]; intros path idx key Hd.
  - reflexivity.
  - cbn [DeriveChildren_loop deriveBy].
    destruct (DeriveNonStandard key pathPart) as [d | e | ] eqn:Hder;
      cbn [bind]; try reflexivity.
    pose proof (Hchild _ _ _ Hder) as Hdd.
    rewrite needsRoundTrip_rule.
    assert (Hnp : (Depth d =? 2) && (2 <? length path)%nat
                  && (length path <=? S idx)%nat = false).
    { destruct (Depth d =? 2) eqn:H2; [| reflexivity].
      destruct (2 <? length path)%nat eqn:Hl; [| reflexivity].
      apply Z.eqb_eq in H2. apply Nat.ltb_lt in Hl.
      cbn [andb]. apply Nat.leb_gt. lia. }
    rewrite Hnp. cbn [bind].
    destruct (roundTripRule (Depth d) path idx pathPart).
    + destruct (NewKeyFromString (KeyString d)) as [r | e | ] eqn:Hr;
        cbn [bind]; try reflexivity.
      apply IH. rewrite (Hread _ _ Hr). lia.
    + apply IH. lia.
Qed.




End Rule.

Import Model.

(** The instance keeps the depth laws: the depth of a symbolic key is the
    number of separators in its text. *)
Lemma digitChar_isDigit :
  forall n, isDigit (Sweep.digitChar (n mod 10)) = true.
Proof.
  intros n. pose proof (Z.mod_pos_bound n 10 ltac:(lia)) as Hb.
  assert (Hc : n mod 10 = 0 \/ n mod 10 = 1 \/ n mod 10 = 2 \/ n mod 10 = 3
               \/ n mod 10 = 4 \/ n mod 10 = 5 \/ n mod 10 = 6
               \/ n mod 10 = 7 \/ n mod 10 = 8 \/ n mod 10 = 9) by lia.
  repeat (destruct Hc as [Hc | Hc]; [rewrite Hc; reflexivity |]).
  rewrite Hc. reflexivity.
Qed.

Lemma formatDigits_isDigit :
  forall fuel n acc, forallb isDigit acc = true ->
    forallb isDigit (Sweep.formatDigits fuel n acc) = true.
Proof.
  induction fuel as [| fuel IH]; intros n acc Hacc; simpl.
  - exact Hacc.
  - assert (Hacc' : forallb isDigit (Sweep.digitChar (n mod 10) :: acc)
                    = true).
    { cbn [forallb]. rewrite digitChar_isDigit. exact Hacc. }
    destruct (n / 10 =? 0); [exact Hacc' | apply IH; exact Hacc'].
Qed.

Lemma formatUint_isDigit :
  forall n, forallb isDigit (Sweep.formatUint n) = true.
Proof. intros n. apply formatDigits_isDigit. reflexivity. Qed.

Lemma countSlash_app :
  forall a b, countSlash (a ++ b) = countSlash a + countSlash b.
Proof.
  intros a b. unfold countSlash. rewrite filter_app, length_app. lia.
Qed.

Lemma countSlash_digits :
  forall ds, forallb isDigit ds = true -> countSlash ds = 0.
Proof.
  induction ds as [| c ds IH]; intros Hd.
  - reflexivity.
  - cbn [forallb] in Hd. apply andb_prop in Hd. destruct Hd as [Hc Hds].
    destruct (digit_not_special c Hc) as (_ & _ & _ & Hs).
    unfold countSlash in *. cbn [filter].
    replace (ascii_eqb slash c) with false.
    + apply IH. exact Hds.
    + symmetry. apply ascii_eqb_neq. congruence.
Qed.

Lemma countSlash_posBits : forall p, countSlash (posBits p) = 0.
Proof.
  induction p as [p IH | p IH |]; cbn [posBits].
  - rewrite countSlash_app, IH. reflexivity.
  - rewrite countSlash_app, IH. reflexivity.
  - reflexivity.
Qed.

Lemma countSlash_indexText : forall i, countSlash (indexText i) = 0.
Proof.
  intros [| p | p]; cbn [indexText].
  - reflexivity.
  - apply countSlash_posBits.
  - change (minus :: posBits p) with ([minus] ++ posBits p).
    rewrite countSlash_app, countSlash_posBits. reflexivity.
Qed.

Lemma model_depthLaws : @depthLaws btcec hdkeychain.
Proof.
  split; [| split].
  - intros k. unfold Depth, hdkeychain, countSlash. lia.
  - intros k i c Hc. cbn in Hc. unfold symDerive in Hc.
    inversion Hc; subst c. cbn [Depth hdkeychain skText].
    rewrite !countSlash_app.
    change (slash :: indexText i) with ([slash] ++ indexText i).
    rewrite countSlash_app, countSlash_indexText.
    destruct (skReread k); cbn; lia.
  - intros k r Hr. cbn in Hr. inversion Hr. reflexivity.
Qed.

End DeriveFacts.

Import DeriveFacts.


Module DeriveExamples.

Import Model.

(** The rule is that of root keys.  From a key at depth 1 and a path of two
    segments the code differs from it: the first derived key is at depth 2
    and the next segment's index is non-zero, yet [len(path) > 2] is false
    and the key is not serialized and parsed back. *)
Lemma DeriveChildren_two_segment_path_no_round_trip :
  needsRoundTrip 2 [0; 5] 0 0 = Ok false
  /\ roundTripStated 2 [0; 5] 0 0 = true
  /\ Depth {| skText := str "m/9"; skReread := false |} = 1
  /\ DeriveChildren
       {| skText := str "m/9"; skReread := false |} [0; 5]
     <> deriveBy roundTripStated [0; 5] 0 [0; 5]
          {| skText := str "m/9"; skReread := false |}.
Proof.
  repeat split; try (vm_compute; reflexivity).
  vm_compute. intro H. discriminate H.
Qed.


End DeriveExamples.

Import Cln ClnFacts.

(** C3: for a 32-byte secret, a public key whose compressed serialization
    has 33 bytes and a 64-bit channel number [n], [FundingKey] is the public
    key of the private key obtained by three chained HKDF-SHA256 expansions:
    the secret with no salt and info ["peer seed"]; its output salted with
    the serialized key followed by [n] as eight little-endian bytes, info
    ["per-peer seed"]; and that output with no salt and info ["c-lightning"].
    The eight bytes are the little-endian digits of [n]. *)
Theorem FundingKey_three_hkdf_stages :
  forall {ec : Btcec} {kdf : Hkdf} (hsmSecret : bytes)
         (peerPubKey : PublicKey) (channelNum : Z),
    hkdfFills ->
    length hsmSecret = 32%nat ->
    length (SerializeCompressed peerPubKey) = 33%nat ->
    0 <= channelNum < 2 ^ 64 ->
    FundingKey hsmSecret peerPubKey channelNum
    = fundingKeyStated hsmSecret peerPubKey channelNum
    /\ length (littleEndian 8 channelNum) = 8%nat
    /\ littleEndianValue (littleEndian 8 channelNum) = channelNum.
Proof.
  intros ec kdf hsmSecret peerPubKey channelNum Hfill _ Hlen Hn.
  split; [| split].
  - apply FundingKey_chain; assumption.
  - reflexivity.
  - apply littleEndian_value. change (256 ^ Z.of_nat 8) with (2 ^ 64).
    exact Hn.
Qed.

Module ClnExamples.

Import Model.

Lemma FundingKey_three_hkdf_stages_witness :
  @hkdfFills hkdf
  /\ length (repeat 63 32) = 32%nat
  /\ length (SerializeCompressed (2 :: repeat 103 32)) = 33%nat
  /\ 0 <= 1 < 2 ^ 64
  /\ FundingKey (repeat 63 32) (2 :: repeat 103 32) 1
     = fundingKeyStated (repeat 63 32) (2 :: repeat 103 32) 1
  /\ length (littleEndian 8 1) = 8%nat
  /\ littleEndianValue (littleEndian 8 1) = 1.
Proof.
  assert (Hs : length (repeat 63 32) = 32%nat) by reflexivity.
  assert (Hp : length (SerializeCompressed (2 :: repeat 103 32)) = 33%nat)
    by reflexivity.
  assert (Hn : 0 <= 1 < 2 ^ 64) by (split; [lia | reflexivity]).
  split; [exact model_hkdfFills |].
  split; [exact Hs |].
  split; [exact Hp |].
  split; [exact Hn |].
  exact (FundingKey_three_hkdf_stages (repeat 63 32) (2 :: repeat 103 32) 1
           model_hkdfFills Hs Hp Hn).
Defined.

End ClnExamples.

(** ** The sweep transaction *)

Module BuildFacts.

Import Sweep.

Section Build.

Context {ec : Btcec} {hd : Hdkeychain} {bu : Btcutil} {env : SweepEnv}.
Context {signing : Signing}.

Lemma updateInput_last :
  forall (ins : list TxIn) (x : TxIn) (f : TxIn -> TxIn),
    updateInput (ins ++ [x]) (length ins) f = Some (ins ++ [f x]).
Proof.
  induction ins as [| y ins IH]; intros x f; cbn [app length updateInput].
  - reflexivity.
  - rewrite IH. reflexivity.
Qed.

Lemma setLastSequence_last :
  forall (tx : MsgTx) (x : TxIn) (s : Z),
    setLastSequence (withInputs tx (txIn tx ++ [x]))
      (length (txIn (withInputs tx (txIn tx ++ [x]))) - 1) s
    = Ok (withInputs tx (txIn tx ++ [setSequence s x])).
Proof.
  intros tx x s. unfold setLastSequence. cbn [txIn withInputs].
  rewrite length_app. cbn [length].
  replace (length (txIn tx) + 1 - 1)%nat with (length (txIn tx)) by lia.
  rewrite updateInput_last. reflexivity.
Qed.

(** What one pass of the inner loop does to the state. *)
Lemma addUtxo_Ok :
  forall target u st st',
    addUtxo target u st = Ok st' ->
    txIn (sweepTx st') = txIn (sweepTx st) ++ [inputFor (addr target, u)]
    /\ txOut (sweepTx st') = txOut (sweepTx st)
    /\ totalOutputValue st'
       = uint64 (totalOutputValue st + uint64 (Value (utxoTxOut u)))
    /\ estimator st' = estimatorStep (estimator st) (addr target, u)
    /\ prevOutFetcher st'
       = prevOutFetcher st ++ [(utxoOutPoint u, utxoTxOut u)]
    /\ length (signDescs st') = S (length (signDescs st)).
Proof.
  intros target u st st' Hadd. unfold addUtxo in Hadd.
  unfold inputFor, estimatorStep, sequenceFor. cbn [fst snd].
  destruct (addr target) as [h n | h n | pr n | pr n | pr n].
  - inversion Hadd; subst st'. cbn.
    rewrite length_app. cbn. repeat split; try reflexivity. lia.
  - inversion Hadd; subst st'. cbn.
    rewrite length_app. cbn. repeat split; try reflexivity. lia.
  - inversion Hadd; subst st'. cbn.
    rewrite length_app. cbn. repeat split; try reflexivity. lia.
  - rewrite setLastSequence_last in Hadd. cbn [bind] in Hadd.
    inversion Hadd; subst st'. cbn.
    rewrite length_app. cbn. repeat split; try reflexivity. lia.
  - rewrite setLastSequence_last in Hadd. cbn [bind] in Hadd.
    destruct (scriptTree target) as [tree |]; cbn [bind] in Hadd;
      [| discriminate].
    destruct (CtrlBlockForPathSuccess tree) as [cb | e | ]; cbn [bind] in Hadd;
      try discriminate.
    destruct (ToBytes cb) as [cbb | e | ]; cbn [bind] in Hadd;
      try discriminate.
    inversion Hadd; subst st'. cbn.
    rewrite length_app. cbn. repeat split; try reflexivity. lia.
Qed.

Lemma addUtxos_Ok :
  forall target us st st',
    addUtxos target us st = Ok st' ->
    txIn (sweepTx st')
    = txIn (sweepTx st) ++ map inputFor (map (fun u => (addr target, u)) us)
    /\ txOut (sweepTx st') = txOut (sweepTx st)
    /\ totalOutputValue st'
       = totalAfter (map (fun u => (addr target, u)) us) (totalOutputValue st)
    /\ estimator st'
       = fold_left estimatorStep (map (fun u => (addr target, u)) us)
           (estimator st).
Proof.
  intros target. induction us as [| u us IH]; intros st st' Hadd.
  - cbn in Hadd. inversion Hadd; subst st'. cbn. rewrite app_nil_r.
    repeat split; reflexivity.
  - cbn [addUtxos] in Hadd. apply bind_Ok_inv in Hadd.
    destruct Hadd as (st1 & H1 & Hrest).
    apply addUtxo_Ok in H1. destruct H1 as (Hin & Hout & Htot & Hest & _).
    apply IH in Hrest. destruct Hrest as (Hin' & Hout' & Htot' & Hest').
    cbn [map fold_left]. unfold totalAfter in *. cbn [fold_left snd].
    rewrite Hin', Hin, Hout', Hout, Htot', Htot, Hest', Hest.
    rewrite <- app_assoc. repeat split; reflexivity.
Qed.

Lemma addTargets_Ok :
  forall targets st st',
    addTargets targets st = Ok st' ->
    txIn (sweepTx st')
    = txIn (sweepTx st) ++ map inputFor (inputsOf targets)
    /\ txOut (sweepTx st') = txOut (sweepTx st)
    /\ totalOutputValue st'
       = totalAfter (inputsOf targets) (totalOutputValue st)
    /\ estimator st'
       = fold_left estimatorStep (inputsOf targets) (estimator st).
Proof.
  induction targets as [| t targets IH]; intros st st' Hadd.
  - cbn in Hadd. inversion Hadd; subst st'. cbn. rewrite app_nil_r.
    repeat split; reflexivity.
  - cbn [addTargets] in Hadd. apply bind_Ok_inv in Hadd.
    destruct Hadd as (st1 & H1 & Hrest).
    apply addUtxos_Ok in H1. destruct H1 as (Hin & Hout & Htot & Hest).
    apply IH in Hrest. destruct Hrest as (Hin' & Hout' & Htot' & Hest').
    unfold inputsOf in *. cbn [flat_map].
    unfold totalAfter in *. rewrite map_app, !fold_left_app.
    rewrite Hin', Hin, Hout', Hout, Htot', Htot, Hest', Hest.
    rewrite <- app_assoc. repeat split; reflexivity.
Qed.

(** Without overflow the running total is the sum of the values. *)
Lemma totalAfter_sum :
  forall inputs start,
    0 <= start ->
    Forall (fun au => 0 <= Value (utxoTxOut (snd au))) inputs ->
    start
    + fold_right (fun au acc => Value (utxoTxOut (snd au)) + acc) 0 inputs
    < 2 ^ 64 ->
    totalAfter inputs start
    = start
      + fold_right (fun au acc => Value (utxoTxOut (snd au)) + acc) 0 inputs.
Proof.
  induction inputs as [| au inputs IH]; intros start Hs Hnn Hb.
  - cbn. lia.
  - apply Forall_cons_iff in Hnn. destruct Hnn as [Hv Hnn].
    cbn [fold_right] in Hb |- *. unfold totalAfter. cbn [fold_left].
    fold (totalAfter inputs
            (uint64 (start + uint64 (Value (utxoTxOut (snd au)))))).
    assert (Hrest : 0 <= fold_right
                      (fun au acc => Value (utxoTxOut (snd au)) + acc) 0
                      inputs).
    { clear IH Hb. induction inputs as [| x xs IHx]; cbn; [lia |].
      apply Forall_cons_iff in Hnn. destruct Hnn as [Hx Hxs].
      specialize (IHx Hxs). lia. }
    assert (Hu : uint64 (Value (utxoTxOut (snd au)))
                 = Value (utxoTxOut (snd au))).
    { unfold uint64. apply Z.mod_small. lia. }
    assert (Hu2 : uint64 (start + Value (utxoTxOut (snd au)))
                  = start + Value (utxoTxOut (snd au))).
    { unfold uint64. apply Z.mod_small. lia. }
    rewrite Hu, Hu2. rewrite IH; [lia | lia | exact Hnn | lia].
Qed.

Lemma total_of_targets :
  forall targets est st,
    addTargets targets (initialState est) = Ok st ->
    valuesNonNegative targets ->
    totalValue targets < 2 ^ 64 ->
    totalOutputValue st = totalValue targets.
Proof.
  intros targets est st Hadd Hnn Hb.
  apply addTargets_Ok in Hadd. destruct Hadd as (_ & _ & Htot & _).
  rewrite Htot. cbn [totalOutputValue initialState].
  unfold totalValue in *. rewrite totalAfter_sum; [lia | lia | exact Hnn | lia].
Qed.

(** *** Signing *)

Lemma updateInput_setWitness :
  forall ins i w ins',
    updateInput ins i (setWitness w) = Some ins' ->
    map Sequence ins' = map Sequence ins
    /\ map PreviousOutPoint ins' = map PreviousOutPoint ins.
Proof.
  induction ins as [| x ins IH]; intros i w ins' Hu; cbn in Hu.
  - discriminate.
  - destruct i as [| i].
    + inversion Hu; subst ins'. cbn. split; reflexivity.
    + destruct (updateInput ins i (setWitness w)) as [r |] eqn:Hr;
        cbn in Hu; [| discriminate].
      inversion Hu; subst ins'. destruct (IH _ _ _ Hr) as [Hs Hp].
      cbn. rewrite Hs, Hp. split; reflexivity.
Qed.

(** Signing changes the witnesses only. *)
Lemma signLoop_Ok :
  forall key h fetcher descs idx tx tx',
    signLoop key h fetcher idx descs tx = Ok tx' ->
    txOut tx' = txOut tx
    /\ map Sequence (txIn tx') = map Sequence (txIn tx)
    /\ map PreviousOutPoint (txIn tx') = map PreviousOutPoint (txIn tx).
Proof.
  intros key h fetcher.
  induction descs as [| d descs IH]; intros idx tx tx' Hs.
  - cbn in Hs. inversion Hs; subst tx'. repeat split; reflexivity.
  - cbn [signLoop] in Hs. destruct d as [desc |]; [| discriminate].
    apply bind_Ok_inv in Hs. destruct Hs as (witness & _ & Hs).
    destruct (updateInput (txIn tx) idx (setWitness witness)) as [ins |]
      eqn:Hu; [| discriminate].
    apply IH in Hs. destruct Hs as (Ho & Hseq & Hprev).
    apply updateInput_setWitness in Hu. destruct Hu as [Hs1 Hp1].
    cbn [txOut txIn withInputs] in Ho, Hseq, Hprev.
    rewrite Ho, Hseq, Hprev, Hs1, Hp1. repeat split; reflexivity.
Qed.

(** When the builder gets past the dust check. *)
Lemma buildAndSign_after_inputs :
  forall key targets est sweepScript feeRate st,
    addTargets targets (initialState est) = Ok st ->
    buildAndSign key targets est sweepScript feeRate
    = if (length targets =? 0)%nat || (totalOutputValue st <? sweepDustLimit)
      then Err errBelowDust
      else signSweep key st (withSweepOutput st sweepScript feeRate).
Proof.
  intros key targets est sweepScript feeRate st Hadd.
  unfold buildAndSign. rewrite Hadd. reflexivity.
Qed.

Lemma buildAndSign_Ok_inv :
  forall key targets est sweepScript feeRate tx,
    buildAndSign key targets est sweepScript feeRate = Ok tx ->
    exists st,
      addTargets targets (initialState est) = Ok st
      /\ sweepDustLimit <= totalOutputValue st
      /\ signSweep key st (withSweepOutput st sweepScript feeRate) = Ok tx.
Proof.
  intros key targets est sweepScript feeRate tx Hb.
  unfold buildAndSign in Hb. apply bind_Ok_inv in Hb.
  destruct Hb as (st & Hadd & Hb). exists st.
  destruct ((length targets =? 0)%nat
            || (totalOutputValue st <? sweepDustLimit)) eqn:Hc;
    [discriminate |].
  apply orb_false_elim in Hc. destruct Hc as [_ Hc].
  apply Z.ltb_ge in Hc. repeat split; assumption.
Qed.

End Build.

End BuildFacts.

Import Sweep BuildFacts.

Lemma int64_in_range :
  forall x, - 2 ^ 63 <= x < 2 ^ 63 -> int64 x = x.
Proof.
  intros x Hx. unfold int64. rewrite Z.mod_small by lia. lia.
Qed.

(** The transaction handed to the signer: the inputs in order, and one
    output of the total less the fee. *)
Lemma sweep_before_signing :
  forall {ec : Btcec} {hd : Hdkeychain} {bu : Btcutil} {env : SweepEnv}
         (targets : list targetAddr) (est : TxWeightEstimator)
         (sweepScript : bytes) (feeRate : Z) (st : buildState),
    addTargets targets (initialState est) = Ok st ->
    valuesNonNegative targets ->
    totalValue targets < 2 ^ 63 ->
    0 <= sweepFee feeRate targets est < 2 ^ 63 ->
    totalOutputValue st = totalValue targets
    /\ txIn (withSweepOutput st sweepScript feeRate)
       = map inputFor (inputsOf targets)
    /\ txOut (withSweepOutput st sweepScript feeRate)
       = [ {| Value := totalValue targets - sweepFee feeRate targets est;
              PkScript := sweepScript |} ].
Proof.
  intros ec hd bu env targets est sweepScript feeRate st Hadd Hnn Hb Hfee.
  assert (Hnn0 : 0 <= totalValue targets).
  { unfold totalValue. unfold valuesNonNegative in Hnn.
    induction (inputsOf targets) as [| x xs IHx]; cbn; [lia |].
    apply Forall_cons_iff in Hnn. destruct Hnn as [Hx Hxs].
    specialize (IHx Hxs). lia. }
  pose proof (total_of_targets targets est st Hadd Hnn ltac:(lia)) as Htot.
  pose proof (addTargets_Ok _ _ _ Hadd) as (Hin & _ & _ & Hest).
  split; [exact Htot |]. split.
  - unfold withSweepOutput. cbn [txIn withOutputs]. rewrite Hin. reflexivity.
  - unfold withSweepOutput, totalFeeOf. cbn [txOut withOutputs].
    rewrite Hest. cbn [estimator initialState].
    fold (estimatorAfter targets est).
    fold (sweepFee feeRate targets est). rewrite Htot.
    rewrite (int64_in_range (totalValue targets)) by lia.
    rewrite (int64_in_range (sweepFee feeRate targets est)) by lia.
    rewrite int64_in_range by lia. reflexivity.
Qed.

Lemma dust_check_passes :
  forall {ec : Btcec} {hd : Hdkeychain} {bu : Btcutil} {env : SweepEnv}
         (targets : list targetAddr) (est : TxWeightEstimator)
         (st : buildState),
    addTargets targets (initialState est) = Ok st ->
    sweepDustLimit <= totalOutputValue st ->
    (length targets =? 0)%nat || (totalOutputValue st <? sweepDustLimit)
    = false.
Proof.
  intros ec hd bu env targets est st Hadd Hd.
  apply orb_false_intro; [| apply Z.ltb_ge; exact Hd].
  destruct targets as [| t targets]; [| reflexivity].
  cbn in Hadd. inversion Hadd; subst st. cbn in Hd.
  unfold sweepDustLimit in Hd. lia.
Qed.

(** C9: in the transaction as assembled, and in the signed transaction the
    builder returns, the inputs are the UTXOs of the targets in order, and
    the sequence number of each is 1 when its target's address is a witness
    script hash (anchor) or taproot address and [0xffffffff] when it is a
    witness key hash. *)
Theorem sweep_input_sequence_numbers :
  forall {ec : Btcec} {hd : Hdkeychain} {bu : Btcutil} {env : SweepEnv}
         {signing : Signing} (extendedKey : ExtendedKey)
         (targets : list targetAddr) (est : TxWeightEstimator)
         (sweepScript : bytes) (feeRate : Z) (st : buildState),
    addTargets targets (initialState est) = Ok st ->
    txIn (sweepTx st) = map inputFor (inputsOf targets)
    /\ map Sequence (txIn (sweepTx st))
       = map (fun au => sequenceFor (fst au)) (inputsOf targets)
    /\ (forall tx,
          buildAndSign extendedKey targets est sweepScript feeRate = Ok tx ->
          map Sequence (txIn tx)
          = map (fun au => sequenceFor (fst au)) (inputsOf targets)
          /\ map PreviousOutPoint (txIn tx)
             = map (fun au => utxoOutPoint (snd au)) (inputsOf targets))
    /\ (forall program net,
          sequenceFor (AddressWitnessScriptHash program net) = 1
          /\ sequenceFor (AddressTaproot program net) = 1
          /\ sequenceFor (AddressWitnessPubKeyHash program net)
             = 4294967295).
Proof.
  intros ec hd bu env signing extendedKey targets est sweepScript feeRate st
    Hadd.
  pose proof (addTargets_Ok _ _ _ Hadd) as (Hin & _).
  cbn [sweepTx initialState NewMsgTx txIn app] in Hin.
  split; [exact Hin |]. split; [| split].
  - rewrite Hin, map_map. reflexivity.
  - intros tx Hb. apply buildAndSign_Ok_inv in Hb.
    destruct Hb as (st' & Hadd' & _ & Hsign).
    rewrite Hadd in Hadd'. inversion Hadd'; subst st'.
    unfold signSweep in Hsign. apply signLoop_Ok in Hsign.
    destruct Hsign as (_ & Hseq & Hprev).
    unfold withSweepOutput in Hseq, Hprev.
    cbn [txIn withOutputs] in Hseq, Hprev.
    rewrite Hseq, Hprev, Hin, !map_map. split; reflexivity.
  - intros program net. repeat split; reflexivity.
Qed.


(** C2, amended: the dust check looks at the sum of the input values, not
    at what is left after the fee.  With non-negative input values that fit
    [int64] and a fee in range: when there is no target or the sum is below
    600 the builder returns the dust error without signing; otherwise it
    goes on to sign the transaction whose inputs are the UTXOs and whose
    single output is the sum less the fee, also when that is below 600. *)
Theorem sweep_dust_check_before_fee :
  forall {ec : Btcec} {hd : Hdkeychain} {bu : Btcutil} {env : SweepEnv}
         {signing : Signing} (extendedKey : ExtendedKey)
         (targets : list targetAddr) (est : TxWeightEstimator)
         (sweepScript : bytes) (feeRate : Z) (st : buildState),
    addTargets targets (initialState est) = Ok st ->
    valuesNonNegative targets ->
    totalValue targets < 2 ^ 63 ->
    0 <= sweepFee feeRate targets est < 2 ^ 63 ->
    (targets = [] \/ totalValue targets < sweepDustLimit ->
     buildAndSign extendedKey targets est sweepScript feeRate
     = Err errBelowDust)
    /\ (targets <> [] -> sweepDustLimit <= totalValue targets ->
        buildAndSign extendedKey targets est sweepScript feeRate
        = signSweep extendedKey st (withSweepOutput st sweepScript feeRate)
        /\ txIn (withSweepOutput st sweepScript feeRate)
           = map inputFor (inputsOf targets)
        /\ txOut (withSweepOutput st sweepScript feeRate)
           = [ {| Value := totalValue targets
                           - sweepFee feeRate targets est;
                  PkScript := sweepScript |} ]).
Proof.
  intros ec hd bu env signing extendedKey targets est sweepScript feeRate st
    Hadd Hnn Hlt Hfee.
  pose proof (sweep_before_signing targets est sweepScript feeRate st Hadd
                Hnn Hlt Hfee) as (Htot & Hin & Hout).
  rewrite (buildAndSign_after_inputs extendedKey targets est sweepScript
             feeRate st Hadd).
  split.
  - intros [Hnil | Hlow].
    + subst targets. reflexivity.
    + rewrite Htot.
      replace (totalValue targets <? sweepDustLimit) with true
        by (symmetry; apply Z.ltb_lt; exact Hlow).
      rewrite orb_true_r. reflexivity.
  - intros Hne Hhigh.
    rewrite (dust_check_passes targets est st Hadd) by (rewrite Htot; exact Hhigh).
    repeat split; assumption.
Qed.

(** C8: when the sum of the input values is at least 600 and the fee is at
    least that sum, the dust check passes, the builder goes on to sign, and
    the single output of the transaction it signs, and of the transaction it
    returns, has the value sum less fee, which is zero or negative. *)
Theorem sweep_output_not_positive_when_fee_exceeds_total :
  forall {ec : Btcec} {hd : Hdkeychain} {bu : Btcutil} {env : SweepEnv}
         {signing : Signing} (extendedKey : ExtendedKey)
         (targets : list targetAddr) (est : TxWeightEstimator)
         (sweepScript : bytes) (feeRate : Z) (st : buildState),
    addTargets targets (initialState est) = Ok st ->
    valuesNonNegative targets ->
    totalValue targets < 2 ^ 63 ->
    sweepFee feeRate targets est < 2 ^ 63 ->
    sweepDustLimit <= totalValue targets ->
    totalValue targets <= sweepFee feeRate targets est ->
    (length targets =? 0)%nat || (totalOutputValue st <? sweepDustLimit)
    = false
    /\ buildAndSign extendedKey targets est sweepScript feeRate
       = signSweep extendedKey st (withSweepOutput st sweepScript feeRate)
    /\ txOut (withSweepOutput st sweepScript feeRate)
       = [ {| Value := totalValue targets - sweepFee feeRate targets est;
              PkScript := sweepScript |} ]
    /\ totalValue targets - sweepFee feeRate targets est <= 0
    /\ (forall tx,
          buildAndSign extendedKey targets est sweepScript feeRate = Ok tx ->
          map Value (txOut tx)
          = [totalValue targets - sweepFee feeRate targets est]).
Proof.
  intros ec hd bu env signing extendedKey targets est sweepScript feeRate st
    Hadd Hnn Hlt Hfee Hhigh Hexceeds.
  assert (Hfee' : 0 <= sweepFee feeRate targets est < 2 ^ 63).
  { unfold sweepDustLimit in Hhigh. lia. }
  pose proof (sweep_before_signing targets est sweepScript feeRate st Hadd
                Hnn Hlt Hfee') as (Htot & Hin & Hout).
  assert (Hpass : (length targets =? 0)%nat
                  || (totalOutputValue st <? sweepDustLimit) = false).
  { apply (dust_check_passes targets est st Hadd). rewrite Htot. exact Hhigh. }
  assert (Hgo : buildAndSign extendedKey targets est sweepScript feeRate
                = signSweep extendedKey st
                    (withSweepOutput st sweepScript feeRate)).
  { rewrite (buildAndSign_after_inputs extendedKey targets est sweepScript
               feeRate st Hadd).
    rewrite Hpass. reflexivity. }
  split; [exact Hpass |]. split; [exact Hgo |]. split; [exact Hout |].
  split; [lia |].
  intros tx Hb. rewrite Hgo in Hb. unfold signSweep in Hb.
  apply signLoop_Ok in Hb. destruct Hb as (Ho & _ & _).
  rewrite Ho, Hout. reflexivity.
Qed.

Module BuildExamples.

Import Model.

(** Closed goals are settled by evaluation. *)
Ltac by_computation :=
  first [reflexivity | vm_compute; first [reflexivity | discriminate]].

Lemma sample_values_nonnegative :
  forall v, 0 <= v -> valuesNonNegative [p2wkhTarget v].
Proof.
  intros v Hv. unfold valuesNonNegative. cbn. constructor; [exact Hv |].
  constructor.
Qed.

(** C2, as stated, fails: one plain key-hash UTXO of 700 at 10 sat/vByte
    costs a fee of 1097 for 439 weight units, so value less fee is [-397],
    below 600; the builder does not return the dust error but signs and
    returns a transaction with that output. *)
Lemma sweep_below_dust_after_fee_is_signed :
  sweepFee 10 [p2wkhTarget 700] preparedEstimator = 1097
  /\ totalValue [p2wkhTarget 700]
     - sweepFee 10 [p2wkhTarget 700] preparedEstimator < sweepDustLimit
  /\ exists tx,
       buildAndSign master [p2wkhTarget 700] preparedEstimator [0; 20] 10
       = Ok tx
       /\ map Value (txOut tx) = [-397].
Proof.
  split; [by_computation |]. split; [by_computation |].
  eexists. split; by_computation.
Qed.

Lemma sweep_input_sequence_numbers_witness :
  exists st,
    addTargets [p2wkhTarget 1000; anchorTarget 2000; taprootTarget 3000]
      (initialState preparedEstimator) = Ok st
    /\ map Sequence (txIn (sweepTx st))
       = map (fun au => sequenceFor (fst au))
           (inputsOf [p2wkhTarget 1000; anchorTarget 2000;
                      taprootTarget 3000])
    /\ map Sequence (txIn (sweepTx st)) = [4294967295; 1; 1].
Proof.
  eexists. split; [by_computation |]. split.
  - refine (proj1 (proj2
      (sweep_input_sequence_numbers master
         [p2wkhTarget 1000; anchorTarget 2000; taprootTarget 3000]
         preparedEstimator [0; 20] 10 _ _))).
    by_computation.
  - by_computation.
Defined.



Lemma sweep_dust_check_before_fee_witness :
  exists st,
    addTargets [p2wkhTarget 700] (initialState preparedEstimator) = Ok st
    /\ valuesNonNegative [p2wkhTarget 700]
    /\ totalValue [p2wkhTarget 700] < 2 ^ 63
    /\ 0 <= sweepFee 10 [p2wkhTarget 700] preparedEstimator < 2 ^ 63
    /\ [p2wkhTarget 700] <> []
    /\ sweepDustLimit <= totalValue [p2wkhTarget 700]
    /\ buildAndSign master [p2wkhTarget 700] preparedEstimator [0; 20] 10
       = signSweep master st (withSweepOutput st [0; 20] 10)
    /\ txOut (withSweepOutput st [0; 20] 10)
       = [ {| Value := totalValue [p2wkhTarget 700]
                       - sweepFee 10 [p2wkhTarget 700] preparedEstimator;
              PkScript := [0; 20] |} ].
Proof.
  assert (Hnn : valuesNonNegative [p2wkhTarget 700])
    by (apply sample_values_nonnegative; lia).
  assert (Hlt : totalValue [p2wkhTarget 700] < 2 ^ 63) by by_computation.
  assert (Hfee : 0 <= sweepFee 10 [p2wkhTarget 700] preparedEstimator
                 < 2 ^ 63) by (split; by_computation).
  assert (Hne : [p2wkhTarget 700] <> []) by discriminate.
  assert (Hhigh : sweepDustLimit <= totalValue [p2wkhTarget 700])
    by by_computation.
  eexists. split; [by_computation |].
  split; [exact Hnn |]. split; [exact Hlt |].
  split; [exact Hfee |]. split; [exact Hne |].
  split; [exact Hhigh |].
  refine ((fun H => conj (proj1 H) (proj2 (proj2 H)))
            (proj2 (sweep_dust_check_before_fee master [p2wkhTarget 700]
                      preparedEstimator [0; 20] 10 _ _ Hnn Hlt Hfee)
               Hne Hhigh)).
  by_computation.
Defined.

Lemma sweep_output_not_positive_witness :
  exists st,
    addTargets [p2wkhTarget 700] (initialState preparedEstimator) = Ok st
    /\ valuesNonNegative [p2wkhTarget 700]
    /\ totalValue [p2wkhTarget 700] < 2 ^ 63
    /\ sweepFee 10 [p2wkhTarget 700] preparedEstimator < 2 ^ 63
    /\ sweepDustLimit <= totalValue [p2wkhTarget 700]
    /\ totalValue [p2wkhTarget 700]
       <= sweepFee 10 [p2wkhTarget 700] preparedEstimator
    /\ buildAndSign master [p2wkhTarget 700] preparedEstimator [0; 20] 10
       = signSweep master st (withSweepOutput st [0; 20] 10)
    /\ totalValue [p2wkhTarget 700]
       - sweepFee 10 [p2wkhTarget 700] preparedEstimator <= 0.
Proof.
  assert (Hnn : valuesNonNegative [p2wkhTarget 700])
    by (apply sample_values_nonnegative; lia).
  assert (Hlt : totalValue [p2wkhTarget 700] < 2 ^ 63) by by_computation.
  assert (Hfee : sweepFee 10 [p2wkhTarget 700] preparedEstimator < 2 ^ 63)
    by by_computation.
  assert (Hhigh : sweepDustLimit <= totalValue [p2wkhTarget 700])
    by by_computation.
  assert (Hex : totalValue [p2wkhTarget 700]
                <= sweepFee 10 [p2wkhTarget 700] preparedEstimator)
    by by_computation.
  eexists. split; [by_computation |].
  split; [exact Hnn |]. split; [exact Hlt |].
  split; [exact Hfee |]. split; [exact Hhigh |].
  split; [exact Hex |].
  refine ((fun H => conj (proj1 (proj2 H))
                      (proj1 (proj2 (proj2 (proj2 H)))))
            (sweep_output_not_positive_when_fee_exceeds_total master
               [p2wkhTarget 700] preparedEstimator [0; 20] 10 _ _ Hnn Hlt
               Hfee Hhigh Hex)).
  by_computation.
Defined.

End BuildExamples.

(** ** The balance scan *)

Module ScanFacts.

Import Sweep.

Section Scan.

Context {ec : Btcec} {hd : Hdkeychain} {bu : Btcutil} {env : SweepEnv}.

Lemma withCalls_nil : forall w, withCalls w [] = w.
Proof.
  intros [l c]. unfold withCalls. cbn. rewrite app_nil_r. reflexivity.
Qed.

Lemma withCalls_app :
  forall w a b, withCalls (withCalls w a) b = withCalls w (a ++ b).
Proof.
  intros w a b. unfold withCalls. cbn. rewrite app_assoc. reflexivity.
Qed.

Lemma logged_withCalls : forall c w, logged c w = withCalls w [c].
Proof. reflexivity. Qed.

(** One lookup that answers: the candidate's contribution is appended and
    the request is logged. *)
Lemma queryAddr_lookup :
  forall api kd targets a s t w,
    lookupSucceeds api {| cAddr := a; cScript := s; cTree := t |} ->
    queryAddr api kd targets a s t w
    = (Ok (targets
           ++ foundAt api kd {| cAddr := a; cScript := s; cTree := t |}),
       withCalls w [callFor {| cAddr := a; cScript := s; cTree := t |}]).
Proof.
  intros api kd targets a s t w (vouts & us & Hu & Hp).
  cbn [cAddr] in Hu.
  unfold queryAddr, mbind, wrapM, callUnspent, foundAt, callFor.
  cbn [cAddr cScript cTree].
  rewrite Hu. cbn [wrapErr]. rewrite logged_withCalls.
  destruct vouts as [| v vs].
  - cbn. rewrite app_nil_r. reflexivity.
  - cbn [length Nat.ltb Nat.leb]. unfold lift, ret. rewrite Hp. reflexivity.
Qed.

(** Whatever the lookup answers, a successful [queryAddr] logs the one
    request and appends at most one target, for the address asked. *)
Lemma queryAddr_Ok_inv :
  forall api kd targets a s t w ts w',
    queryAddr api kd targets a s t w = (Ok ts, w') ->
    w' = withCalls w [CallUnspent (EncodeAddress a)]
    /\ (ts = targets
        \/ exists us,
             ts = targets ++ [ {| addr := a; keyDesc := kd; tweak := [];
                                  utxos := us; script := s;
                                  scriptTree := t |} ]).
Proof.
  intros api kd targets a s t w ts w' Hq.
  unfold queryAddr, mbind, wrapM, callUnspent in Hq.
  destruct (Unspent api (EncodeAddress a)) as [unspent | e | ];
    cbn [wrapErr] in Hq; try discriminate.
  destruct (0 <? length unspent)%nat.
  - unfold lift, ret in Hq.
    destruct (parseUtxos unspent) as [us | e | ]; try discriminate.
    inversion Hq; subst. split; [reflexivity |]. right. exists us.
    reflexivity.
  - unfold ret in Hq. inversion Hq; subst. split; [reflexivity |]. left.
    reflexivity.
Qed.

Lemma targetsFor_Ok_inv :
  forall pk cs,
    targetsFor pk = Ok cs ->
    exists a1 a2 s2 a3 t3,
      P2WKHAddr pk chainParams = Ok a1
      /\ P2AnchorStaticRemote pk chainParams = Ok (a2, s2)
      /\ P2TaprootStaticRemove pk chainParams = Ok (a3, t3)
      /\ cs = [ {| cAddr := a1; cScript := []; cTree := None |};
                {| cAddr := a2; cScript := s2; cTree := None |};
                {| cAddr := a3; cScript := []; cTree := Some t3 |} ].
Proof.
  intros pk cs Ht. unfold targetsFor in Ht.
  apply bind_Ok_inv in Ht. destruct Ht as (a1 & H1 & Ht).
  apply bind_Ok_inv in Ht. destruct Ht as ([a2 s2] & H2 & Ht).
  apply bind_Ok_inv in Ht. destruct Ht as ([a3 t3] & H3 & Ht).
  inversion Ht; subst cs. exists a1, a2, s2, a3, t3.
  repeat split; assumption.
Qed.

(** [queryAddressBalances] generates the candidates of the key and looks
    each one up, in order. *)
Lemma queryAddressBalances_candidates :
  forall api pk path kd cs w,
    targetsFor pk = Ok cs ->
    Forall (lookupSucceeds api) cs ->
    queryAddressBalances pk path kd api w
    = (Ok (flat_map (foundAt api kd) cs), withCalls w (map callFor cs)).
Proof.
  intros api pk path kd cs w Ht Hl.
  apply targetsFor_Ok_inv in Ht.
  destruct Ht as (a1 & a2 & s2 & a3 & t3 & H1 & H2 & H3 & Hcs). subst cs.
  apply Forall_cons_iff in Hl. destruct Hl as [L1 Hl].
  apply Forall_cons_iff in Hl. destruct Hl as [L2 Hl].
  apply Forall_cons_iff in Hl. destruct Hl as [L3 _].
  unfold queryAddressBalances.
  unfold mbind at 1. unfold lift at 1. rewrite H1.
  unfold mbind at 1.
  rewrite (queryAddr_lookup api kd [] a1 [] None w L1).
  unfold mbind at 1. unfold lift at 1. rewrite H2. cbn [fst snd].
  unfold mbind at 1.
  rewrite (queryAddr_lookup api kd _ a2 s2 None _ L2).
  unfold mbind at 1. unfold lift at 1. rewrite H3. cbn [fst snd].
  unfold mbind at 1.
  rewrite (queryAddr_lookup api kd _ a3 [] (Some t3) _ L3).
  unfold ret. rewrite !withCalls_app. cbn [flat_map map app].
  rewrite app_nil_r, <- app_assoc. reflexivity.
Qed.

(** A successful [queryAddressBalances] asked for the candidates of the
    key, and every target it returns is one of them. *)
Lemma queryAddressBalances_Ok_inv :
  forall api pk path kd w ts w',
    queryAddressBalances pk path kd api w = (Ok ts, w') ->
    exists cs,
      targetsFor pk = Ok cs
      /\ w' = withCalls w (map callFor cs)
      /\ forall t, In t ts ->
           In {| cAddr := addr t; cScript := script t;
                 cTree := scriptTree t |} cs
           /\ keyDesc t = kd.
Proof.
  intros api pk path kd w ts w' Hq. unfold queryAddressBalances in Hq.
  unfold mbind at 1 in Hq. unfold lift at 1 in Hq.
  destruct (P2WKHAddr pk chainParams) as [a1 | e | ] eqn:H1;
    try discriminate.
  unfold mbind at 1 in Hq.
  destruct (queryAddr api kd [] a1 [] None w) as [[ts1 | e | ] w1] eqn:Q1;
    try discriminate.
  unfold mbind at 1 in Hq. unfold lift at 1 in Hq.
  destruct (P2AnchorStaticRemote pk chainParams) as [[a2 s2] | e | ] eqn:H2;
    try discriminate.
  cbn [fst snd] in Hq. unfold mbind at 1 in Hq.
  destruct (queryAddr api kd ts1 a2 s2 None w1) as [[ts2 | e | ] w2] eqn:Q2;
    try discriminate.
  unfold mbind at 1 in Hq. unfold lift at 1 in Hq.
  destruct (P2TaprootStaticRemove pk chainParams) as [[a3 t3] | e | ] eqn:H3;
    try discriminate.
  cbn [fst snd] in Hq. unfold mbind at 1 in Hq.
  destruct (queryAddr api kd ts2 a3 [] (Some t3) w2) as [[ts3 | e | ] w3]
    eqn:Q3; try discriminate.
  unfold ret in Hq. inversion Hq; subst ts3 w3. clear Hq.
  apply queryAddr_Ok_inv in Q1. destruct Q1 as [W1 T1].
  apply queryAddr_Ok_inv in Q2. destruct Q2 as [W2 T2].
  apply queryAddr_Ok_inv in Q3. destruct Q3 as [W3 T3].
  exists [ {| cAddr := a1; cScript := []; cTree := None |};
           {| cAddr := a2; cScript := s2; cTree := None |};
           {| cAddr := a3; cScript := []; cTree := Some t3 |} ].
  split; [| split].
  - unfold targetsFor. rewrite H1, H2, H3. reflexivity.
  - subst w' w2 w1. rewrite !withCalls_app. reflexivity.
  - intros t Hin.
    assert (Hin1 : forall x, In x ts1 ->
              x = {| addr := a1; keyDesc := kd; tweak := []; utxos := utxos x;
                     script := []; scriptTree := None |}).
    { intros x Hx. destruct T1 as [T1 | [us T1]]; subst ts1.
      - destruct Hx.
      - cbn in Hx. destruct Hx as [Hx | []]. subst x. reflexivity. }
    assert (Hin2 : forall x, In x ts2 -> In x ts1 \/
              x = {| addr := a2; keyDesc := kd; tweak := []; utxos := utxos x;
                     script := s2; scriptTree := None |}).
    { intros x Hx. destruct T2 as [T2 | [us T2]]; subst ts2.
      - left. exact Hx.
      - apply in_app_or in Hx. destruct Hx as [Hx | [Hx | []]].
        + left. exact Hx.
        + right. subst x. reflexivity. }
    assert (Hin3 : In t ts2 \/
              t = {| addr := a3; keyDesc := kd; tweak := []; utxos := utxos t;
                     script := []; scriptTree := Some t3 |}).
    { destruct T3 as [T3 | [us T3]]; subst ts.
      - left. exact Hin.
      - apply in_app_or in Hin. destruct Hin as [Hx | [Hx | []]].
        + left. exact Hx.
        + right. subst t. reflexivity. }
    destruct Hin3 as [Hx | Hx].
    + destruct (Hin2 _ Hx) as [Hy | Hy].
      * rewrite (Hin1 _ Hy). cbn. split; [left; reflexivity | reflexivity].
      * rewrite Hy. cbn. split; [right; left; reflexivity | reflexivity].
    + rewrite Hx. cbn. split; [right; right; left; reflexivity | reflexivity].
Qed.

(** One index of the scan. *)
Lemma scanIndex_candidates :
  forall api key index pk cs w,
    paymentBaseKey key index = Ok pk ->
    targetsFor pk = Ok cs ->
    Forall (lookupSucceeds api) cs ->
    scanIndex api key index w
    = (Ok (flat_map (foundAt api (paymentBaseDesc pk index)) cs),
       withCalls w (map callFor cs)).
Proof.
  intros api key index pk cs w Hk Ht Hl.
  unfold paymentBaseKey in Hk.
  apply bind_Ok_inv in Hk. destruct Hk as (parsedPath & Hp & Hk).
  apply bind_Ok_inv in Hk. destruct Hk as (hdKey & Hd & Hk).
  apply bind_Ok_inv in Hk. destruct Hk as (privKey & Hpriv & Hk).
  inversion Hk; subst pk. clear Hk.
  unfold scanIndex.
  unfold mbind at 1. unfold lift at 1. rewrite Hp.
  unfold mbind at 1. unfold lift at 1. rewrite Hd.
  unfold mbind at 1. unfold lift at 1. rewrite Hpriv.
  unfold wrapM.
  rewrite (queryAddressBalances_candidates api (PubKey privKey) _ _ cs w Ht Hl).
  reflexivity.
Qed.

(** The loop over the window: every index in turn, whatever was found at
    the indices before. *)
Lemma scanLoop_all_indices :
  forall api key (pks : Z -> PublicKey) (cands : Z -> list candidate) n s
         targets w,
    (forall i, Z.of_nat s <= i < Z.of_nat (s + n) ->
       paymentBaseKey key i = Ok (pks i)
       /\ targetsFor (pks i) = Ok (cands i)
       /\ Forall (lookupSucceeds api) (cands i)) ->
    scanLoop api key n (Z.of_nat s) targets w
    = (Ok (targets
           ++ flat_map (fun i => flat_map
                                   (foundAt api (paymentBaseDesc (pks i) i))
                                   (cands i))
                (map Z.of_nat (seq s n))),
       withCalls w (flat_map (fun i => map callFor (cands i))
                      (map Z.of_nat (seq s n)))).
Proof.
  intros api key pks cands.
  induction n as [| n IH]; intros s targets w Hall.
  - cbn. unfold ret. rewrite app_nil_r, withCalls_nil. reflexivity.
  - cbn [scanLoop]. unfold mbind at 1.
    destruct (Hall (Z.of_nat s) ltac:(lia)) as (Hk & Ht & Hl).
    rewrite (scanIndex_candidates api key _ _ _ w Hk Ht Hl).
    replace (Z.of_nat s + 1) with (Z.of_nat (S s)) by lia.
    rewrite IH by (intros i Hi; apply Hall; lia).
    cbn [seq map flat_map].
    rewrite withCalls_app, <- app_assoc. reflexivity.
Qed.

Lemma lookupAnswers_sound :
  forall api cs,
    forallb (lookupAnswers api) cs = true ->
    Forall (lookupSucceeds api) cs.
Proof.
  intros api cs Hb. apply Forall_forall. intros c Hin.
  rewrite forallb_forall in Hb. specialize (Hb c Hin).
  unfold lookupAnswers in Hb. unfold lookupSucceeds.
  destruct (Unspent api (EncodeAddress (cAddr c))) as [vouts | e | ];
    try discriminate.
  destruct (parseUtxos vouts) as [us | e | ] eqn:Hp; try discriminate.
  exists vouts, us. split; [reflexivity | exact Hp].
Qed.

End Scan.

End ScanFacts.

(** ** The path of the scan *)

Module ScanPathFacts.

Import GoStrings Lnd Sweep PathGrammar ParsePathFacts DeriveFacts.

Lemma digit_cases :
  forall d, isDigit d = true -> In d (str "0123456789").
Proof.
  intros d Hd. unfold isDigit in Hd. apply andb_prop in Hd.
  destruct Hd as [Hlo Hhi]. apply Nat.leb_le in Hlo. apply Nat.leb_le in Hhi.
  rewrite <- (ascii_nat_embedding d).
  assert (Hc : (nat_of_ascii d = 48 \/ nat_of_ascii d = 49
                \/ nat_of_ascii d = 50 \/ nat_of_ascii d = 51
                \/ nat_of_ascii d = 52 \/ nat_of_ascii d = 53
                \/ nat_of_ascii d = 54 \/ nat_of_ascii d = 55
                \/ nat_of_ascii d = 56 \/ nat_of_ascii d = 57)%nat) by lia.
  repeat (destruct Hc as [Hc | Hc]; [rewrite Hc; cbn; tauto |]).
  rewrite Hc. cbn. tauto.
Qed.

Lemma digitVal_digitChar :
  forall n, digitVal (digitChar (n mod 10)) = n mod 10.
Proof.
  intros n. pose proof (Z.mod_pos_bound n 10 ltac:(lia)) as Hb.
  assert (Hc : n mod 10 = 0 \/ n mod 10 = 1 \/ n mod 10 = 2 \/ n mod 10 = 3
               \/ n mod 10 = 4 \/ n mod 10 = 5 \/ n mod 10 = 6
               \/ n mod 10 = 7 \/ n mod 10 = 8 \/ n mod 10 = 9) by lia.
  repeat (destruct Hc as [Hc | Hc]; [rewrite Hc; reflexivity |]).
  rewrite Hc. reflexivity.
Qed.

Lemma formatDigits_acc :
  forall fuel n acc,
    formatDigits fuel n acc = formatDigits fuel n [] ++ acc.
Proof.
  induction fuel as [| fuel IH]; intros n acc; cbn [formatDigits].
  - reflexivity.
  - destruct (n / 10 =? 0).
    + reflexivity.
    + rewrite (IH (n / 10) (digitChar (n mod 10) :: acc)).
      rewrite (IH (n / 10) [digitChar (n mod 10)]).
      rewrite <- app_assoc. reflexivity.
Qed.

Lemma decimalValue_snoc :
  forall ds c, decimalValue (ds ++ [c]) = decimalValue ds * 10 + digitVal c.
Proof.
  intros ds c. unfold decimalValue. rewrite fold_left_app. reflexivity.
Qed.

(** The digits printed for a number read back as that number. *)
Lemma decimalValue_formatDigits :
  forall fuel n, 0 <= n < 10 ^ Z.of_nat fuel ->
    decimalValue (formatDigits fuel n []) = n.
Proof.
  induction fuel as [| fuel IH]; intros n Hn.
  - cbn in Hn |- *. lia.
  - cbn [formatDigits]. rewrite Nat2Z.inj_succ, Z.pow_succ_r in Hn by lia.
    destruct (n / 10 =? 0) eqn:Hq.
    + apply Z.eqb_eq in Hq. unfold decimalValue. cbn [fold_left].
      rewrite digitVal_digitChar.
      pose proof (Z.div_mod n 10 ltac:(lia)). lia.
    + rewrite formatDigits_acc, decimalValue_snoc, digitVal_digitChar.
      rewrite IH.
      * pose proof (Z.div_mod n 10 ltac:(lia)). lia.
      * split; [apply Z.div_pos; lia | apply Z.div_lt_upper_bound; lia].
Qed.

Lemma formatUint_value :
  forall n, 0 <= n < 2 ^ 64 -> decimalValue (formatUint n) = n.
Proof.
  intros n Hn. apply decimalValue_formatDigits.
  assert (H : 2 ^ 64 < 10 ^ Z.of_nat 20) by reflexivity. lia.
Qed.

Lemma formatDigits_not_nil :
  forall fuel n acc, formatDigits (S fuel) n acc <> [].
Proof.
  intros fuel n acc. cbn [formatDigits].
  destruct (n / 10 =? 0); [discriminate |].
  rewrite formatDigits_acc. intro Hc. apply app_eq_nil in Hc.
  destruct Hc as [_ Hc]. discriminate Hc.
Qed.

Lemma formatUint_not_nil : forall n, formatUint n <> [].
Proof. intros n. apply (formatDigits_not_nil 19). Qed.

Lemma decimalSegment_ok :
  forall n marks, 0 <= n < 2 ^ 32 -> segOk (decimalSegment n marks).
Proof.
  intros n marks Hn. unfold segOk, decimalSegment, segValue, signedValue.
  cbn [sgSign sgDigits].
  split; [apply formatUint_not_nil |].
  split; [apply formatUint_isDigit |].
  rewrite formatUint_value by lia. lia.
Qed.

Lemma decimalSegment_index :
  forall n, 0 <= n < 2 ^ 32 ->
    segIndex (decimalSegment n 0) = n
    /\ segIndex (decimalSegment n 1) = HardenedKey n.
Proof.
  intros n Hn. unfold segIndex, decimalSegment, segValue, signedValue.
  cbn [sgSign sgDigits sgMarks].
  rewrite formatUint_value by lia.
  change (0 <? 0)%nat with false. change (0 <? 1)%nat with true.
  split.
  - rewrite Z.add_0_l. apply Z.mod_small. exact Hn.
  - unfold HardenedKey, add32, uint32. rewrite Z.add_comm. reflexivity.
Qed.

(** White space: a text that starts with [m] and ends with a digit is
    trimmed to itself. *)
Lemma trailing_digit_kept :
  forall d t fuel, isDigit d = true ->
    trimRightSpaceRev fuel (d :: t) = d :: t.
Proof.
  intros d t fuel Hd. destruct fuel as [| fuel]; [reflexivity |].
  apply digit_cases in Hd. cbn [str list_ascii_of_string In] in Hd.
  cbn [trimRightSpaceRev].
  repeat (destruct Hd as [Hd | Hd]; [subst d; reflexivity |]).
  destruct Hd.
Qed.

Lemma TrimSpace_m_to_digit :
  forall body d, isDigit d = true ->
    TrimSpace ("m"%char :: body ++ [d]) = "m"%char :: body ++ [d].
Proof.
  intros body d Hd. unfold TrimSpace.
  assert (Hl : trimLeftSpace (length ("m"%char :: body ++ [d]))
                 ("m"%char :: body ++ [d])
               = "m"%char :: body ++ [d]) by reflexivity.
  rewrite Hl.
  change ("m"%char :: body ++ [d]) with (("m"%char :: body) ++ [d]).
  rewrite rev_app_distr. cbn [rev app].
  rewrite trailing_digit_kept by exact Hd.
  change (d :: rev body ++ ["m"%char])
    with ([d] ++ (rev body ++ ["m"%char])).
  rewrite rev_app_distr, rev_app_distr, rev_involutive. reflexivity.
Qed.

Lemma formatUint_last_digit :
  forall n, exists front d, formatUint n = front ++ [d] /\ isDigit d = true.
Proof.
  intros n. pose proof (formatUint_not_nil n) as Hne.
  pose proof (formatUint_isDigit n) as Hd.
  destruct (exists_last Hne) as (front & d & Hl).
  exists front, d. split; [exact Hl |].
  rewrite Hl in Hd. rewrite forallb_app in Hd.
  apply andb_prop in Hd. destruct Hd as [_ Hd]. cbn in Hd.
  apply andb_prop in Hd. tauto.
Qed.

Section Path.

Context {ec : Btcec} {hd : Hdkeychain} {bu : Btcutil} {env : SweepEnv}.

(** The path the scan formats is the path
    [m/1017'/coin'/3'/0/index]. *)
Lemma scanPath_parses :
  forall index,
    0 <= index < 2 ^ 32 ->
    0 <= HDCoinType chainParams < 2 ^ 32 ->
    ParsePath (scanPath index)
    = Ok [ HardenedKey 1017; HardenedKey (HDCoinType chainParams);
           HardenedKey KeyFamilyPaymentBase; 0; index ].
Proof.
  intros index Hi Hc. apply ParsePath_Ok_iff.
  destruct (formatUint_last_digit index) as (front & d & Hl & Hd).
  assert (Htrim : TrimSpace (scanPath index) = scanPath index).
  { unfold scanPath. rewrite Hl.
    change (str "m/1017'/") with ("m"%char :: str "/1017'/").
    rewrite !app_assoc. rewrite <- app_comm_cons.
    apply TrimSpace_m_to_digit. exact Hd. }
  rewrite Htrim.
  exists [ decimalSegment 1017 1;
           decimalSegment (HDCoinType chainParams) 1;
           decimalSegment KeyFamilyPaymentBase 1;
           decimalSegment 0 0; decimalSegment index 0 ].
  split; [discriminate |]. split; [| split].
  - repeat constructor; apply decimalSegment_ok;
      unfold KeyFamilyPaymentBase; try lia; try (split; [lia | reflexivity]).
  - unfold scanPath, pathText. cbn [flat_map]. unfold segText, decimalSegment.
    cbn [sgSign sgDigits sgMarks signText repeat app].
    change (formatUint 1017) with (str "1017").
    change (formatUint 0) with (str "0").
    change (str "m/1017'/") with (str "m" ++ slash :: str "1017" ++ [quote; slash]).
    change (str "'/") with [quote; slash].
    change (str "'/0/") with (quote :: slash :: str "0" ++ [slash]).
    rewrite !app_nil_r.
    repeat (rewrite <- ?app_assoc; cbn [app]). reflexivity.
  - cbn [map].
    rewrite (proj2 (decimalSegment_index 1017 ltac:(split; [lia | reflexivity]))).
    rewrite (proj2 (decimalSegment_index _ Hc)).
    rewrite (proj2 (decimalSegment_index KeyFamilyPaymentBase
                      ltac:(split; [unfold KeyFamilyPaymentBase; lia
                                   | reflexivity]))).
    rewrite (proj1 (decimalSegment_index 0 ltac:(split; [lia | reflexivity]))).
    rewrite (proj1 (decimalSegment_index _ Hi)).
    reflexivity.
Qed.

End Path.

End ScanPathFacts.

Import ScanFacts ScanPathFacts.

(** C6: for a window [w] within [uint32], when the key of every index below
    [w] derives, its candidates generate and every lookup answers, the scan
    returns without stopping early: the requests it sent are the lookups of
    the three candidates of index 0, then of index 1, and so on up to
    [w - 1], and its result holds, in that order, one target for each
    candidate with one or more unspent outputs and nothing for a candidate
    with none.  The key of index [i] is derived along [m/1017'/coin'/3'/0/i]. *)
Theorem scan_covers_window_in_order :
  forall {ec : Btcec} {hd : Hdkeychain} {bu : Btcutil} {env : SweepEnv}
         (api : ExplorerAPI) (extendedKey : ExtendedKey) (recoveryWindow : Z)
         (pks : Z -> PublicKey) (cands : Z -> list candidate) (w : World),
    0 <= recoveryWindow < 2 ^ 32 ->
    0 <= HDCoinType chainParams < 2 ^ 32 ->
    (forall i, 0 <= i < recoveryWindow ->
       paymentBaseKey extendedKey i = Ok (pks i)
       /\ targetsFor (pks i) = Ok (cands i)
       /\ Forall (lookupSucceeds api) (cands i)) ->
    scan api extendedKey recoveryWindow w
    = (Ok (flat_map
             (fun i => flat_map (foundAt api (paymentBaseDesc (pks i) i))
                         (cands i))
             (indices recoveryWindow)),
       withCalls w (flat_map (fun i => map callFor (cands i))
                      (indices recoveryWindow)))
    /\ (forall i, 0 <= i < recoveryWindow ->
          ParsePath (scanPath i)
          = Ok [ HardenedKey 1017; HardenedKey (HDCoinType chainParams);
                 HardenedKey KeyFamilyPaymentBase; 0; i ]
          /\ length (cands i) = 3%nat)
    /\ (forall i c kd, 0 <= i < recoveryWindow -> In c (cands i) ->
          (Unspent api (EncodeAddress (cAddr c)) = Ok [] ->
           foundAt api kd c = [])
          /\ (forall v vs,
                Unspent api (EncodeAddress (cAddr c)) = Ok (v :: vs) ->
                exists us,
                  parseUtxos (v :: vs) = Ok us
                  /\ foundAt api kd c
                     = [ {| addr := cAddr c; keyDesc := kd; tweak := [];
                            utxos := us; script := cScript c;
                            scriptTree := cTree c |} ])).
Proof.
  intros ec hd bu env api extendedKey recoveryWindow pks cands w Hw Hcoin
    Hall.
  split; [| split].
  - unfold scan, indices.
    change 0 with (Z.of_nat 0).
    rewrite (scanLoop_all_indices api extendedKey pks cands).
    + reflexivity.
    + intros i Hi. apply Hall. lia.
  - intros i Hi. split.
    + apply scanPath_parses; [lia | exact Hcoin].
    + destruct (Hall i Hi) as (_ & Ht & _).
      apply targetsFor_Ok_inv in Ht.
      destruct Ht as (a1 & a2 & s2 & a3 & t3 & _ & _ & _ & Hcs).
      rewrite Hcs. reflexivity.
  - intros i c kd Hi Hin. destruct (Hall i Hi) as (_ & _ & Hl).
    rewrite Forall_forall in Hl. destruct (Hl c Hin) as (vouts & us & Hu & Hp).
    split.
    + intros He. unfold foundAt. rewrite He. reflexivity.
    + intros v vs Hv. rewrite Hv in Hu. inversion Hu; subst vouts.
      exists us. split; [exact Hp |]. unfold foundAt. rewrite Hv, Hp.
      reflexivity.
Qed.

(** C10: the candidates of a public key are a function of the key alone.
    Two runs of [queryAddressBalances] on the same key, against any two
    explorers in any two states, ask for the same three addresses, those of
    [targetsFor], and every target either run returns carries an address,
    script and script tree from that list; the list is made of the results
    of [P2WKHAddr], [P2AnchorStaticRemote] and the taproot generator, and
    the key-hash address depends on the key through its compressed
    serialization only.  The explorer's answers decide which candidates are
    returned, never what they are. *)
Theorem target_generation_is_function_of_key :
  forall {ec : Btcec} {hd : Hdkeychain} {bu : Btcutil} {env : SweepEnv}
         (pubKey : PublicKey) (api1 api2 : ExplorerAPI)
         (path1 path2 : gostring) (kd1 kd2 : KeyDescriptor)
         (w1 w2 w1' w2' : World) (ts1 ts2 : list targetAddr),
    queryAddressBalances pubKey path1 kd1 api1 w1 = (Ok ts1, w1') ->
    queryAddressBalances pubKey path2 kd2 api2 w2 = (Ok ts2, w2') ->
    exists a1 a2 s2 a3 t3,
      P2WKHAddr pubKey chainParams = Ok a1
      /\ P2AnchorStaticRemote pubKey chainParams = Ok (a2, s2)
      /\ P2TaprootStaticRemove pubKey chainParams = Ok (a3, t3)
      /\ targetsFor pubKey
         = Ok [ {| cAddr := a1; cScript := []; cTree := None |};
                {| cAddr := a2; cScript := s2; cTree := None |};
                {| cAddr := a3; cScript := []; cTree := Some t3 |} ]
      /\ w1' = withCalls w1 (map CallUnspent (map EncodeAddress [a1; a2; a3]))
      /\ w2' = withCalls w2 (map CallUnspent (map EncodeAddress [a1; a2; a3]))
      /\ (forall t, In t ts1 \/ In t ts2 ->
            In (addr t, script t, scriptTree t)
               [(a1, [], None); (a2, s2, None); (a3, [], Some t3)])
      /\ (forall other,
            SerializeCompressed other = SerializeCompressed pubKey ->
            P2WKHAddr other chainParams = Ok a1).
Proof.
  intros ec hd bu env pubKey api1 api2 path1 path2 kd1 kd2 w1 w2 w1' w2' ts1
    ts2 Hq1 Hq2.
  apply queryAddressBalances_Ok_inv in Hq1.
  destruct Hq1 as (cs & Ht & Hw1 & Hin1).
  apply queryAddressBalances_Ok_inv in Hq2.
  destruct Hq2 as (cs' & Ht' & Hw2 & Hin2).
  rewrite Ht in Ht'. inversion Ht'; subst cs'. clear Ht'.
  pose proof (targetsFor_Ok_inv _ _ Ht)
    as (a1 & a2 & s2 & a3 & t3 & H1 & H2 & H3 & Hcs).
  exists a1, a2, s2, a3, t3.
  split; [exact H1 |]. split; [exact H2 |]. split; [exact H3 |].
  split; [rewrite Ht, Hcs; reflexivity |].
  split; [rewrite Hw1, Hcs; reflexivity |].
  split; [rewrite Hw2, Hcs; reflexivity |].
  split.
  - assert (Hmem : forall t,
              In {| cAddr := addr t; cScript := script t;
                    cTree := scriptTree t |} cs ->
              In (addr t, script t, scriptTree t)
                 [(a1, [], None); (a2, s2, None); (a3, [], Some t3)]).
    { intros t Hc. rewrite Hcs in Hc. cbn [In] in Hc |- *.
      destruct Hc as [Hc | [Hc | [Hc | []]]]; inversion Hc; tauto. }
    intros t [Hin | Hin]; apply Hmem.
    + apply (Hin1 t Hin).
    + apply (Hin2 t Hin).
  - intros other Hser. unfold P2WKHAddr in H1 |- *. rewrite Hser. exact H1.
Qed.

Module ScanExamples.

Import Model.

Lemma every_lookup_answers :
  forall i, 0 <= i < 5 ->
    paymentBaseKey master i = Ok (pkAt i)
    /\ targetsFor (pkAt i) = Ok (candsAt i)
    /\ Forall (lookupSucceeds (explorer fundedAddress 50000)) (candsAt i).
Proof.
  intros i Hi.
  assert (Hc : i = 0 \/ i = 1 \/ i = 2 \/ i = 3 \/ i = 4) by lia.
  destruct Hc as [Hc | [Hc | [Hc | [Hc | Hc]]]]; subst i;
    (split; [reflexivity |]; split; [reflexivity |];
     apply lookupAnswers_sound; vm_compute; reflexivity).
Qed.

Lemma scan_covers_window_in_order_witness :
  0 <= 5 < 2 ^ 32
  /\ 0 <= HDCoinType chainParams < 2 ^ 32
  /\ (forall i, 0 <= i < 5 ->
        paymentBaseKey master i = Ok (pkAt i)
        /\ targetsFor (pkAt i) = Ok (candsAt i)
        /\ Forall (lookupSucceeds (explorer fundedAddress 50000))
             (candsAt i))
  /\ exists ts w',
       scan (explorer fundedAddress 50000) master 5 emptyWorld = (Ok ts, w')
       /\ apiLog w'
          = flat_map (fun i => map callFor (candsAt i)) [0; 1; 2; 3; 4]
       /\ map (fun t => Index (keyLocator (keyDesc t))) ts = [3]
       /\ map (fun t => map (fun u => Value (utxoTxOut u)) (utxos t)) ts
          = [[50000]].
Proof.
  assert (Hw : 0 <= 5 < 2 ^ 32) by (split; [lia | reflexivity]).
  assert (Hc : 0 <= HDCoinType chainParams < 2 ^ 32)
    by (split; [discriminate | reflexivity]).
  split; [exact Hw |]. split; [exact Hc |].
  split; [exact every_lookup_answers |].
  eexists. eexists. split.
  - exact (proj1 (scan_covers_window_in_order (explorer fundedAddress 50000)
                    master 5 pkAt candsAt emptyWorld Hw Hc
                    every_lookup_answers)).
  - split; [reflexivity |]. split; reflexivity.
Defined.

Lemma target_generation_is_function_of_key_witness :
  exists ts1 w1 ts2 w2,
    queryAddressBalances (pkAt 3) (scanPath 3) (paymentBaseDesc (pkAt 3) 3)
      (explorer fundedAddress 50000) emptyWorld = (Ok ts1, w1)
    /\ queryAddressBalances (pkAt 3) (scanPath 3)
         (paymentBaseDesc (pkAt 3) 3) (explorer [] 0) emptyWorld
       = (Ok ts2, w2)
    /\ exists a1 a2 s2 a3 t3,
         targetsFor (pkAt 3)
         = Ok [ {| cAddr := a1; cScript := []; cTree := None |};
                {| cAddr := a2; cScript := s2; cTree := None |};
                {| cAddr := a3; cScript := []; cTree := Some t3 |} ]
         /\ w1 = withCalls emptyWorld
                   (map CallUnspent (map EncodeAddress [a1; a2; a3]))
         /\ w2 = withCalls emptyWorld
                   (map CallUnspent (map EncodeAddress [a1; a2; a3])).
Proof.
  assert (Hok1 : isOk (fst (queryAddressBalances (pkAt 3) (scanPath 3)
                              (paymentBaseDesc (pkAt 3) 3)
                              (explorer fundedAddress 50000) emptyWorld))
                 = true) by (vm_compute; reflexivity).
  assert (Hok2 : isOk (fst (queryAddressBalances (pkAt 3) (scanPath 3)
                              (paymentBaseDesc (pkAt 3) 3)
                              (explorer [] 0) emptyWorld))
                 = true) by (vm_compute; reflexivity).
  destruct (queryAddressBalances (pkAt 3) (scanPath 3)
              (paymentBaseDesc (pkAt 3) 3)
              (explorer fundedAddress 50000) emptyWorld)
    as [[ts1 | e | ] w1] eqn:H1; try discriminate Hok1.
  destruct (queryAddressBalances (pkAt 3) (scanPath 3)
              (paymentBaseDesc (pkAt 3) 3) (explorer [] 0) emptyWorld)
    as [[ts2 | e | ] w2] eqn:H2; try discriminate Hok2.
  exists ts1, w1, ts2, w2.
  split; [reflexivity |]. split; [reflexivity |].
  refine (match target_generation_is_function_of_key (pkAt 3)
                  (explorer fundedAddress 50000) (explorer [] 0)
                  (scanPath 3) (scanPath 3)
                  (paymentBaseDesc (pkAt 3) 3) (paymentBaseDesc (pkAt 3) 3)
                  emptyWorld emptyWorld w1 w2 ts1 ts2 H1 H2
          with
          | ex_intro _ a1 (ex_intro _ a2 (ex_intro _ s2 (ex_intro _ a3
              (ex_intro _ t3 (conj _ (conj _ (conj _ (conj Ht (conj E1
                 (conj E2 _)))))))))) =>
              ex_intro _ a1 (ex_intro _ a2 (ex_intro _ s2 (ex_intro _ a3
                (ex_intro _ t3 (conj Ht (conj E1 E2))))))
          end).
Defined.

End ScanExamples.

(** ** Errors of a sweep session *)

Module SessionFacts.

Import Sweep BuildFacts.

Section Session.

Context {ec : Btcec} {hd : Hdkeychain} {bu : Btcutil} {env : SweepEnv}.
Context {signing : Signing}.

Lemma worldBlind_lift : forall (A : Type) (r : result A), worldBlind (lift r).
Proof. intros A r w w0. reflexivity. Qed.

Lemma worldBlind_ret : forall (A : Type) (a : A), worldBlind (ret a).
Proof. intros A a w w0. reflexivity. Qed.

Lemma worldBlind_callUnspent :
  forall api a, worldBlind (callUnspent api a).
Proof. intros api a w w0. reflexivity. Qed.

Lemma worldBlind_wrapM :
  forall (A : Type) msg (m : M A), worldBlind m -> worldBlind (wrapM msg m).
Proof.
  intros A msg m Hm w w0. unfold wrapM. specialize (Hm w w0).
  destruct (m w) as [r w1]. destruct (m w0) as [r0 w2]. cbn in Hm |- *.
  rewrite Hm. reflexivity.
Qed.

Lemma worldBlind_mbind :
  forall (A B : Type) (m : M A) (k : A -> M B),
    worldBlind m -> (forall a, worldBlind (k a)) -> worldBlind (mbind m k).
Proof.
  intros A B m k Hm Hk w w0. unfold mbind. specialize (Hm w w0).
  destruct (m w) as [r w1]. destruct (m w0) as [r0 w2]. cbn in Hm. subst r0.
  destruct r as [a | e | ]; try reflexivity. apply Hk.
Qed.

Lemma worldBlind_queryAddr :
  forall api kd targets a s t, worldBlind (queryAddr api kd targets a s t).
Proof.
  intros api kd targets a s t. unfold queryAddr.
  apply worldBlind_mbind.
  - apply worldBlind_wrapM, worldBlind_callUnspent.
  - intros unspent. destruct (0 <? length unspent)%nat.
    + apply worldBlind_mbind; [apply worldBlind_lift |].
      intros us. apply worldBlind_ret.
    + apply worldBlind_ret.
Qed.

Lemma worldBlind_queryAddressBalances :
  forall pk path kd api, worldBlind (queryAddressBalances pk path kd api).
Proof.
  intros pk path kd api. unfold queryAddressBalances. cbv zeta.
  repeat first
    [ apply worldBlind_queryAddr
    | apply worldBlind_lift
    | apply worldBlind_ret
    | apply worldBlind_mbind; [| intros ?] ].
Qed.

Lemma worldBlind_scanIndex :
  forall api key index, worldBlind (scanIndex api key index).
Proof.
  intros api key index. unfold scanIndex. cbv zeta.
  repeat first
    [ apply worldBlind_queryAddressBalances
    | apply worldBlind_lift
    | apply worldBlind_wrapM
    | apply worldBlind_mbind; [| intros ?] ].
Qed.

(** The scan stops at the first index that ends in an error, with that
    error. *)
Lemma scanLoop_first_error :
  forall api key w0 e (j : nat) n s targets w,
    (j < n)%nat ->
    (forall i, (i < j)%nat ->
       isOk (fst (scanIndex api key (Z.of_nat (s + i)) w0)) = true) ->
    fst (scanIndex api key (Z.of_nat (s + j)) w0) = Err e ->
    fst (scanLoop api key n (Z.of_nat s) targets w) = Err e.
Proof.
  intros api key w0 e. induction j as [| j IH]; intros n s targets w Hj Hok He.
  - destruct n as [| n]; [lia |]. cbn [scanLoop]. unfold mbind.
    rewrite Nat.add_0_r in He.
    rewrite (worldBlind_scanIndex api key (Z.of_nat s) w0 w) in He.
    destruct (scanIndex api key (Z.of_nat s) w) as [r w1]. cbn in He.
    subst r. reflexivity.
  - destruct n as [| n]; [lia |]. cbn [scanLoop]. unfold mbind.
    pose proof (Hok 0%nat ltac:(lia)) as H0. rewrite Nat.add_0_r in H0.
    rewrite (worldBlind_scanIndex api key (Z.of_nat s) w0 w) in H0.
    destruct (scanIndex api key (Z.of_nat s) w) as [r w1]. cbn in H0.
    destruct r as [found | e' | ]; try discriminate.
    replace (Z.of_nat s + 1) with (Z.of_nat (S s)) by lia.
    apply IH.
    + lia.
    + intros i Hi. replace (S s + i)%nat with (s + S i)%nat by lia.
      apply Hok. lia.
    + replace (S s + j)%nat with (s + S j)%nat by lia. exact He.
Qed.

Lemma scan_first_error :
  forall api key w0 w window j e,
    0 <= j < window ->
    (forall i, 0 <= i < j -> isOk (fst (scanIndex api key i w0)) = true) ->
    fst (scanIndex api key j w0) = Err e ->
    fst (scan api key window w) = Err e.
Proof.
  intros api key w0 w window j e Hj Hok He. unfold scan.
  change 0 with (Z.of_nat 0).
  apply (scanLoop_first_error api key w0 e (Z.to_nat j)).
  - lia.
  - intros i Hi. cbn [Nat.add]. apply Hok. lia.
  - cbn [Nat.add]. rewrite Z2Nat.id by lia. exact He.
Qed.

(** *** Ancient channels *)

Lemma findAncientChannels_loop_step :
  forall channel rest numKeys foundChannels w,
    findAncientChannels_loop (channel :: rest) numKeys foundChannels w
    = match recordOutcome (cache w) numKeys channel with
      | Ok true =>
          findAncientChannels_loop rest numKeys (foundChannels ++ [channel]) w
      | Ok false => findAncientChannels_loop rest numKeys foundChannels w
      | Err e => (Err e, w)
      | Panic => (Panic, w)
      end.
Proof.
  intros channel rest numKeys foundChannels w.
  cbn [findAncientChannels_loop]. unfold recordOutcome, mbind, lift.
  destruct (wrapErr "unable to decode commit point"
              (hexDecodeString (CP channel))) as [b | e | ];
    cbn [bind]; try reflexivity.
  destruct (wrapErr "unable to parse commit point" (ParsePubKey b))
    as [cp | e | ]; cbn [bind]; try reflexivity.
  destruct (ParseAddress (Addr channel) chainParams) as [a | e | ];
    cbn [bind]; try reflexivity.
  unfold lookupInCache.
  destruct (keyInCache (cache w) numKeys (EncodeAddress a) cp)
    as [k | e | ]; try reflexivity.
  destruct (isAddrNotFound e); reflexivity.
Qed.

(** Records that are found or not found: the loop keeps the found ones, in
    order, and goes through the whole list. *)
Lemma findAncientChannels_loop_classified :
  forall channels numKeys foundChannels w,
    Forall (classified (cache w) numKeys) channels ->
    findAncientChannels_loop channels numKeys foundChannels w
    = (Ok (foundChannels ++ filter (isFound (cache w) numKeys) channels), w).
Proof.
  induction channels as [| ch channels IH]; intros numKeys foundChannels w Hc.
  - cbn. unfold ret. rewrite app_nil_r. reflexivity.
  - apply Forall_cons_iff in Hc. destruct Hc as [[b Hb] Hc].
    rewrite findAncientChannels_loop_step. cbn [filter]. unfold isFound at 1.
    rewrite Hb. destruct b.
    + rewrite IH by exact Hc. rewrite <- app_assoc. reflexivity.
    + apply IH. exact Hc.
Qed.

(** A record that ends in an error of another kind ends the loop with that
    error. *)
Lemma findAncientChannels_loop_abort :
  forall before channel after numKeys foundChannels w e,
    Forall (classified (cache w) numKeys) before ->
    recordOutcome (cache w) numKeys channel = Err e ->
    findAncientChannels_loop (before ++ channel :: after) numKeys
      foundChannels w
    = (Err e, w).
Proof.
  induction before as [| ch before IH];
    intros channel after numKeys foundChannels w e Hc He.
  - cbn [app]. rewrite findAncientChannels_loop_step, He. reflexivity.
  - apply Forall_cons_iff in Hc. destruct Hc as [[b Hb] Hc].
    cbn [app]. rewrite findAncientChannels_loop_step, Hb.
    destruct b; apply IH; assumption.
Qed.

Lemma findAncientChannels_filled :
  forall channels numKeys key w c,
    fillCache numKeys key (cache w) = Ok c ->
    findAncientChannels channels numKeys key w
    = findAncientChannels_loop channels numKeys []
        {| apiLog := apiLog w; cache := c |}.
Proof.
  intros channels numKeys key w c Hf.
  unfold findAncientChannels, mbind, doFillCache. rewrite Hf. reflexivity.
Qed.

(** *** Signing *)

Lemma signLoop_app :
  forall key h fetcher d1 d2 idx tx,
    signLoop key h fetcher idx (d1 ++ d2) tx
    = bind (signLoop key h fetcher idx d1 tx)
        (signLoop key h fetcher (idx + length d1) d2).
Proof.
  intros key h fetcher. induction d1 as [| d d1 IH]; intros d2 idx tx.
  - cbn. rewrite Nat.add_0_r. reflexivity.
  - cbn [app signLoop length]. destruct d as [desc |]; [| reflexivity].
    destruct (signInput key fetcher (withSigning desc h idx) tx)
      as [witness | e | ]; cbn [bind]; try reflexivity.
    destruct (updateInput (txIn tx) idx (setWitness witness)) as [ins |];
      [| reflexivity].
    rewrite IH. replace (S idx + length d1)%nat
      with (idx + S (length d1))%nat by lia.
    reflexivity.
Qed.

(** An input that cannot be signed ends the signing with its error. *)
Lemma signLoop_error :
  forall key h fetcher d1 desc d2 tx tx1 e,
    signLoop key h fetcher 0 d1 tx = Ok tx1 ->
    signInput key fetcher (withSigning desc h (length d1)) tx1 = Err e ->
    signLoop key h fetcher 0 (d1 ++ Some desc :: d2) tx = Err e.
Proof.
  intros key h fetcher d1 desc d2 tx tx1 e H1 He.
  rewrite signLoop_app, H1. cbn [bind Nat.add signLoop]. rewrite He.
  reflexivity.
Qed.

(** *** The session *)

Lemma sweepRemoteClosed_stages :
  forall key api sweepAddr window feeRate publish w0 sweepScript est,
    PrepareWalletAddress sweepAddr chainParams newEstimator key
    = Ok (sweepScript, est) ->
    sweepRemoteClosed key api sweepAddr window feeRate publish w0
    = match scan api key window w0 with
      | (Ok targets, w1) =>
          match ancientTargets api window key w1 with
          | (Ok ancient, w2) =>
              finishSweep key api (targets ++ ancient) est sweepScript
                feeRate publish w2
          | (Err e, w2) => (Err e, w2)
          | (Panic, w2) => (Panic, w2)
          end
      | (Err e, w1) => (Err e, w1)
      | (Panic, w1) => (Panic, w1)
      end.
Proof.
  intros key api sweepAddr window feeRate publish w0 sweepScript est Hp.
  unfold sweepRemoteClosed. unfold mbind at 1. unfold lift at 1.
  rewrite Hp. cbn [fst snd]. unfold mbind at 1.
  destruct (scan api key window w0) as [[targets | e | ] w1]; reflexivity.
Qed.

End Session.

End SessionFacts.

Import SessionFacts.

(** C5: in a sweep session whose sweep address was prepared,
    - a record of an ancient channel whose address the cache does not hold
      ([keyInCache] returns an error that is [errAddrNotFound]) counts as
      not found, and [findAncientChannels] over records that are found or
      not found goes through all of them and returns the found ones;
    - a record that ends in any other error ends [findAncientChannels] with
      that error;
    - after the scan, an [errAddrNotFound] from the ancient channel check
      is taken for no ancient targets and the sweep goes on with the
      scanner's targets, any other error of the check ends the sweep with
      that error wrapped;
    - an error of the scan at any index (path parsing, derivation, lookup)
      ends the sweep with that error, and so does an error of building or
      signing. *)
Theorem only_address_not_found_is_absorbed :
  forall {ec : Btcec} {hd : Hdkeychain} {bu : Btcutil} {env : SweepEnv}
         {signing : Signing} (extendedKey : ExtendedKey) (api : ExplorerAPI)
         (sweepAddr : gostring) (recoveryWindow feeRate : Z) (publish : bool)
         (w0 : World) (sweepScript : bytes) (est : TxWeightEstimator),
    PrepareWalletAddress sweepAddr chainParams newEstimator extendedKey
    = Ok (sweepScript, est) ->
    (forall c channel b cp a e,
        hexDecodeString (CP channel) = Ok b ->
        ParsePubKey b = Ok cp ->
        ParseAddress (Addr channel) chainParams = Ok a ->
        keyInCache c recoveryWindow (EncodeAddress a) cp = Err e ->
        isAddrNotFound e = true ->
        recordOutcome c recoveryWindow channel = Ok false)
    /\ (forall channels w c,
          fillCache recoveryWindow extendedKey (cache w) = Ok c ->
          Forall (classified c recoveryWindow) channels ->
          findAncientChannels channels recoveryWindow extendedKey w
          = (Ok (filter (isFound c recoveryWindow) channels),
             {| apiLog := apiLog w; cache := c |}))
    /\ (forall before channel after w c e,
          fillCache recoveryWindow extendedKey (cache w) = Ok c ->
          Forall (classified c recoveryWindow) before ->
          recordOutcome c recoveryWindow channel = Err e ->
          findAncientChannels (before ++ channel :: after) recoveryWindow
            extendedKey w
          = (Err e, {| apiLog := apiLog w; cache := c |}))
    /\ (forall targets w1,
          scan api extendedKey recoveryWindow w0 = (Ok targets, w1) ->
          (forall ancient w2,
              checkAncientChannelPoints api recoveryWindow extendedKey w1
              = (Ok ancient, w2) ->
              sweepRemoteClosed extendedKey api sweepAddr recoveryWindow
                feeRate publish w0
              = finishSweep extendedKey api (targets ++ ancient) est
                  sweepScript feeRate publish w2)
          /\ (forall e w2,
                checkAncientChannelPoints api recoveryWindow extendedKey w1
                = (Err e, w2) ->
                isAddrNotFound e = true ->
                sweepRemoteClosed extendedKey api sweepAddr recoveryWindow
                  feeRate publish w0
                = finishSweep extendedKey api (targets ++ []) est
                    sweepScript feeRate publish w2)
          /\ (forall e w2,
                checkAncientChannelPoints api recoveryWindow extendedKey w1
                = (Err e, w2) ->
                isAddrNotFound e = false ->
                sweepRemoteClosed extendedKey api sweepAddr recoveryWindow
                  feeRate publish w0
                = (Err (errWrap "could not check ancient channel points" e),
                   w2)))
    /\ (forall j e,
          0 <= j < recoveryWindow ->
          (forall i, 0 <= i < j ->
             isOk (fst (scanIndex api extendedKey i w0)) = true) ->
          fst (scanIndex api extendedKey j w0) = Err e ->
          fst (sweepRemoteClosed extendedKey api sweepAddr recoveryWindow
                 feeRate publish w0)
          = Err e)
    /\ (forall i e w,
          ParsePath (scanPath i) = Err e ->
          fst (scanIndex api extendedKey i w)
          = Err (errWrap "error parsing path" e))
    /\ (forall i parsedPath e w,
          ParsePath (scanPath i) = Ok parsedPath ->
          DeriveChildren extendedKey parsedPath = Err e ->
          fst (scanIndex api extendedKey i w)
          = Err (errWrap "eror deriving children" e))
    /\ (forall i pk a e w,
          paymentBaseKey extendedKey i = Ok pk ->
          P2WKHAddr pk chainParams = Ok a ->
          Unspent api (EncodeAddress a) = Err e ->
          fst (scanIndex api extendedKey i w)
          = Err (errWrap "could not query API for addresses with funds"
                   (errWrap "could not query unspent" e)))
    /\ (forall targets e w,
          buildAndSign extendedKey targets est sweepScript feeRate = Err e ->
          finishSweep extendedKey api targets est sweepScript feeRate publish
            w
          = (Err e, w))
    /\ (forall targets st d1 desc d2 tx1 e,
          addTargets targets (initialState est) = Ok st ->
          sweepDustLimit <= totalOutputValue st ->
          signDescs st = d1 ++ Some desc :: d2 ->
          signLoop extendedKey
            (NewTxSigHashes (withSweepOutput st sweepScript feeRate)
               (prevOutFetcher st))
            (prevOutFetcher st) 0 d1
            (withSweepOutput st sweepScript feeRate)
          = Ok tx1 ->
          signInput extendedKey (prevOutFetcher st)
            (withSigning desc
               (NewTxSigHashes (withSweepOutput st sweepScript feeRate)
                  (prevOutFetcher st))
               (length d1))
            tx1
          = Err e ->
          buildAndSign extendedKey targets est sweepScript feeRate = Err e).
Proof.
  intros ec hd bu env signing extendedKey api sweepAddr recoveryWindow
    feeRate publish w0 sweepScript est Hprep.
  pose proof (sweepRemoteClosed_stages extendedKey api sweepAddr
                recoveryWindow feeRate publish w0 sweepScript est Hprep)
    as Hstages.
  repeat match goal with |- _ /\ _ => split end.
  - intros c channel b cp a e Hb Hcp Ha Hk He.
    unfold recordOutcome. rewrite Hb. cbn [wrapErr bind].
    rewrite Hcp. cbn [wrapErr bind]. rewrite Ha. cbn [bind].
    rewrite Hk, He. reflexivity.
  - intros channels w c Hf Hc.
    rewrite (findAncientChannels_filled channels _ _ w c Hf).
    rewrite findAncientChannels_loop_classified by exact Hc. reflexivity.
  - intros before channel after w c e Hf Hc He.
    rewrite (findAncientChannels_filled _ _ _ w c Hf).
    apply findAncientChannels_loop_abort; assumption.
  - intros targets w1 Hscan. rewrite Hstages, Hscan.
    split; [| split].
    + intros ancient w2 Hc. unfold ancientTargets. rewrite Hc. reflexivity.
    + intros e w2 Hc He. unfold ancientTargets. rewrite Hc, He. reflexivity.
    + intros e w2 Hc He. unfold ancientTargets. rewrite Hc, He. reflexivity.
  - intros j e Hj Hok He. rewrite Hstages.
    pose proof (scan_first_error api extendedKey w0 w0 recoveryWindow j e Hj
                  Hok He) as Hs.
    destruct (scan api extendedKey recoveryWindow w0) as [r w1].
    cbn in Hs. subst r. reflexivity.
  - intros i e w Hp. unfold scanIndex. cbv zeta. unfold mbind at 1.
    unfold lift at 1. rewrite Hp. reflexivity.
  - intros i parsedPath e w Hp Hd. unfold scanIndex. cbv zeta.
    unfold mbind at 1. unfold lift at 1. rewrite Hp. cbn [wrapErr].
    unfold mbind at 1. unfold lift at 1. rewrite Hd. reflexivity.
  - intros i pk a e w Hk Ha Hu. unfold paymentBaseKey in Hk.
    apply bind_Ok_inv in Hk. destruct Hk as (parsedPath & Hp & Hk).
    apply bind_Ok_inv in Hk. destruct Hk as (hdKey & Hd & Hk).
    apply bind_Ok_inv in Hk. destruct Hk as (privKey & Hpriv & Hk).
    inversion Hk; subst pk. clear Hk.
    unfold scanIndex. cbv zeta.
    unfold mbind at 1. unfold lift at 1. rewrite Hp.
    unfold mbind at 1. unfold lift at 1. rewrite Hd.
    unfold mbind at 1. unfold lift at 1. rewrite Hpriv.
    unfold wrapM at 1. unfold queryAddressBalances. cbv zeta.
    unfold mbind at 1. unfold lift at 1. rewrite Ha.
    unfold mbind at 1. unfold queryAddr. unfold mbind at 1.
    unfold wrapM, callUnspent. rewrite Hu. reflexivity.
  - intros targets e w Hb. unfold finishSweep, mbind, lift. rewrite Hb.
    reflexivity.
  - intros targets st d1 desc d2 tx1 e Hadd Hdust Hdescs Hsigned Hfail.
    rewrite (buildAndSign_after_inputs extendedKey targets est sweepScript
               feeRate st Hadd).
    rewrite (dust_check_passes targets est st Hadd Hdust).
    unfold signSweep. rewrite Hdescs.
    apply (signLoop_error _ _ _ _ _ _ _ tx1); assumption.
Qed.

Module SessionExamples.

Import Model.

Lemma only_address_not_found_is_absorbed_witness :
  PrepareWalletAddress (str "qdest") chainParams newEstimator master
  = Ok (textBytes (str "qdest"), preparedEstimator)
  /\ fillCache 5 master (cache emptyWorld) = Ok 5
  /\ Forall (classified 5 5) [lostRecord; foundRecord; lostRecord]
  /\ findAncientChannels [lostRecord; foundRecord; lostRecord] 5 master
       emptyWorld
     = (Ok (filter (isFound 5 5) [lostRecord; foundRecord; lostRecord]),
        {| apiLog := apiLog emptyWorld; cache := 5 |})
  /\ filter (isFound 5 5) [lostRecord; foundRecord; lostRecord]
     = [foundRecord]
  /\ recordOutcome 5 5 lostRecord = Ok false.
Proof.
  assert (Hprep : PrepareWalletAddress (str "qdest") chainParams newEstimator
                    master
                  = Ok (textBytes (str "qdest"), preparedEstimator))
    by reflexivity.
  assert (Hfill : fillCache 5 master (cache emptyWorld) = Ok 5)
    by reflexivity.
  assert (Hcl : Forall (classified 5 5) [lostRecord; foundRecord; lostRecord]).
  { constructor; [exists false; reflexivity |].
    constructor; [exists true; reflexivity |].
    constructor; [exists false; reflexivity | constructor]. }
  split; [exact Hprep |]. split; [exact Hfill |]. split; [exact Hcl |].
  split.
  - exact (proj1 (proj2
      (only_address_not_found_is_absorbed master
         (explorer fundedAddress 50000) (str "qdest") 5 10 false
         emptyWorld (textBytes (str "qdest")) preparedEstimator
         Hprep))
      [lostRecord; foundRecord; lostRecord] emptyWorld 5 Hfill
      Hcl).
  - split; reflexivity.
Defined.

End SessionExamples.

(** ** Path texts, single keys and the key ring *)

Module KeyFacts.

Import GoStrings Lnd Sweep LndKeys PathGrammar ParsePathFacts DeriveFacts.
Import ScanPathFacts.

Section Compose.

Context {ec : Btcec} {hd : Hdkeychain}.

(** In a path of three or more segments the decision at a position does
    not look past the path's first three segments. *)
Lemma needsRoundTrip_prefix :
  forall depth p q idx pathPart,
    (3 <= length p)%nat ->
    (depth = 2 -> (idx <= 1)%nat) ->
    needsRoundTrip depth (p ++ q) idx pathPart
    = needsRoundTrip depth p idx pathPart.
Proof.
  intros depth p q idx pathPart Hp Hd. unfold needsRoundTrip.
  destruct (depth =? 2) eqn:H2; cbn [andb]; [| reflexivity].
  apply Z.eqb_eq in H2. specialize (Hd H2).
  replace (2 <? length (p ++ q))%nat with true
    by (symmetry; apply Nat.ltb_lt; rewrite length_app; lia).
  replace (2 <? length p)%nat with true
    by (symmetry; apply Nat.ltb_lt; lia).
  rewrite nth_error_app1 by lia. reflexivity.
Qed.

Lemma DeriveChildren_loop_split :
  depthLaws ->
  forall p q r1 idx key,
    (3 <= length p)%nat ->
    (idx + length r1 = length p)%nat ->
    Z.of_nat idx <= Depth key ->
    DeriveChildren_loop (p ++ q) idx (r1 ++ q) key
    = bind (DeriveChildren_loop p idx r1 key)
        (fun k => DeriveChildren k q).
Proof.
  intros Hlaws p q. pose proof Hlaws as (Hnonneg & Hchild & Hread).
  induction r1 as [| pathPart r1 IH]; intros idx key Hp Hlen Hd.
  - cbn [app DeriveChildren_loop bind length] in *. unfold DeriveChildren.
    rewrite !DeriveChildren_loop_plain by (try exact Hlaws; right; lia).
    reflexivity.
  - cbn [app DeriveChildren_loop length] in *.
    destruct (DeriveNonStandard key pathPart) as [d | e | ] eqn:Hder;
      cbn [bind]; try reflexivity.
    pose proof (Hchild _ _ _ Hder) as Hdd.
    rewrite needsRoundTrip_prefix by lia.
    destruct (needsRoundTrip (Depth d) p idx pathPart) as [again | e | ];
      cbn [bind]; try reflexivity.
    destruct again.
    + destruct (NewKeyFromString (KeyString d)) as [r | e | ] eqn:Hr;
        cbn [bind]; try reflexivity.
      apply IH; [exact Hp | lia |]. rewrite (Hread _ _ Hr). lia.
    + apply IH; [exact Hp | lia | lia].
Qed.

Lemma DeriveChildren_split :
  depthLaws ->
  forall key p q,
    (3 <= length p)%nat ->
    DeriveChildren key (p ++ q)
    = bind (DeriveChildren key p) (fun k => DeriveChildren k q).
Proof.
  intros Hlaws key p q Hp. unfold DeriveChildren at 1 2.
  apply DeriveChildren_loop_split; [exact Hlaws | exact Hp | reflexivity |].
  destruct Hlaws as (Hnonneg & _ & _). apply Hnonneg.
Qed.

End Compose.

(** *** Texts that parse *)

Lemma trailing_quote_kept :
  forall t fuel, trimRightSpaceRev fuel (quote :: t) = quote :: t.
Proof. intros t fuel. destruct fuel as [| fuel]; reflexivity. Qed.

Lemma TrimSpace_m_to_quote :
  forall body, TrimSpace ("m"%char :: body ++ [quote])
               = "m"%char :: body ++ [quote].
Proof.
  intros body. unfold TrimSpace.
  assert (Hl : trimLeftSpace (length ("m"%char :: body ++ [quote]))
                 ("m"%char :: body ++ [quote])
               = "m"%char :: body ++ [quote]) by reflexivity.
  rewrite Hl.
  change ("m"%char :: body ++ [quote]) with (("m"%char :: body) ++ [quote]).
  rewrite rev_app_distr. cbn [rev app].
  rewrite trailing_quote_kept.
  change (quote :: rev body ++ ["m"%char])
    with ([quote] ++ (rev body ++ ["m"%char])).
  rewrite rev_app_distr, rev_app_distr, rev_involutive. reflexivity.
Qed.

(** The text of an accepted segment ends with a digit or a mark. *)
Lemma segText_last :
  forall s, segOk s ->
    exists front c, segText s = front ++ [c]
                    /\ (isDigit c = true \/ c = quote).
Proof.
  intros s (Hne & Hd & _). unfold segText.
  destruct (sgMarks s) as [| k].
  - destruct (exists_last Hne) as (front & d & Hl).
    exists (signText (sgSign s) ++ front), d. split.
    + rewrite Hl. cbn [repeat]. rewrite app_nil_r, app_assoc. reflexivity.
    + left. rewrite Hl, forallb_app in Hd. apply andb_prop in Hd.
      destruct Hd as [_ Hd]. cbn in Hd. apply andb_prop in Hd. tauto.
  - exists (signText (sgSign s) ++ sgDigits s ++ repeat quote k), quote.
    split; [| right; reflexivity].
    change (S k) with (1 + k)%nat. rewrite Nat.add_comm, repeat_app.
    cbn [repeat]. rewrite <- !app_assoc. reflexivity.
Qed.

Lemma pathText_last :
  forall segs, segs <> [] -> Forall segOk segs ->
    exists body c, pathText segs = "m"%char :: body ++ [c]
                   /\ (isDigit c = true \/ c = quote).
Proof.
  intros segs Hne Hok.
  destruct (exists_last Hne) as (front & s & Hl). subst segs.
  apply Forall_app in Hok. destruct Hok as [_ Hs].
  apply Forall_cons_iff in Hs. destruct Hs as [Hs _].
  destruct (segText_last s Hs) as (f & c & Ht & Hc).
  exists (flat_map (fun s => slash :: segText s) front ++ slash :: f), c.
  split; [| exact Hc].
  unfold pathText. rewrite flat_map_app. cbn [flat_map].
  rewrite Ht, app_nil_r. cbn [str list_ascii_of_string app].
  rewrite <- app_assoc. reflexivity.
Qed.

(** A path written segment by segment is parsed back into the indices of
    its segments. *)
Lemma ParsePath_pathText :
  forall segs, segs <> [] -> Forall segOk segs ->
    ParsePath (pathText segs) = Ok (map segIndex segs).
Proof.
  intros segs Hne Hok. apply ParsePath_Ok_iff.
  destruct (pathText_last segs Hne Hok) as (body & c & Ht & Hc).
  assert (Htrim : TrimSpace (pathText segs) = pathText segs).
  { rewrite Ht. destruct Hc as [Hc | Hc].
    - apply TrimSpace_m_to_digit. exact Hc.
    - subst c. apply TrimSpace_m_to_quote. }
  rewrite Htrim. exists segs. repeat split; assumption.
Qed.

(** A signed decimal segment without marks. *)
Lemma signed_segment_ok :
  forall n, - 2 ^ 63 <= n < 2 ^ 63 ->
    segOk {| sgSign := if n <? 0 then MinusSign else NoSign;
             sgDigits := formatUint (Z.abs n); sgMarks := 0 |}
    /\ segIndex {| sgSign := if n <? 0 then MinusSign else NoSign;
                   sgDigits := formatUint (Z.abs n); sgMarks := 0 |}
       = uint32 n
    /\ segText {| sgSign := if n <? 0 then MinusSign else NoSign;
                  sgDigits := formatUint (Z.abs n); sgMarks := 0 |}
       = formatInt n.
Proof.
  intros n Hn.
  assert (Habs : 0 <= Z.abs n < 2 ^ 64) by lia.
  unfold segOk, segIndex, segText, segValue, signedValue, formatInt.
  cbn [sgSign sgDigits sgMarks repeat]. change (0 <? 0)%nat with false.
  split; [| split].
  - split; [apply formatUint_not_nil |].
    split; [apply formatUint_isDigit |].
    rewrite formatUint_value by exact Habs.
    destruct (n <? 0) eqn:Hs; [apply Z.ltb_lt in Hs | apply Z.ltb_ge in Hs];
      lia.
  - rewrite formatUint_value by exact Habs. unfold uint32.
    destruct (n <? 0) eqn:Hs; [apply Z.ltb_lt in Hs | apply Z.ltb_ge in Hs];
      f_equal; lia.
  - rewrite app_nil_r.
    destruct (n <? 0) eqn:Hs; [apply Z.ltb_lt in Hs | apply Z.ltb_ge in Hs];
      cbn [signText app].
    + rewrite Z.abs_neq by lia. reflexivity.
    + rewrite Z.abs_eq by lia. reflexivity.
Qed.

Lemma HardenedKey_add32 :
  forall n, add32 HardenedKeyStart n = HardenedKey n.
Proof. intros n. unfold HardenedKey, add32. rewrite Z.add_comm. reflexivity. Qed.

(** The text [m/1017'/coin'/family'] and what follows it, as segments. *)
Lemma LndDerivationPath_segments :
  forall coin family rest,
    LndDerivationPath coin family
    ++ flat_map (fun s => slash :: segText s) rest
    = pathText (decimalSegment 1017 1 :: decimalSegment coin 1
                :: decimalSegment family 1 :: rest).
Proof.
  intros coin family rest. unfold LndDerivationPath, pathText.
  cbn [flat_map].
  change (segText (decimalSegment 1017 1)) with (str "1017" ++ [quote]).
  change (segText (decimalSegment coin 1)) with (formatUint coin ++ [quote]).
  change (segText (decimalSegment family 1))
    with (formatUint family ++ [quote]).
  change (str "m/1017'/") with (str "m" ++ slash :: str "1017" ++ [quote; slash]).
  change (str "'/") with [quote; slash].
  change (str "'") with [quote].
  repeat (rewrite <- ?app_assoc; cbn [app]). reflexivity.
Qed.

End KeyFacts.

Import KeyFacts LndKeys.

(** A path of three or more segments can be derived in two goes: given the
    depth laws of [hdkeychain], [DeriveChildren] along [p ++ q] is
    [DeriveChildren] along [p] followed by [DeriveChildren] along [q] from
    the key reached, errors included. *)
Theorem DeriveChildren_composes_after_three_segments :
  forall {ec : Btcec} {hd : Hdkeychain} (key : ExtendedKey) (p q : list Z),
    depthLaws ->
    (3 <= length p)%nat ->
    DeriveChildren key (p ++ q)
    = bind (DeriveChildren key p) (fun k => DeriveChildren k q).
Proof.
  intros ec hd key p q Hlaws Hp. apply DeriveChildren_split; assumption.
Qed.

(** The path texts name the keys of the key ring: for a coin type within
    [uint32], [IdentityPath] parses to the indices [HDKeyRing.DeriveKey]
    uses for the node key, [MultisigPath] to those of the multi-sig family
    at the index taken modulo [2^32] (a negative index is printed with its
    sign, parsed and wrapped), and the path the sweep scans at an index to
    those of the payment base family at that index. *)
Theorem path_texts_parse_to_key_ring_paths :
  forall {ec : Btcec} {hd : Hdkeychain} {bu : Btcutil} {env : SweepEnv}
         (r : HDKeyRing),
    0 <= HDCoinType (ringChainParams r) < 2 ^ 32 ->
    ParsePath (IdentityPath (ringChainParams r))
    = Ok (keyPath r {| Family := KeyFamilyNodeKey; Index := 0 |})
    /\ (forall index,
          - 2 ^ 63 <= index < 2 ^ 63 ->
          ParsePath (MultisigPath (ringChainParams r) index)
          = Ok (keyPath r {| Family := KeyFamilyMultiSig;
                             Index := uint32 index |}))
    /\ (ringChainParams r = chainParams ->
        forall index,
          0 <= index < 2 ^ 32 ->
          ParsePath (scanPath index)
          = Ok (keyPath r {| Family := KeyFamilyPaymentBase;
                             Index := index |})).
Proof.
  intros ec hd bu env r Hc.
  assert (H1017 : 0 <= 1017 < 2 ^ 32) by (split; [lia | reflexivity]).
  assert (H0 : 0 <= 0 < 2 ^ 32) by (split; [lia | reflexivity]).
  split; [| split].
  - unfold IdentityPath.
    change (str "/0/0")
      with (flat_map (fun s => slash :: segText s)
              [decimalSegment 0 0; decimalSegment 0 0]).
    rewrite LndDerivationPath_segments, ParsePath_pathText.
    + cbn [map]. unfold keyPath. cbn [Family Index].
      rewrite !HardenedKey_add32.
      rewrite (proj2 (decimalSegment_index 1017 H1017)).
      rewrite (proj2 (decimalSegment_index _ Hc)).
      rewrite (proj2 (decimalSegment_index KeyFamilyNodeKey
                        ltac:(split; [unfold KeyFamilyNodeKey; lia
                                     | reflexivity]))).
      rewrite (proj1 (decimalSegment_index 0 H0)). reflexivity.
    + discriminate.
    + repeat constructor; apply decimalSegment_ok;
        unfold KeyFamilyNodeKey; try lia; try (split; [lia | reflexivity]).
  - intros index Hi. unfold MultisigPath.
    destruct (signed_segment_ok index Hi) as (Hok & Hidx & Htext).
    rewrite <- Htext.
    match goal with
    | |- context [segText ?sg] =>
        assert (Hshape : str "/0/" ++ segText sg
                         = flat_map (fun x => slash :: segText x)
                             [decimalSegment 0 0; sg])
          by (cbn [flat_map]; rewrite app_nil_r; reflexivity)
    end.
    rewrite Hshape, LndDerivationPath_segments, ParsePath_pathText.
    + cbn [map]. rewrite Hidx. unfold keyPath. cbn [Family Index].
      rewrite !HardenedKey_add32.
      rewrite (proj2 (decimalSegment_index 1017 H1017)).
      rewrite (proj2 (decimalSegment_index _ Hc)).
      rewrite (proj2 (decimalSegment_index KeyFamilyMultiSig
                        ltac:(split; [unfold KeyFamilyMultiSig; lia
                                     | reflexivity]))).
      rewrite (proj1 (decimalSegment_index 0 H0)). reflexivity.
    + discriminate.
    + repeat (apply Forall_cons;
              [first [ exact Hok
                     | apply decimalSegment_ok; unfold KeyFamilyMultiSig;
                       first [lia | split; [lia | reflexivity]] ] |]).
      apply Forall_nil.
  - intros Hp index Hi. rewrite scanPath_parses; [| exact Hi |].
    + unfold keyPath. cbn [Family Index]. rewrite !HardenedKey_add32, Hp.
      reflexivity.
    + rewrite <- Hp. exact Hc.
Qed.

(** [AllDerivationPaths] does not fail: for a coin type within [uint32] it
    returns the three wallet paths and the payment base path of [lnd], each
    with the hardened indices its text names. *)
Theorem AllDerivationPaths_always_succeeds :
  forall {ec : Btcec} {hd : Hdkeychain} {bu : Btcutil} (params : Params),
    0 <= HDCoinType params < 2 ^ 32 ->
    AllDerivationPaths params
    = Ok ([ WalletBIP49DerivationPath; WalletDefaultDerivationPath;
            WalletBIP86DerivationPath;
            LndDerivationPath (HDCoinType params) KeyFamilyPaymentBase ],
          [ [HardenedKey 49; HardenedKey 0; HardenedKey 0];
            [HardenedKey 84; HardenedKey 0; HardenedKey 0];
            [HardenedKey 86; HardenedKey 0; HardenedKey 0];
            [HardenedKey 1017; HardenedKey (HDCoinType params);
             HardenedKey KeyFamilyPaymentBase] ]).
Proof.
  intros ec hd bu params Hc.
  assert (P49 : ParsePath WalletBIP49DerivationPath
                = Ok [HardenedKey 49; HardenedKey 0; HardenedKey 0])
    by (vm_compute; reflexivity).
  assert (P84 : ParsePath WalletDefaultDerivationPath
                = Ok [HardenedKey 84; HardenedKey 0; HardenedKey 0])
    by (vm_compute; reflexivity).
  assert (P86 : ParsePath WalletBIP86DerivationPath
                = Ok [HardenedKey 86; HardenedKey 0; HardenedKey 0])
    by (vm_compute; reflexivity).
  assert (P1017 : ParsePath (LndDerivationPath (HDCoinType params)
                               KeyFamilyPaymentBase)
                  = Ok [HardenedKey 1017; HardenedKey (HDCoinType params);
                        HardenedKey KeyFamilyPaymentBase]).
  { rewrite <- (app_nil_r (LndDerivationPath _ _)).
    change (@nil ascii) with (flat_map (fun s => slash :: segText s) []).
    rewrite LndDerivationPath_segments, ParsePath_pathText.
    - cbn [map].
      rewrite (proj2 (decimalSegment_index 1017
                        ltac:(split; [lia | reflexivity]))).
      rewrite (proj2 (decimalSegment_index _ Hc)).
      rewrite (proj2 (decimalSegment_index KeyFamilyPaymentBase
                        ltac:(split; [unfold KeyFamilyPaymentBase; lia
                                     | reflexivity]))).
      reflexivity.
    - discriminate.
    - repeat (apply Forall_cons;
              [apply decimalSegment_ok; unfold KeyFamilyPaymentBase;
               first [lia | split; [lia | reflexivity]] |]).
      apply Forall_nil. }
  unfold AllDerivationPaths.
  change (uint32 KeyFamilyPaymentBase) with KeyFamilyPaymentBase.
  cbn [length repeat AllDerivationPaths_loop].
  rewrite P49. cbn [bind storeAt option_map].
  rewrite P84. cbn [bind storeAt option_map].
  rewrite P86. cbn [bind storeAt option_map].
  rewrite P1017. cbn [bind storeAt option_map]. reflexivity.
Qed.

(** The node key of the key ring is the key [DeriveKey] finds at
    [IdentityPath]: whenever [DeriveKey] returns a public key for that path,
    [NodePubKey] returns the same key, and a key [NodePubKey] returns is
    never nil and is the public key of the extended key derived along the
    parsed [IdentityPath]. *)
Theorem NodePubKey_is_key_at_IdentityPath :
  forall {ec : Btcec} {hd : Hdkeychain} {bu : Btcutil} {kt : KeyTools}
         (r : HDKeyRing) (params : Params),
    0 <= HDCoinType (ringChainParams r) < 2 ^ 32 ->
    (forall k pk wif,
        DeriveKey (ringExtendedKey r) (IdentityPath (ringChainParams r))
          params
        = Ok (k, pk, wif) ->
        HDKeyRing_NodePubKey r = Ok (Some pk))
    /\ (forall p,
          HDKeyRing_NodePubKey r = Ok p ->
          exists parsed k pk,
            ParsePath (IdentityPath (ringChainParams r)) = Ok parsed
            /\ DeriveChildren (ringExtendedKey r) parsed = Ok k
            /\ ECPubKey k = Ok pk
            /\ p = Some pk).
Proof.
  intros ec hd bu kt r params Hc.
  assert (Hpath : ParsePath (IdentityPath (ringChainParams r))
                  = Ok (keyPath r {| Family := KeyFamilyNodeKey;
                                     Index := 0 |})).
  { unfold IdentityPath.
    change (str "/0/0")
      with (flat_map (fun s => slash :: segText s)
              [decimalSegment 0 0; decimalSegment 0 0]).
    rewrite LndDerivationPath_segments, ParsePath_pathText.
    - cbn [map]. unfold keyPath. cbn [Family Index].
      rewrite !HardenedKey_add32.
      rewrite (proj2 (decimalSegment_index 1017
                        ltac:(split; [lia | reflexivity]))).
      rewrite (proj2 (decimalSegment_index _ Hc)).
      rewrite (proj2 (decimalSegment_index KeyFamilyNodeKey
                        ltac:(split; [unfold KeyFamilyNodeKey; lia
                                     | reflexivity]))).
      rewrite (proj1 (decimalSegment_index 0
                        ltac:(split; [lia | reflexivity]))).
      reflexivity.
    - discriminate.
    - repeat (apply Forall_cons;
              [apply decimalSegment_ok; unfold KeyFamilyNodeKey;
               first [lia | split; [lia | reflexivity]] |]).
      apply Forall_nil. }
  split.
  - intros k pk wif Hd. unfold DeriveKey in Hd. rewrite Hpath in Hd.
    cbn [wrapErr bind] in Hd.
    unfold HDKeyRing_NodePubKey, HDKeyRing_DeriveKey.
    destruct (DeriveChildren (ringExtendedKey r)
                (keyPath r {| Family := KeyFamilyNodeKey; Index := 0 |}))
      as [dk | e | ]; cbn [wrapErr bind] in Hd |- *; try discriminate.
    destruct (ECPubKey dk) as [pub | e | ]; cbn [wrapErr bind] in Hd |- *;
      try discriminate.
    destruct (ECPrivKey dk) as [priv | e | ]; cbn [wrapErr bind] in Hd;
      try discriminate.
    destruct (NewWIF priv params true) as [w | e | ];
      cbn [wrapErr bind] in Hd; try discriminate.
    inversion Hd; subst. reflexivity.
  - intros p Hn. unfold HDKeyRing_NodePubKey, HDKeyRing_DeriveKey in Hn.
    destruct (DeriveChildren (ringExtendedKey r)
                (keyPath r {| Family := KeyFamilyNodeKey; Index := 0 |}))
      as [dk | e | ] eqn:Hdk; cbn [bind] in Hn; try discriminate.
    destruct (ECPubKey dk) as [pub | e | ] eqn:Hpub; cbn [bind] in Hn;
      try discriminate.
    inversion Hn; subst p. cbn [kdPubKey].
    exists (keyPath r {| Family := KeyFamilyNodeKey; Index := 0 |}), dk, pub.
    repeat split; assumption || reflexivity.
Qed.

Module KeyRingFacts.

Section Ring.

Context {ec : Btcec} {hd : Hdkeychain} {bu : Btcutil} {kt : KeyTools}.

Lemma CheckDescriptor_loop_step :
  forall familyKey pub n i,
    CheckDescriptor_loop familyKey pub (S n) i
    = match keyMatches familyKey pub i with
      | Ok true => Ok tt
      | Ok false => CheckDescriptor_loop familyKey pub n (i + 1)
      | Err e => Err e
      | Panic => Panic
      end.
Proof.
  intros familyKey pub n i. cbn [CheckDescriptor_loop]. unfold keyMatches.
  destruct (DeriveChildren familyKey [uint32 i]) as [c | e | ]; cbn [bind];
    try reflexivity.
  destruct (ECPubKey c) as [p | e | ]; cbn [bind]; try reflexivity.
  destruct (IsEqual p pub); reflexivity.
Qed.

(** The loop succeeds at the first index whose key matches. *)
Lemma CheckDescriptor_loop_found :
  forall familyKey pub n i,
    CheckDescriptor_loop familyKey pub n i = Ok tt ->
    exists k, (k < n)%nat
      /\ keyMatches familyKey pub (i + Z.of_nat k) = Ok true
      /\ forall j, (j < k)%nat ->
           keyMatches familyKey pub (i + Z.of_nat j) = Ok false.
Proof.
  intros familyKey pub. induction n as [| n IH]; intros i Hl.
  - cbn in Hl. discriminate.
  - rewrite CheckDescriptor_loop_step in Hl.
    destruct (keyMatches familyKey pub i) as [[|] | e | ] eqn:Hm;
      try discriminate.
    + exists 0%nat. split; [lia |]. split.
      * rewrite Z.add_0_r. exact Hm.
      * intros j Hj. lia.
    + apply IH in Hl. destruct Hl as (k & Hk & Hat & Hbefore).
      exists (S k). split; [lia |]. split.
      * rewrite Nat2Z.inj_succ. replace (i + Z.succ (Z.of_nat k))
          with (i + 1 + Z.of_nat k) by lia. exact Hat.
      * intros j Hj. destruct j as [| j].
        -- rewrite Z.add_0_r. exact Hm.
        -- rewrite Nat2Z.inj_succ. replace (i + Z.succ (Z.of_nat j))
             with (i + 1 + Z.of_nat j) by lia. apply Hbefore. lia.
Qed.

Lemma CheckDescriptor_loop_none :
  forall familyKey pub n i,
    (forall j, (j < n)%nat ->
       keyMatches familyKey pub (i + Z.of_nat j) = Ok false) ->
    CheckDescriptor_loop familyKey pub n i = Err ErrCannotDerivePrivKey.
Proof.
  intros familyKey pub. induction n as [| n IH]; intros i Hall.
  - reflexivity.
  - rewrite CheckDescriptor_loop_step.
    pose proof (Hall 0%nat ltac:(lia)) as H0. rewrite Z.add_0_r in H0.
    rewrite H0. apply IH. intros j Hj.
    specialize (Hall (S j) ltac:(lia)). rewrite Nat2Z.inj_succ in Hall.
    replace (i + 1 + Z.of_nat j) with (i + Z.succ (Z.of_nat j)) by lia.
    exact Hall.
Qed.

(** It succeeds when a key matches and every key before it could be
    derived. *)
Lemma CheckDescriptor_loop_reaches :
  forall familyKey pub n i k,
    (k < n)%nat ->
    (forall j, (j < k)%nat ->
       exists b, keyMatches familyKey pub (i + Z.of_nat j) = Ok b) ->
    keyMatches familyKey pub (i + Z.of_nat k) = Ok true ->
    CheckDescriptor_loop familyKey pub n i = Ok tt.
Proof.
  intros familyKey pub. induction n as [| n IH]; intros i k Hk Hbefore Hat.
  - lia.
  - rewrite CheckDescriptor_loop_step. destruct k as [| k].
    + rewrite Z.add_0_r in Hat. rewrite Hat. reflexivity.
    + destruct (Hbefore 0%nat ltac:(lia)) as (b & Hb).
      rewrite Z.add_0_r in Hb. rewrite Hb. destruct b; [reflexivity |].
      apply (IH (i + 1) k); [lia | |].
      * intros j Hj. specialize (Hbefore (S j) ltac:(lia)).
        rewrite Nat2Z.inj_succ in Hbefore.
        replace (i + 1 + Z.of_nat j) with (i + Z.succ (Z.of_nat j)) by lia.
        exact Hbefore.
      * rewrite Nat2Z.inj_succ in Hat.
        replace (i + 1 + Z.of_nat k) with (i + Z.succ (Z.of_nat k)) by lia.
        exact Hat.
Qed.

End Ring.

End KeyRingFacts.

Import KeyRingFacts.

(** What [CheckDescriptor] answers: an error at once for a descriptor
    without public key; success only when some index below
    [MaxKeyRangeScan] under the descriptor's family derives a key equal to
    the descriptor's, every lower index having derived a different key;
    and [ErrCannotDerivePrivKey] when every index of the range derives a
    different key. *)
Theorem CheckDescriptor_outcomes :
  forall {ec : Btcec} {hd : Hdkeychain} {bu : Btcutil} {kt : KeyTools}
         (r : HDKeyRing) (keyDesc : keyDescriptor),
    (kdPubKey keyDesc = None ->
     HDKeyRing_CheckDescriptor r keyDesc
     = Err (errNew "no public key provided to check"))
    /\ (HDKeyRing_CheckDescriptor r keyDesc = Ok tt ->
        exists pub familyKey i,
          kdPubKey keyDesc = Some pub
          /\ DeriveChildren (ringExtendedKey r)
               (familyPath r (Family (kdLocator keyDesc)))
             = Ok familyKey
          /\ 0 <= i < MaxKeyRangeScan
          /\ keyMatches familyKey pub i = Ok true
          /\ forall j, 0 <= j < i -> keyMatches familyKey pub j = Ok false)
    /\ (forall pub familyKey,
          kdPubKey keyDesc = Some pub ->
          DeriveChildren (ringExtendedKey r)
            (familyPath r (Family (kdLocator keyDesc)))
          = Ok familyKey ->
          (forall j, 0 <= j < MaxKeyRangeScan ->
             keyMatches familyKey pub j = Ok false) ->
          HDKeyRing_CheckDescriptor r keyDesc = Err ErrCannotDerivePrivKey).
Proof.
  intros ec hd bu kt r keyDesc. unfold HDKeyRing_CheckDescriptor.
  split; [| split].
  - intros Hnil. rewrite Hnil. reflexivity.
  - intros Hok. destruct (kdPubKey keyDesc) as [pub |]; [| discriminate].
    destruct (DeriveChildren (ringExtendedKey r)
                (familyPath r (Family (kdLocator keyDesc))))
      as [familyKey | e | ]; cbn [bind] in Hok; try discriminate.
    apply CheckDescriptor_loop_found in Hok.
    destruct Hok as (k & Hk & Hat & Hbefore).
    exists pub, familyKey, (Z.of_nat k).
    split; [reflexivity |]. split; [reflexivity |].
    split; [lia |]. split; [exact Hat |].
    intros j Hj. specialize (Hbefore (Z.to_nat j) ltac:(lia)).
    rewrite Z2Nat.id in Hbefore by lia. exact Hbefore.
  - intros pub familyKey Hpub Hfam Hall. rewrite Hpub, Hfam. cbn [bind].
    apply CheckDescriptor_loop_none. intros j Hj. apply Hall. lia.
Qed.

(** A descriptor made by [HDKeyRing.DeriveKey] passes [CheckDescriptor]:
    given the depth laws of [hdkeychain] and a key comparison that holds of
    a key and itself, for an index below [MaxKeyRangeScan] (and within
    [uint32]) under whose family every lower index can be derived. *)
Theorem CheckDescriptor_accepts_derived_key :
  forall {ec : Btcec} {hd : Hdkeychain} {bu : Btcutil} {kt : KeyTools}
         (r : HDKeyRing) (keyLoc : KeyLocator) (keyDesc : keyDescriptor),
    depthLaws ->
    (forall pk, IsEqual pk pk = true) ->
    0 <= Index keyLoc < MaxKeyRangeScan ->
    Index keyLoc < 2 ^ 32 ->
    (forall familyKey j,
        DeriveChildren (ringExtendedKey r) (familyPath r (Family keyLoc))
        = Ok familyKey ->
        0 <= j < Index keyLoc ->
        exists child pk,
          DeriveChildren familyKey [uint32 j] = Ok child
          /\ ECPubKey child = Ok pk) ->
    HDKeyRing_DeriveKey r keyLoc = Ok keyDesc ->
    HDKeyRing_CheckDescriptor r keyDesc = Ok tt.
Proof.
  intros ec hd bu kt r keyLoc keyDesc Hlaws Hrefl Hidx H32 Hlower Hd.
  unfold HDKeyRing_DeriveKey in Hd.
  change (keyPath r keyLoc)
    with (familyPath r (Family keyLoc) ++ [Index keyLoc]) in Hd.
  rewrite (DeriveChildren_split Hlaws) in Hd by (cbn; lia).
  apply bind_Ok_inv in Hd. destruct Hd as (dk & Hdk & Hd).
  apply bind_Ok_inv in Hdk. destruct Hdk as (familyKey & Hfam & Hchild).
  apply bind_Ok_inv in Hd. destruct Hd as (pk & Hpk & Hd).
  inversion Hd; subst keyDesc. clear Hd.
  unfold HDKeyRing_CheckDescriptor. cbn [kdPubKey kdLocator Family].
  rewrite Hfam. cbn [bind].
  apply (CheckDescriptor_loop_reaches familyKey pk _ 0
           (Z.to_nat (Index keyLoc))).
  - lia.
  - intros j Hj.
    destruct (Hlower familyKey (Z.of_nat j) Hfam ltac:(lia))
      as (c & p & Hc & Hp).
    exists (IsEqual p pk). unfold keyMatches. cbn [Z.add].
    rewrite Hc. cbn [bind]. rewrite Hp. reflexivity.
  - unfold keyMatches. rewrite Z.add_0_l, Z2Nat.id by lia.
    assert (Hu : uint32 (Index keyLoc) = Index keyLoc).
    { unfold uint32. apply Z.mod_small. lia. }
    rewrite Hu, Hchild. cbn [bind]. rewrite Hpk. cbn [bind].
    rewrite Hrefl. reflexivity.
Qed.

(** The two script getters tell the address types apart: [GetP2WPKHScript]
    returns a script only for a witness key hash address of the network,
    [GetP2WSHScript] only for a witness script hash address, the script
    being [OP_0] and the address's program; no address text gets a script
    from both, every other address type is refused by both, and an address
    [ParseAddress] accepted passes the network check of
    [GetWitnessAddrScript]. *)
Theorem script_getters_tell_address_types_apart :
  forall {ec : Btcec} {bu : Btcutil} {ts : Txscript}
         (addr : gostring) (params : Params),
    (forall s,
        GetP2WPKHScript addr params = Ok s ->
        exists prog net,
          ParseAddress addr params = Ok (AddressWitnessPubKeyHash prog net)
          /\ BuilderScript (AddData (AddOp NewScriptBuilder OP_0) prog)
             = Ok s)
    /\ (forall s,
          GetP2WSHScript addr params = Ok s ->
          exists prog net,
            ParseAddress addr params = Ok (AddressWitnessScriptHash prog net)
            /\ BuilderScript (AddData (AddOp NewScriptBuilder OP_0) prog)
               = Ok s)
    /\ isOk (GetP2WPKHScript addr params)
       && isOk (GetP2WSHScript addr params) = false
    /\ (forall a,
          ParseAddress addr params = Ok a ->
          match a with
          | AddressWitnessPubKeyHash _ _ => True
          | AddressWitnessScriptHash _ _ => True
          | _ =>
              GetP2WPKHScript addr params
              = Err (errNew
                       "address: must be a bech32 P2WPKH or P2WSH address")
              /\ GetP2WSHScript addr params
                 = Err (errNew
                          "address: must be a bech32 P2WPKH or P2WSH address")
          end)
    /\ (forall a,
          ParseAddress addr params = Ok a ->
          GetWitnessAddrScript a params = PayToAddrScript a).
Proof.
  intros ec bu ts addr params.
  unfold GetP2WPKHScript, GetP2WSHScript, DecodeAddressHash.
  destruct (ParseAddress addr params) as [a | e | ] eqn:Hp; cbn [bind isOk].
  - split; [| split; [| split; [| split]]].
    + intros s Hs.
      destruct a as [h n | h n | pr n | pr n | pr n]; cbn in Hs;
        try discriminate.
      exists pr, n. split; [reflexivity | exact Hs].
    + intros s Hs.
      destruct a as [h n | h n | pr n | pr n | pr n]; cbn in Hs;
        try discriminate.
      exists pr, n. split; [reflexivity | exact Hs].
    + destruct a as [h n | h n | pr n | pr n | pr n]; cbn; try reflexivity.
      apply andb_false_r.
    + intros a' Ha. inversion Ha; subst a'.
      destruct a as [h n | h n | pr n | pr n | pr n]; cbn; tauto.
    + intros a' Ha. inversion Ha; subst a'.
      unfold ParseAddress in Hp.
      destruct (DecodeAddress addr params) as [t | e | ];
        cbn [wrapErr bind] in Hp; try discriminate.
      destruct (IsForNet t params) eqn:Hn; cbn [negb] in Hp;
        [| discriminate].
      inversion Hp; subst t. unfold GetWitnessAddrScript. rewrite Hn.
      reflexivity.
  - split; [| split; [| split; [| split]]]; try discriminate; reflexivity.
  - split; [| split; [| split; [| split]]]; try discriminate; reflexivity.
Qed.

(** The scripts of the addresses the generators make: when the text of an
    address decodes back to it for the network, [GetP2WPKHScript] of the
    key hash address of a public key is [OP_0] and the hash of the key's
    compressed serialization, [GetP2WSHScript] of its anchor address is
    [OP_0] and the hash of the script returned with the address, and each
    getter refuses the other's address. *)
Theorem script_getters_of_generated_addresses :
  forall {ec : Btcec} {bu : Btcutil} {ts : Txscript}
         (pubKey : PublicKey) (params : Params)
         (p2wkh p2anchor : Address Params) (commitScript : bytes),
    P2WKHAddr pubKey params = Ok p2wkh ->
    P2AnchorStaticRemote pubKey params = Ok (p2anchor, commitScript) ->
    (forall a, a = p2wkh \/ a = p2anchor ->
       DecodeAddress (EncodeAddress a) params = Ok a
       /\ IsForNet a params = true) ->
    GetP2WPKHScript (EncodeAddress p2wkh) params
    = BuilderScript
        (AddData (AddOp NewScriptBuilder OP_0)
           (Hash160 (SerializeCompressed pubKey)))
    /\ GetP2WSHScript (EncodeAddress p2anchor) params
       = BuilderScript
           (AddData (AddOp NewScriptBuilder OP_0) (Sum256 commitScript))
    /\ GetP2WSHScript (EncodeAddress p2wkh) params
       = Err (errNew "address is not a P2WSH address")
    /\ GetP2WPKHScript (EncodeAddress p2anchor) params
       = Err (errNew "address is not a P2WKH address").
Proof.
  intros ec bu ts pubKey params p2wkh p2anchor commitScript Hk Ha Hround.
  destruct (Hround p2wkh (or_introl eq_refl)) as [Hd1 Hn1].
  destruct (Hround p2anchor (or_intror eq_refl)) as [Hd2 Hn2].
  unfold P2WKHAddr, NewAddressWitnessPubKeyHash in Hk.
  destruct (length (Hash160 (SerializeCompressed pubKey)) =? 20)%nat;
    [| discriminate].
  inversion Hk; subst p2wkh. clear Hk.
  unfold P2AnchorStaticRemote in Ha.
  destruct (CommitScriptToRemoteConfirmed pubKey) as [cs | e | ];
    cbn [wrapErr bind] in Ha; try discriminate.
  unfold NewAddressWitnessScriptHash in Ha.
  destruct (length (Sum256 cs) =? 32)%nat; cbn [bind] in Ha;
    [| discriminate].
  inversion Ha; subst p2anchor commitScript. clear Ha.
  unfold GetP2WPKHScript, GetP2WSHScript, DecodeAddressHash, ParseAddress.
  rewrite Hd1, Hd2. cbn [wrapErr bind]. rewrite Hn1, Hn2.
  cbn [negb bind ScriptAddress]. repeat split; reflexivity.
Qed.

Module KeyExamples.

Import Model ModelKeys.

Lemma bytes_eqb_refl : forall b, bytes_eqb b b = true.
Proof.
  induction b as [| x b IH]; [reflexivity |].
  cbn [bytes_eqb]. rewrite Z.eqb_refl, IH. reflexivity.
Qed.

Lemma DeriveChildren_composes_after_three_segments_witness :
  @depthLaws btcec hdkeychain
  /\ (3 <= length [2147484665%Z; 2147483648%Z; 2147483651%Z])%nat
  /\ DeriveChildren master ([2147484665; 2147483648; 2147483651] ++ [0; 3])
     = bind (DeriveChildren master [2147484665; 2147483648; 2147483651])
         (fun k => DeriveChildren k [0; 3]).
Proof.
  assert (Hl : (3 <= length [2147484665%Z; 2147483648%Z; 2147483651%Z])%nat)
    by (cbn; lia).
  split; [exact model_depthLaws |]. split; [exact Hl |].
  exact (DeriveChildren_composes_after_three_segments master
           [2147484665; 2147483648; 2147483651] [0; 3] model_depthLaws Hl).
Defined.

Lemma path_texts_parse_to_key_ring_paths_witness :
  0 <= HDCoinType (ringChainParams sampleRing) < 2 ^ 32
  /\ - 2 ^ 63 <= -1 < 2 ^ 63
  /\ ringChainParams sampleRing = chainParams
  /\ 0 <= 5 < 2 ^ 32
  /\ ParsePath (IdentityPath (ringChainParams sampleRing))
     = Ok (keyPath sampleRing {| Family := KeyFamilyNodeKey; Index := 0 |})
  /\ ParsePath (MultisigPath (ringChainParams sampleRing) (-1))
     = Ok (keyPath sampleRing {| Family := KeyFamilyMultiSig;
                                 Index := uint32 (-1) |})
  /\ ParsePath (scanPath 5)
     = Ok (keyPath sampleRing {| Family := KeyFamilyPaymentBase;
                                 Index := 5 |}).
Proof.
  assert (Hc : 0 <= HDCoinType (ringChainParams sampleRing) < 2 ^ 32)
    by (cbn; split; [lia | reflexivity]).
  assert (Hm : - 2 ^ 63 <= -1 < 2 ^ 63) by lia.
  assert (Hp : ringChainParams sampleRing = chainParams) by reflexivity.
  assert (H5 : 0 <= 5 < 2 ^ 32) by (split; [lia | reflexivity]).
  pose proof (path_texts_parse_to_key_ring_paths sampleRing Hc)
    as (Hi & Hmulti & Hscan).
  split; [exact Hc |]. split; [exact Hm |]. split; [exact Hp |].
  split; [exact H5 |]. split; [exact Hi |].
  split; [exact (Hmulti (-1) Hm) | exact (Hscan Hp 5 H5)].
Defined.

Lemma AllDerivationPaths_always_succeeds_witness :
  0 <= HDCoinType (1 : Params) < 2 ^ 32
  /\ AllDerivationPaths (1 : Params)
     = Ok ([ WalletBIP49DerivationPath; WalletDefaultDerivationPath;
             WalletBIP86DerivationPath;
             LndDerivationPath (HDCoinType (1 : Params))
               KeyFamilyPaymentBase ],
           [ [HardenedKey 49; HardenedKey 0; HardenedKey 0];
             [HardenedKey 84; HardenedKey 0; HardenedKey 0];
             [HardenedKey 86; HardenedKey 0; HardenedKey 0];
             [HardenedKey 1017; HardenedKey (HDCoinType (1 : Params));
              HardenedKey KeyFamilyPaymentBase] ]).
Proof.
  assert (Hc : 0 <= HDCoinType (1 : Params) < 2 ^ 32)
    by (cbn; split; [lia | reflexivity]).
  split; [exact Hc |].
  exact (AllDerivationPaths_always_succeeds (1 : Params) Hc).
Defined.

Lemma NodePubKey_is_key_at_IdentityPath_witness :
  0 <= HDCoinType (ringChainParams sampleRing) < 2 ^ 32
  /\ exists k pk wif,
       DeriveKey (ringExtendedKey sampleRing)
         (IdentityPath (ringChainParams sampleRing)) chainParams
       = Ok (k, pk, wif)
       /\ HDKeyRing_NodePubKey sampleRing = Ok (Some pk).
Proof.
  assert (Hc : 0 <= HDCoinType (ringChainParams sampleRing) < 2 ^ 32)
    by (cbn; split; [lia | reflexivity]).
  split; [exact Hc |].
  assert (Hok : isOk (DeriveKey (ringExtendedKey sampleRing)
                        (IdentityPath (ringChainParams sampleRing))
                        chainParams) = true)
    by (vm_compute; reflexivity).
  destruct (DeriveKey (ringExtendedKey sampleRing)
              (IdentityPath (ringChainParams sampleRing)) chainParams)
    as [[[k pk] wif] | e | ] eqn:Hd; try discriminate Hok.
  exists k, pk, wif. split; [reflexivity |].
  exact (proj1 (NodePubKey_is_key_at_IdentityPath sampleRing chainParams Hc)
           k pk wif Hd).
Defined.

Lemma CheckDescriptor_accepts_derived_key_witness :
  @depthLaws btcec hdkeychain
  /\ (forall pk, IsEqual pk pk = true)
  /\ 0 <= 2 < MaxKeyRangeScan
  /\ 2 < 2 ^ 32
  /\ exists keyDesc,
       HDKeyRing_DeriveKey sampleRing
         {| Family := KeyFamilyPaymentBase; Index := 2 |}
       = Ok keyDesc
       /\ HDKeyRing_CheckDescriptor sampleRing keyDesc = Ok tt.
Proof.
  assert (Hidx : 0 <= 2 < MaxKeyRangeScan) by (cbn; lia).
  assert (H32 : 2 < 2 ^ 32) by reflexivity.
  assert (Hlower :
    forall familyKey j,
      DeriveChildren (ringExtendedKey sampleRing)
        (familyPath sampleRing
           (Family {| Family := KeyFamilyPaymentBase; Index := 2 |}))
      = Ok familyKey ->
      0 <= j < Index {| Family := KeyFamilyPaymentBase; Index := 2 |} ->
      exists child pk,
        DeriveChildren familyKey [uint32 j] = Ok child
        /\ ECPubKey child = Ok pk).
  { intros familyKey j Hf Hj.
    assert (Hdepth : 3 <= Depth familyKey).
    { pose proof model_depthLaws as Hlaws.
      assert (Hd : Depth familyKey = 4).
      { vm_compute in Hf. inversion Hf. reflexivity. }
      rewrite Hd. lia. }
    unfold DeriveChildren.
    rewrite (DeriveChildren_loop_plain model_depthLaws)
      by (right; exact Hdepth).
    eexists. eexists. split; reflexivity. }
  assert (Hok : isOk (HDKeyRing_DeriveKey sampleRing
                        {| Family := KeyFamilyPaymentBase; Index := 2 |})
                = true) by (vm_compute; reflexivity).
  destruct (HDKeyRing_DeriveKey sampleRing
              {| Family := KeyFamilyPaymentBase; Index := 2 |})
    as [keyDesc | e | ] eqn:Hd; try discriminate Hok.
  split; [exact model_depthLaws |]. split; [exact bytes_eqb_refl |].
  split; [exact Hidx |]. split; [exact H32 |].
  exists keyDesc. split; [reflexivity |].
  exact (CheckDescriptor_accepts_derived_key sampleRing
           {| Family := KeyFamilyPaymentBase; Index := 2 |} keyDesc
           model_depthLaws bytes_eqb_refl Hidx H32 Hlower Hd).
Defined.

Lemma script_getters_of_generated_addresses_witness :
  exists p2wkh p2anchor commitScript,
    P2WKHAddr (descPubKey sampleKeyDesc) chainParams = Ok p2wkh
    /\ P2AnchorStaticRemote (descPubKey sampleKeyDesc) chainParams
       = Ok (p2anchor, commitScript)
    /\ (forall a, a = p2wkh \/ a = p2anchor ->
          DecodeAddress (EncodeAddress a) chainParams = Ok a
          /\ IsForNet a chainParams = true)
    /\ GetP2WPKHScript (EncodeAddress p2wkh) chainParams
       = BuilderScript
           (AddData (AddOp NewScriptBuilder OP_0)
              (Hash160 (SerializeCompressed (descPubKey sampleKeyDesc))))
    /\ GetP2WSHScript (EncodeAddress p2anchor) chainParams
       = BuilderScript
           (AddData (AddOp NewScriptBuilder OP_0) (Sum256 commitScript)).
Proof.
  assert (Hk : isOk (P2WKHAddr (descPubKey sampleKeyDesc) chainParams) = true)
    by (vm_compute; reflexivity).
  assert (Ha : isOk (P2AnchorStaticRemote (descPubKey sampleKeyDesc) chainParams)
               = true) by (vm_compute; reflexivity).
  destruct (P2WKHAddr (descPubKey sampleKeyDesc) chainParams) as [p2wkh | e | ]
    eqn:Hp; try discriminate Hk.
  destruct (P2AnchorStaticRemote (descPubKey sampleKeyDesc) chainParams)
    as [[p2anchor commitScript] | e | ] eqn:Hq; try discriminate Ha.
  assert (Hround : forall a, a = p2wkh \/ a = p2anchor ->
            DecodeAddress (EncodeAddress a) chainParams = Ok a
            /\ IsForNet a chainParams = true).
  { vm_compute in Hp. vm_compute in Hq. inversion Hp. inversion Hq.
    intros a [Ha' | Ha']; subst a; split; reflexivity. }
  exists p2wkh, p2anchor, commitScript.
  split; [reflexivity |]. split; [reflexivity |]. split; [exact Hround |].
  pose proof (script_getters_of_generated_addresses (descPubKey sampleKeyDesc)
                chainParams p2wkh p2anchor commitScript Hp Hq Hround)
    as (H1 & H2 & _).
  split; [exact H1 | exact H2].
Defined.

End KeyExamples.

(** ** The requests of a sweep session *)

Module LogFacts.

Import GoStrings Lnd Sweep SweepLog ScanFacts.

Section Log.

Context {ec : Btcec} {hd : Hdkeychain} {bu : Btcutil} {env : SweepEnv}.
Context {signing : Signing}.

Lemma looksUpOnly_ret : forall (A : Type) (a : A), looksUpOnly (ret a).
Proof.
  intros A a w. exists []. cbn. rewrite app_nil_r. split; reflexivity.
Qed.

Lemma looksUpOnly_lift :
  forall (A : Type) (r : result A), looksUpOnly (lift r).
Proof.
  intros A r w. exists []. cbn. rewrite app_nil_r. split; reflexivity.
Qed.

Lemma looksUpOnly_mbind :
  forall (A B : Type) (m : M A) (k : A -> M B),
    looksUpOnly m -> (forall a, looksUpOnly (k a)) ->
    looksUpOnly (mbind m k).
Proof.
  intros A B m k Hm Hk w. unfold mbind.
  destruct (Hm w) as (c1 & H1 & Hl1).
  destruct (m w) as [[a | e | ] w1]; cbn [snd] in H1.
  - destruct (Hk a w1) as (c2 & H2 & Hl2). exists (c1 ++ c2).
    rewrite H2, H1, <- app_assoc, forallb_app, Hl1, Hl2.
    split; reflexivity.
  - exists c1. split; assumption.
  - exists c1. split; assumption.
Qed.

Lemma looksUpOnly_wrapM :
  forall (A : Type) msg (m : M A), looksUpOnly m -> looksUpOnly (wrapM msg m).
Proof.
  intros A msg m Hm w. unfold wrapM. destruct (Hm w) as (c & H & Hl).
  destruct (m w) as [r w1]. exists c. split; assumption.
Qed.

Lemma looksUpOnly_callUnspent :
  forall api a, looksUpOnly (callUnspent api a).
Proof. intros api a w. exists [CallUnspent a]. split; reflexivity. Qed.

Lemma looksUpOnly_callTransaction :
  forall api txid, looksUpOnly (callTransaction api txid).
Proof. intros api txid w. exists [CallTransaction txid]. split; reflexivity. Qed.

Lemma looksUpOnly_doFillCache :
  forall numKeys key, looksUpOnly (doFillCache numKeys key).
Proof.
  intros numKeys key w. exists []. unfold doFillCache.
  destruct (fillCache numKeys key (cache w)); cbn; rewrite app_nil_r;
    split; reflexivity.
Qed.

Lemma looksUpOnly_lookupInCache :
  forall numKeys a cp, looksUpOnly (lookupInCache numKeys a cp).
Proof.
  intros numKeys a cp w. exists []. cbn. rewrite app_nil_r.
  split; reflexivity.
Qed.

Ltac lookups :=
  repeat first
    [ apply looksUpOnly_ret
    | apply looksUpOnly_lift
    | apply looksUpOnly_callUnspent
    | apply looksUpOnly_callTransaction
    | apply looksUpOnly_doFillCache
    | apply looksUpOnly_lookupInCache
    | apply looksUpOnly_wrapM
    | apply looksUpOnly_mbind; [| intros ?] ].

Lemma looksUpOnly_queryAddr :
  forall api kd targets a s t, looksUpOnly (queryAddr api kd targets a s t).
Proof.
  intros api kd targets a s t. unfold queryAddr.
  apply looksUpOnly_mbind; [lookups |].
  intros unspent. destruct (0 <? length unspent)%nat; lookups.
Qed.

Lemma looksUpOnly_queryAddressBalances :
  forall pk path kd api, looksUpOnly (queryAddressBalances pk path kd api).
Proof.
  intros pk path kd api. unfold queryAddressBalances. cbv zeta.
  repeat first
    [ apply looksUpOnly_queryAddr
    | apply looksUpOnly_lift
    | apply looksUpOnly_ret
    | apply looksUpOnly_mbind; [| intros ?] ].
Qed.

Lemma looksUpOnly_scanIndex :
  forall api key index, looksUpOnly (scanIndex api key index).
Proof.
  intros api key index. unfold scanIndex. cbv zeta.
  repeat first
    [ apply looksUpOnly_queryAddressBalances
    | apply looksUpOnly_lift
    | apply looksUpOnly_wrapM
    | apply looksUpOnly_mbind; [| intros ?] ].
Qed.

Lemma looksUpOnly_scanLoop :
  forall api key n index targets,
    looksUpOnly (scanLoop api key n index targets).
Proof.
  intros api key. induction n as [| n IH]; intros index targets;
    cbn [scanLoop].
  - apply looksUpOnly_ret.
  - apply looksUpOnly_mbind; [apply looksUpOnly_scanIndex |].
    intros found. apply IH.
Qed.

Lemma looksUpOnly_findAncientChannels_loop :
  forall channels numKeys found,
    looksUpOnly (findAncientChannels_loop channels numKeys found).
Proof.
  induction channels as [| channel rest IH]; intros numKeys found;
    cbn [findAncientChannels_loop].
  - apply looksUpOnly_ret.
  - apply looksUpOnly_mbind; [lookups |]. intros b.
    apply looksUpOnly_mbind; [lookups |]. intros cp.
    apply looksUpOnly_mbind; [lookups |]. intros a w.
    unfold lookupInCache.
    destruct (keyInCache (cache w) numKeys (EncodeAddress a) cp)
      as [k | e | ].
    + apply IH.
    + destruct (isAddrNotFound e); [apply IH |].
      exists []. cbn. rewrite app_nil_r. split; reflexivity.
    + exists []. cbn. rewrite app_nil_r. split; reflexivity.
Qed.

Lemma looksUpOnly_checkAncientChannelPoints_loop :
  forall api numKeys channels targets,
    looksUpOnly (checkAncientChannelPoints_loop api numKeys channels targets).
Proof.
  intros api numKeys. induction channels as [| channel rest IH];
    intros targets; cbn [checkAncientChannelPoints_loop].
  - apply looksUpOnly_ret.
  - repeat first
      [ apply IH
      | apply looksUpOnly_lift
      | apply looksUpOnly_lookupInCache
      | apply looksUpOnly_wrapM; apply looksUpOnly_callTransaction
      | apply looksUpOnly_mbind; [| intros ?] ].
Qed.

Lemma looksUpOnly_checkAncientChannelPoints :
  forall api numKeys key,
    looksUpOnly (checkAncientChannelPoints api numKeys key).
Proof.
  intros api numKeys key. unfold checkAncientChannelPoints.
  apply looksUpOnly_mbind; [apply looksUpOnly_lift |]. intros channels.
  apply looksUpOnly_mbind.
  - unfold findAncientChannels.
    apply looksUpOnly_mbind; [apply looksUpOnly_doFillCache |].
    intros _. apply looksUpOnly_findAncientChannels_loop.
  - intros found. apply looksUpOnly_checkAncientChannelPoints_loop.
Qed.

Lemma looksUpOnly_ancientTargets :
  forall api window key, looksUpOnly (ancientTargets api window key).
Proof.
  intros api window key w. unfold ancientTargets.
  destruct (looksUpOnly_checkAncientChannelPoints api window key w)
    as (c & H & Hl).
  destruct (checkAncientChannelPoints api window key w) as [[ts | e | ] w1];
    cbn [snd] in H.
  - exists c. split; assumption.
  - destruct (isAddrNotFound e); exists c; split; assumption.
  - exists c. split; assumption.
Qed.

(** The targets of a session: what the scan and the ancient channel
    check found, from a given state. *)
Lemma session_lookups :
  forall api key window,
    looksUpOnly
      (mbind (scan api key window) (fun targets =>
         mbind (ancientTargets api window key) (fun ancient =>
           ret (targets ++ ancient)))).
Proof.
  intros api key window.
  apply looksUpOnly_mbind; [apply looksUpOnly_scanLoop |]. intros targets.
  apply looksUpOnly_mbind; [apply looksUpOnly_ancientTargets |].
  intros ancient. apply looksUpOnly_ret.
Qed.

End Log.

End LogFacts.

Import SweepLog LogFacts.

(** The sweep publishes only when asked, and only a finished
    transaction: from every state, the requests a session adds to the log
    are lookups (unspent outputs, transactions), followed by at most one
    publish request; there is none when [publish] is false, and when there
    is one it is the last request and carries the hex text of the serialized
    transaction that was built and signed.  A session with [publish] set
    that ends without error did publish. *)
Theorem sweep_publishes_only_when_asked :
  forall {ec : Btcec} {hd : Hdkeychain} {bu : Btcutil} {env : SweepEnv}
         {signing : Signing} (extendedKey : ExtendedKey) (api : ExplorerAPI)
         (sweepAddr : gostring) (recoveryWindow feeRate : Z) (publish : bool)
         (w : World),
    let out := sweepRemoteClosed extendedKey api sweepAddr recoveryWindow
                 feeRate publish w in
    exists lookups,
      forallb isLookup lookups = true
      /\ (apiLog (snd out) = apiLog w ++ lookups
          \/ exists sweepScript est targets tx buf,
               publish = true
               /\ PrepareWalletAddress sweepAddr chainParams newEstimator
                    extendedKey
                  = Ok (sweepScript, est)
               /\ buildAndSign extendedKey targets est sweepScript feeRate
                  = Ok tx
               /\ Serialize tx = Ok buf
               /\ apiLog (snd out)
                  = apiLog w ++ lookups
                    ++ [CallPublishTx (hexEncodeToString buf)])
      /\ (publish = false -> apiLog (snd out) = apiLog w ++ lookups)
      /\ (publish = true -> fst out = Ok tt ->
          exists raw,
            apiLog (snd out) = apiLog w ++ lookups ++ [CallPublishTx raw]).
Proof.
  intros ec hd bu env signing extendedKey api sweepAddr recoveryWindow
    feeRate publish w out. subst out.
  destruct (PrepareWalletAddress sweepAddr chainParams newEstimator
              extendedKey) as [[sweepScript est] | e | ] eqn:Hprep.
  2, 3: unfold sweepRemoteClosed, mbind, lift; rewrite Hprep; cbn [fst snd];
    exists []; rewrite app_nil_r; split; [reflexivity |];
    split; [left; reflexivity |]; split; [reflexivity | discriminate].
  rewrite (sweepRemoteClosed_stages extendedKey api sweepAddr recoveryWindow
             feeRate publish w sweepScript est Hprep).
  destruct (looksUpOnly_scanLoop api extendedKey (Z.to_nat recoveryWindow) 0
              [] w) as (c1 & H1 & Hl1).
  fold (scan api extendedKey recoveryWindow) in H1.
  destruct (scan api extendedKey recoveryWindow w) as [[targets | e | ] w1];
    cbn [snd] in H1.
  2, 3: exists c1; cbn [fst snd]; split; [exact Hl1 |];
    split; [left; exact H1 |];
    split; [intros _; exact H1 | discriminate].
  destruct (looksUpOnly_ancientTargets api recoveryWindow extendedKey w1)
    as (c2 & H2 & Hl2).
  destruct (ancientTargets api recoveryWindow extendedKey w1)
    as [[ancient | e | ] w2]; cbn [snd] in H2.
  2, 3: exists (c1 ++ c2); cbn [fst snd];
    rewrite forallb_app, Hl1, Hl2, app_assoc, <- H1;
    split; [reflexivity |]; split; [left; exact H2 |];
    split; [intros _; exact H2 | discriminate].
  assert (H12 : apiLog w2 = apiLog w ++ c1 ++ c2).
  { rewrite H2, H1, <- app_assoc. reflexivity. }
  exists (c1 ++ c2). split; [rewrite forallb_app, Hl1, Hl2; reflexivity |].
  unfold finishSweep, mbind, lift, callPublishTx, ret.
  destruct (buildAndSign extendedKey (targets ++ ancient) est sweepScript
              feeRate) as [tx | e | ] eqn:Hb; cbn [fst snd].
  2, 3: split; [left; exact H12 |];
    split; [intros _; exact H12 | discriminate].
  destruct (Serialize tx) as [buf | e | ] eqn:Hs; cbn [fst snd].
  2, 3: split; [left; exact H12 |];
    split; [intros _; exact H12 | discriminate].
  destruct publish.
  - assert (Hlog : apiLog (logged (CallPublishTx (hexEncodeToString buf)) w2)
                   = apiLog w ++ (c1 ++ c2)
                     ++ [CallPublishTx (hexEncodeToString buf)]).
    { cbn [logged apiLog]. rewrite H12, <- !app_assoc. reflexivity. }
    destruct (PublishTx api (hexEncodeToString buf)) as [resp | e | ];
      cbn [fst snd].
    all: split;
      [ right; exists sweepScript, est, (targets ++ ancient), tx, buf;
        repeat split; try assumption; reflexivity |];
      split; [discriminate |];
      intros _ _; exists (hexEncodeToString buf); exact Hlog.
  - cbn [snd fst]. split; [left; exact H12 |].
    split; [intros _; exact H12 | discriminate].
Qed.

(** ** What the scan returns *)

Module TargetFacts.

Import GoStrings Lnd Sweep SweepLog ScanFacts.

Section Targets.

Context {ec : Btcec} {hd : Hdkeychain} {bu : Btcutil} {env : SweepEnv}.

Lemma parseUtxos_Forall2 :
  forall vouts us, parseUtxos vouts = Ok us -> Forall2 parsedAs vouts us.
Proof.
  induction vouts as [| v vouts IH]; intros us Hp.
  - cbn in Hp. inversion Hp. constructor.
  - cbn [parseUtxos] in Hp.
    destruct (NewHashFromStr (OutspendTxid v)) as [h | e | ] eqn:Hh;
      cbn [wrapErr bind] in Hp; try discriminate.
    destruct (hexDecodeString (ScriptPubkey v)) as [s | e | ] eqn:Hs;
      cbn [wrapErr bind] in Hp; try discriminate.
    destruct (parseUtxos vouts) as [rest | e | ]; cbn [bind] in Hp;
      try discriminate.
    inversion Hp; subst us. constructor; [| apply IH; reflexivity].
    exists h, s. repeat split; assumption.
Qed.

Lemma Forall2_parseUtxos :
  forall vouts us, Forall2 parsedAs vouts us -> parseUtxos vouts = Ok us.
Proof.
  intros vouts us H. induction H as [| v u vouts us (h & s & Hh & Hs & Hu) _ IH].
  - reflexivity.
  - cbn [parseUtxos]. rewrite Hh. cbn [wrapErr bind]. rewrite Hs.
    cbn [wrapErr bind]. rewrite IH. cbn [bind]. subst u. reflexivity.
Qed.

Lemma parseUtxos_app_Ok :
  forall good rest,
    isOk (parseUtxos good) = true ->
    forall e, parseUtxos rest = Err e -> parseUtxos (good ++ rest) = Err e.
Proof.
  induction good as [| v good IH]; intros rest Hok e He.
  - exact He.
  - cbn [app parseUtxos] in Hok |- *.
    destruct (NewHashFromStr (OutspendTxid v)) as [h | e0 | ];
      cbn [wrapErr bind isOk] in Hok |- *; try discriminate.
    destruct (hexDecodeString (ScriptPubkey v)) as [s | e0 | ];
      cbn [wrapErr bind isOk] in Hok |- *; try discriminate.
    destruct (parseUtxos good) as [us | e0 | ] eqn:Hg;
      cbn [bind isOk] in Hok; try discriminate.
    rewrite (IH rest eq_refl e He). reflexivity.
Qed.

Lemma parseUtxos_length :
  forall vouts us, parseUtxos vouts = Ok us -> length us = length vouts.
Proof.
  intros vouts us Hp. apply parseUtxos_Forall2 in Hp.
  symmetry. apply (Forall2_length Hp).
Qed.

(** A successful [queryAddr] appends nothing, or one target that holds at
    least one output. *)
Lemma queryAddr_Ok_shape :
  forall api kd targets a s t w ts w',
    queryAddr api kd targets a s t w = (Ok ts, w') ->
    ts = targets
    \/ exists us,
         us <> []
         /\ ts = targets ++ [ {| addr := a; keyDesc := kd; tweak := [];
                                 utxos := us; script := s;
                                 scriptTree := t |} ].
Proof.
  intros api kd targets a s t w ts w' Hq.
  unfold queryAddr, mbind, wrapM, callUnspent in Hq.
  destruct (Unspent api (EncodeAddress a)) as [unspent | e | ];
    cbn [wrapErr] in Hq; try discriminate.
  destruct (0 <? length unspent)%nat eqn:Hlen.
  - unfold lift, ret in Hq.
    destruct (parseUtxos unspent) as [us | e | ] eqn:Hp; try discriminate.
    inversion Hq; subst. right. exists us. split; [| reflexivity].
    apply parseUtxos_length in Hp. apply Nat.ltb_lt in Hlen.
    intro Hnil. subst us. cbn in Hp. lia.
  - unfold ret in Hq. inversion Hq; subst. left. reflexivity.
Qed.

Lemma queryAddressBalances_targets :
  forall api pk path kd w ts w',
    queryAddressBalances pk path kd api w = (Ok ts, w') ->
    descPubKey kd = pk ->
    Family (keyLocator kd) = KeyFamilyPaymentBase ->
    Forall (fun t => scanTarget t /\ keyDesc t = kd) ts.
Proof.
  intros api pk path kd w ts w' Hq Hpk Hfam.
  unfold queryAddressBalances in Hq.
  unfold mbind at 1 in Hq. unfold lift at 1 in Hq.
  destruct (P2WKHAddr pk chainParams) as [a1 | e | ] eqn:H1;
    try discriminate.
  unfold mbind at 1 in Hq.
  destruct (queryAddr api kd [] a1 [] None w) as [[ts1 | e | ] w1] eqn:Q1;
    try discriminate.
  unfold mbind at 1 in Hq. unfold lift at 1 in Hq.
  destruct (P2AnchorStaticRemote pk chainParams) as [[a2 s2] | e | ] eqn:H2;
    try discriminate.
  cbn [fst snd] in Hq. unfold mbind at 1 in Hq.
  destruct (queryAddr api kd ts1 a2 s2 None w1) as [[ts2 | e | ] w2] eqn:Q2;
    try discriminate.
  unfold mbind at 1 in Hq. unfold lift at 1 in Hq.
  destruct (P2TaprootStaticRemove pk chainParams) as [[a3 t3] | e | ] eqn:H3;
    try discriminate.
  cbn [fst snd] in Hq. unfold mbind at 1 in Hq.
  destruct (queryAddr api kd ts2 a3 [] (Some t3) w2) as [[ts3 | e | ] w3]
    eqn:Q3; try discriminate.
  unfold ret in Hq. inversion Hq; subst ts3 w3. clear Hq.
  apply queryAddr_Ok_shape in Q1, Q2, Q3.
  (* the three addresses *)
  unfold P2WKHAddr, NewAddressWitnessPubKeyHash in H1.
  destruct (length (Hash160 (SerializeCompressed pk)) =? 20)%nat;
    [| discriminate].
  inversion H1; subst a1. clear H1.
  unfold P2AnchorStaticRemote in H2.
  destruct (CommitScriptToRemoteConfirmed pk) as [cs | e | ] eqn:Hcs;
    cbn [wrapErr bind] in H2; try discriminate.
  unfold NewAddressWitnessScriptHash in H2.
  destruct (length (Sum256 cs) =? 32)%nat; cbn [bind] in H2;
    [| discriminate].
  inversion H2; subst a2 s2. clear H2.
  unfold P2TaprootStaticRemove in H3.
  destruct (NewRemoteCommitScriptTree pk) as [tree | e | ] eqn:Htree;
    cbn [wrapErr bind] in H3; try discriminate.
  unfold NewAddressTaproot in H3.
  destruct (length (SchnorrSerializePubKey (TaprootKey tree)) =? 32)%nat;
    cbn [bind] in H3; [| discriminate].
  inversion H3; subst a3 t3. clear H3.
  assert (F1 : Forall (fun t => scanTarget t /\ keyDesc t = kd) ts1).
  { destruct Q1 as [Q1 | (us & Hne & Q1)]; subst ts1; [constructor |].
    constructor; [| constructor]. split; [| reflexivity].
    unfold scanTarget. cbn [utxos tweak keyDesc addr script scriptTree].
    rewrite Hpk. repeat split; assumption || reflexivity. }
  assert (F2 : Forall (fun t => scanTarget t /\ keyDesc t = kd) ts2).
  { destruct Q2 as [Q2 | (us & Hne & Q2)]; subst ts2; [exact F1 |].
    apply Forall_app. split; [exact F1 |].
    constructor; [| constructor]. split; [| reflexivity].
    unfold scanTarget. cbn [utxos tweak keyDesc addr script scriptTree].
    rewrite Hpk. repeat split; assumption || reflexivity. }
  destruct Q3 as [Q3 | (us & Hne & Q3)]; subst ts; [exact F2 |].
  apply Forall_app. split; [exact F2 |].
  constructor; [| constructor]. split; [| reflexivity].
  unfold scanTarget. cbn [utxos tweak keyDesc addr script scriptTree].
  rewrite Hpk. split; [exact Hne |]. split; [reflexivity |].
  split; [exact Hfam |]. split; [reflexivity |]. split; [reflexivity |].
  exists tree. repeat split; assumption || reflexivity.
Qed.

Lemma scanIndex_targets :
  forall api key index w ts w',
    scanIndex api key index w = (Ok ts, w') ->
    Forall (fun t => scanTarget t
                     /\ Index (keyLocator (keyDesc t)) = index) ts.
Proof.
  intros api key index w ts w' Hs. unfold scanIndex in Hs. cbv zeta in Hs.
  unfold mbind at 1 in Hs. unfold lift at 1 in Hs.
  destruct (ParsePath (scanPath index)) as [pp | e | ];
    cbn [wrapErr] in Hs; try discriminate.
  unfold mbind at 1 in Hs. unfold lift at 1 in Hs.
  destruct (DeriveChildren key pp) as [k | e | ]; cbn [wrapErr] in Hs;
    try discriminate.
  unfold mbind at 1 in Hs. unfold lift at 1 in Hs.
  destruct (ECPrivKey k) as [priv | e | ]; cbn [wrapErr] in Hs;
    try discriminate.
  unfold wrapM in Hs.
  match type of Hs with
  | context [queryAddressBalances ?pk ?path ?kd ?api ?w] =>
      destruct (queryAddressBalances pk path kd api w) as [r w1] eqn:Hq
  end.
  destruct r as [ts1 | e | ]; cbn [wrapErr] in Hs; try discriminate.
  inversion Hs; subst ts1 w1. clear Hs.
  apply queryAddressBalances_targets in Hq; [| reflexivity | reflexivity].
  eapply Forall_impl; [| exact Hq]. intros t [Ht Hkd].
  split; [exact Ht |]. rewrite Hkd. reflexivity.
Qed.

Lemma scanLoop_targets :
  forall api key n index targets w ts w',
    scanLoop api key n index targets w = (Ok ts, w') ->
    exists found,
      ts = targets ++ found
      /\ Forall (fun t => scanTarget t
                          /\ index <= Index (keyLocator (keyDesc t))
                             < index + Z.of_nat n) found.
Proof.
  intros api key. induction n as [| n IH]; intros index targets w ts w' Hs.
  - cbn in Hs. inversion Hs; subst. exists []. rewrite app_nil_r.
    split; [reflexivity | constructor].
  - cbn [scanLoop] in Hs. unfold mbind at 1 in Hs.
    destruct (scanIndex api key index w) as [[f1 | e | ] w1] eqn:H1;
      try discriminate.
    apply scanIndex_targets in H1. apply IH in Hs.
    destruct Hs as (f2 & Hts & Hf2). exists (f1 ++ f2).
    split; [rewrite Hts, app_assoc; reflexivity |].
    apply Forall_app. split.
    + eapply Forall_impl; [| exact H1]. intros t [Ht Hi].
      split; [exact Ht | lia].
    + eapply Forall_impl; [| exact Hf2]. intros t [Ht Hi].
      split; [exact Ht | lia].
Qed.

Lemma scan_targets_shape :
  forall api key window w w' targets,
    scan api key window w = (Ok targets, w') ->
    Forall scanTarget targets
    /\ Forall (fun t => 0 <= Index (keyLocator (keyDesc t)) < window) targets.
Proof.
  intros api key window w w' targets Hs.
  unfold scan in Hs. apply scanLoop_targets in Hs.
  destruct Hs as (found & Hts & Hf). cbn [app] in Hts. subst found.
  split.
  - eapply Forall_impl; [| exact Hf]. intros t [Ht _]. exact Ht.
  - eapply Forall_impl; [| exact Hf]. intros t [_ Hi]. lia.
Qed.

Lemma scanTarget_handled : forall t, scanTarget t -> handled t.
Proof.
  intros t (_ & _ & _ & Ha). unfold handled.
  destruct (addr t) as [h n | h n | pr n | pr n | pr n]; try exact I;
    try contradiction.
  destruct Ha as (_ & _ & tree & _ & Htree & _). rewrite Htree. discriminate.
Qed.

End Targets.

End TargetFacts.

Import TargetFacts.

(** [parseUtxos] is all or nothing: it returns outputs exactly when the
    transaction hash and the script of every explorer output decode, and
    then one per output in order, with the value converted to [int64] and
    the output index to [uint32]; otherwise it returns the error of the
    first output that does not decode, wrapped. *)
Theorem parseUtxos_all_or_nothing :
  forall {ec : Btcec} {hd : Hdkeychain} {bu : Btcutil} {env : SweepEnv}
         (vouts : list Vout),
    (forall us, parseUtxos vouts = Ok us <-> Forall2 parsedAs vouts us)
    /\ (forall us, parseUtxos vouts = Ok us -> length us = length vouts)
    /\ (forall good bad rest e,
          vouts = good ++ bad :: rest ->
          isOk (parseUtxos good) = true ->
          NewHashFromStr (OutspendTxid bad) = Err e ->
          parseUtxos vouts = Err (errWrap "error parsing tx hash" e))
    /\ (forall good bad rest h e,
          vouts = good ++ bad :: rest ->
          isOk (parseUtxos good) = true ->
          NewHashFromStr (OutspendTxid bad) = Ok h ->
          hexDecodeString (ScriptPubkey bad) = Err e ->
          parseUtxos vouts = Err (errWrap "error decoding script pubkey" e)).
Proof.
  intros ec hd bu env vouts. split; [| split; [| split]].
  - intros us. split; [apply parseUtxos_Forall2 | apply Forall2_parseUtxos].
  - apply parseUtxos_length.
  - intros good bad rest e Hv Hok He. subst vouts.
    apply parseUtxos_app_Ok; [exact Hok |].
    cbn [parseUtxos]. rewrite He. reflexivity.
  - intros good bad rest h e Hv Hok Hh He. subst vouts.
    apply parseUtxos_app_Ok; [exact Hok |].
    cbn [parseUtxos]. rewrite Hh. cbn [wrapErr bind]. rewrite He.
    reflexivity.
Qed.

(** Every target the scan returns pays to its own key: it holds at least
    one output, has no tweak, its descriptor names the payment base family
    and an index of the window, and its address is the key hash, anchor or
    taproot address generated from the public key in that descriptor,
    together with the script or script tree of that address.  So the input
    loop of the builder has a case for each of them. *)
Theorem scan_targets_pay_to_their_own_key :
  forall {ec : Btcec} {hd : Hdkeychain} {bu : Btcutil} {env : SweepEnv}
         (api : ExplorerAPI) (extendedKey : ExtendedKey)
         (recoveryWindow : Z) (w w' : World) (targets : list targetAddr),
    scan api extendedKey recoveryWindow w = (Ok targets, w') ->
    Forall scanTarget targets
    /\ Forall handled targets
    /\ Forall (fun t => 0 <= Index (keyLocator (keyDesc t)) < recoveryWindow)
         targets.
Proof.
  intros ec hd bu env api extendedKey recoveryWindow w w' targets Hs.
  unfold scan in Hs. apply scanLoop_targets in Hs.
  destruct Hs as (found & Hts & Hf). cbn [app] in Hts. subst found.
  split; [| split].
  - eapply Forall_impl; [| exact Hf]. intros t [Ht _]. exact Ht.
  - eapply Forall_impl; [| exact Hf]. intros t [Ht _].
    apply scanTarget_handled. exact Ht.
  - eapply Forall_impl; [| exact Hf]. intros t [_ Hi].
    lia.
Qed.

(** ** Sign descriptors and the signing loop *)

Module SignFacts.

Import GoStrings Lnd Sweep SweepLog BuildFacts SessionFacts.

Section Sign.

Context {ec : Btcec} {hd : Hdkeychain} {bu : Btcutil} {env : SweepEnv}.
Context {signing : Signing}.

(** The descriptor one pass of the input loop appends. *)
Lemma addUtxo_descriptor :
  forall target u st st',
    addUtxo target u st = Ok st' ->
    match addr target with
    | AddressWitnessPubKeyHash _ _ =>
        signDescs st'
        = signDescs st
          ++ [Some (v0Descriptor target u (tweak target)
                      (length (txIn (sweepTx st))))]
    | AddressWitnessScriptHash _ _ =>
        signDescs st'
        = signDescs st
          ++ [Some (v0Descriptor target u [] (length (txIn (sweepTx st))))]
    | AddressTaproot _ _ =>
        exists tree cb cbb,
          scriptTree target = Some tree
          /\ CtrlBlockForPathSuccess tree = Ok cb
          /\ ToBytes cb = Ok cbb
          /\ signDescs st'
             = signDescs st
               ++ [Some (taprootDescriptor target u tree cbb
                           (length (txIn (sweepTx st))))]
    | _ => signDescs st' = signDescs st ++ [None]
    end.
Proof.
  intros target u st st' Hadd. unfold addUtxo in Hadd.
  destruct (addr target) as [h n | h n | pr n | pr n | pr n].
  - inversion Hadd; subst st'. reflexivity.
  - inversion Hadd; subst st'. reflexivity.
  - inversion Hadd; subst st'. cbn [signDescs txIn withInputs].
    unfold v0Descriptor. rewrite length_app. cbn [length].
    rewrite Nat.add_sub. reflexivity.
  - rewrite setLastSequence_last in Hadd. cbn [bind] in Hadd.
    inversion Hadd; subst st'. cbn [signDescs txIn withInputs].
    unfold v0Descriptor. rewrite length_app. cbn [length].
    rewrite Nat.add_sub. reflexivity.
  - rewrite setLastSequence_last in Hadd. cbn [bind] in Hadd.
    destruct (scriptTree target) as [tree |]; cbn [bind] in Hadd;
      [| discriminate].
    destruct (CtrlBlockForPathSuccess tree) as [cb | e | ] eqn:Hcb;
      cbn [bind] in Hadd; try discriminate.
    destruct (ToBytes cb) as [cbb | e | ] eqn:Hcbb; cbn [bind] in Hadd;
      try discriminate.
    inversion Hadd; subst st'. exists tree, cb, cbb.
    repeat split; try assumption. cbn [signDescs txIn withInputs].
    unfold taprootDescriptor. rewrite length_app. cbn [length].
    rewrite Nat.add_sub. reflexivity.
Qed.

(** A descriptor stays nil exactly for an address the loop has no case
    for. *)
Lemma addUtxo_nil_descriptor :
  forall target u st st',
    addUtxo target u st = Ok st' ->
    exists d,
      signDescs st' = signDescs st ++ [d]
      /\ (d = None <-> unhandledAddress (addr target) = true).
Proof.
  intros target u st st' Hadd. apply addUtxo_descriptor in Hadd.
  destruct (addr target) as [h n | h n | pr n | pr n | pr n];
    cbn [unhandledAddress].
  - exists None. split; [exact Hadd | tauto].
  - exists None. split; [exact Hadd | tauto].
  - eexists. split; [exact Hadd |]. split; discriminate.
  - eexists. split; [exact Hadd |]. split; discriminate.
  - destruct Hadd as (tree & cb & cbb & _ & _ & _ & Hd).
    eexists. split; [exact Hd |]. split; discriminate.
Qed.

Lemma addUtxos_descriptors :
  forall target us st st',
    addUtxos target us st = Ok st' ->
    exists ds,
      signDescs st' = signDescs st ++ ds
      /\ length ds = length us
      /\ (In None ds <->
          unhandledAddress (addr target) = true /\ us <> []).
Proof.
  intros target. induction us as [| u us IH]; intros st st' Hadd.
  - cbn in Hadd. inversion Hadd; subst st'. exists [].
    rewrite app_nil_r. split; [reflexivity |]. split; [reflexivity |].
    cbn. split; [tauto | intros [_ H]; apply H; reflexivity].
  - cbn [addUtxos] in Hadd. apply bind_Ok_inv in Hadd.
    destruct Hadd as (st1 & H1 & Hrest).
    apply addUtxo_nil_descriptor in H1. destruct H1 as (d & Hd & Hnil).
    apply IH in Hrest. destruct Hrest as (ds & Hds & Hlen & Hin).
    exists (d :: ds). split; [| split].
    + rewrite Hds, Hd, <- app_assoc. reflexivity.
    + cbn. rewrite Hlen. reflexivity.
    + cbn [In]. split.
      * intros [H | H].
        -- split; [apply Hnil; exact H | discriminate].
        -- apply Hin in H. split; [tauto | discriminate].
      * intros [H _]. left. apply Hnil. exact H.
Qed.

Lemma addTargets_descriptors :
  forall targets st st',
    addTargets targets st = Ok st' ->
    exists ds,
      signDescs st' = signDescs st ++ ds
      /\ length ds = length (inputsOf targets)
      /\ (In None ds <->
          exists t, In t targets /\ unhandledAddress (addr t) = true
                    /\ utxos t <> []).
Proof.
  induction targets as [| t targets IH]; intros st st' Hadd.
  - cbn in Hadd. inversion Hadd; subst st'. exists [].
    rewrite app_nil_r. split; [reflexivity |]. split; [reflexivity |].
    cbn. split; [tauto | intros (t & [] & _)].
  - cbn [addTargets] in Hadd. apply bind_Ok_inv in Hadd.
    destruct Hadd as (st1 & H1 & Hrest).
    apply addUtxos_descriptors in H1. destruct H1 as (d1 & Hd1 & Hl1 & Hin1).
    apply IH in Hrest. destruct Hrest as (d2 & Hd2 & Hl2 & Hin2).
    exists (d1 ++ d2). split; [| split].
    + rewrite Hd2, Hd1, <- app_assoc. reflexivity.
    + unfold inputsOf in *. cbn [flat_map].
      rewrite !length_app, length_map, Hl1, Hl2. reflexivity.
    + rewrite in_app_iff. split.
      * intros [H | H].
        -- apply Hin1 in H. exists t. cbn [In]. tauto.
        -- apply Hin2 in H. destruct H as (t' & Ht' & H).
           exists t'. cbn [In]. tauto.
      * intros (t' & [Ht' | Ht'] & Hu & Hne).
        -- subst t'. left. apply Hin1. tauto.
        -- right. apply Hin2. exists t'. tauto.
Qed.

(** Signing does not get past a nil descriptor. *)
Lemma signLoop_nil :
  forall key h fetcher descs idx tx tx',
    In None descs -> signLoop key h fetcher idx descs tx <> Ok tx'.
Proof.
  intros key h fetcher. induction descs as [| d descs IH];
    intros idx tx tx' Hin Hs.
  - destruct Hin.
  - cbn [signLoop] in Hs. destruct d as [desc |]; [| discriminate].
    destruct Hin as [Hin | Hin]; [discriminate |].
    destruct (signInput key fetcher (withSigning desc h idx) tx)
      as [witness | e | ]; cbn [bind] in Hs; try discriminate.
    destruct (updateInput (txIn tx) idx (setWitness witness)) as [ins |];
      [| discriminate].
    exact (IH _ _ _ Hin Hs).
Qed.

Lemma updateInput_Some :
  forall (ins : list TxIn) i f,
    (i < length ins)%nat ->
    exists ins', updateInput ins i f = Some ins'
                 /\ length ins' = length ins.
Proof.
  induction ins as [| x ins IH]; intros i f Hi; cbn in Hi; [lia |].
  destruct i as [| i]; cbn [updateInput].
  - eexists. split; reflexivity.
  - destruct (IH i f ltac:(lia)) as (ins' & Hu & Hl). rewrite Hu.
    eexists. split; [reflexivity |]. cbn. rewrite Hl. reflexivity.
Qed.

Section NoPanic.

Variable key : ExtendedKey.

Hypothesis ctrlBlock_returns :
  forall tree, CtrlBlockForPathSuccess tree <> Panic.
Hypothesis toBytes_returns : forall cb, ToBytes cb <> Panic.
Hypothesis taproot_returns :
  forall d f tx, TaprootCommitSpendSuccess key d f tx <> Panic.
Hypothesis confirmed_returns :
  forall d f tx, CommitSpendToRemoteConfirmed key d f tx <> Panic.
Hypothesis noDelay_returns :
  forall d f tx b, CommitSpendNoDelay key d f tx b <> Panic.

Lemma addUtxo_returns :
  forall target u st,
    handled target -> addUtxo target u st <> Panic.
Proof.
  intros target u st Hh. unfold addUtxo, handled in *.
  destruct (addr target) as [h n | h n | pr n | pr n | pr n];
    try contradiction; try discriminate.
  - rewrite setLastSequence_last. cbn [bind]. discriminate.
  - rewrite setLastSequence_last. cbn [bind].
    destruct (scriptTree target) as [tree |]; [| contradiction Hh; reflexivity].
    cbn [bind].
    pose proof (ctrlBlock_returns tree) as Hcb.
    destruct (CtrlBlockForPathSuccess tree) as [cb | e | ]; cbn [bind];
      try discriminate; [| contradiction Hcb; reflexivity].
    pose proof (toBytes_returns cb) as Htb.
    destruct (ToBytes cb) as [cbb | e | ]; cbn [bind]; try discriminate.
    contradiction Htb; reflexivity.
Qed.

Lemma addUtxos_returns :
  forall target us st,
    handled target -> addUtxos target us st <> Panic.
Proof.
  intros target. induction us as [| u us IH]; intros st Hh;
    cbn [addUtxos]; [discriminate |].
  pose proof (addUtxo_returns target u st Hh) as H1.
  destruct (addUtxo target u st) as [st1 | e | ]; cbn [bind];
    [apply IH; exact Hh | discriminate | contradiction H1; reflexivity].
Qed.

Lemma addTargets_returns :
  forall targets st,
    Forall handled targets -> addTargets targets st <> Panic.
Proof.
  induction targets as [| t targets IH]; intros st Hh; cbn [addTargets];
    [discriminate |].
  apply Forall_cons_iff in Hh. destruct Hh as [Ht Hh].
  pose proof (addUtxos_returns t (utxos t) st Ht) as H1.
  destruct (addUtxos t (utxos t) st) as [st1 | e | ]; cbn [bind];
    [apply IH; exact Hh | discriminate | contradiction H1; reflexivity].
Qed.

Lemma signInput_returns :
  forall fetcher desc tx, signInput key fetcher desc tx <> Panic.
Proof.
  intros fetcher desc tx. unfold signInput.
  destruct (isTaprootScriptSpend (SignMethodOf desc));
    [apply taproot_returns |].
  destruct (0 <? length (WitnessScript desc))%nat;
    [apply confirmed_returns | apply noDelay_returns].
Qed.

Lemma signLoop_returns :
  forall h fetcher descs idx tx,
    ~ In None descs ->
    (idx + length descs <= length (txIn tx))%nat ->
    signLoop key h fetcher idx descs tx <> Panic.
Proof.
  intros h fetcher. induction descs as [| d descs IH];
    intros idx tx Hnil Hlen; cbn [signLoop]; [discriminate |].
  destruct d as [desc |]; [| contradiction Hnil; left; reflexivity].
  pose proof (signInput_returns fetcher (withSigning desc h idx) tx) as Hs.
  destruct (signInput key fetcher (withSigning desc h idx) tx)
    as [witness | e | ]; cbn [bind];
    [| discriminate | contradiction Hs; reflexivity].
  cbn [length] in Hlen.
  destruct (updateInput_Some (txIn tx) idx (setWitness witness)
              ltac:(lia)) as (ins & Hu & Hl).
  rewrite Hu. apply IH.
  - intro Hin. apply Hnil. right. exact Hin.
  - cbn [txIn withInputs]. rewrite Hl. lia.
Qed.

Lemma buildAndSign_returns :
  forall targets est sweepScript feeRate,
    Forall handled targets ->
    buildAndSign key targets est sweepScript feeRate <> Panic.
Proof.
  intros targets est sweepScript feeRate Hh. unfold buildAndSign.
  pose proof (addTargets_returns targets (initialState est) Hh) as Ha.
  destruct (addTargets targets (initialState est)) as [st | e | ] eqn:Hadd;
    cbn [bind]; [| discriminate | contradiction Ha; reflexivity].
  destruct ((length targets =? 0)%nat
            || (totalOutputValue st <? sweepDustLimit)); [discriminate |].
  unfold signSweep.
  pose proof (addTargets_descriptors _ _ _ Hadd) as (ds & Hds & Hlen & Hin).
  pose proof (addTargets_Ok _ _ _ Hadd) as (Htx & _).
  cbn [signDescs initialState app] in Hds.
  cbn [sweepTx initialState NewMsgTx txIn app] in Htx.
  apply signLoop_returns.
  - rewrite Hds. intro Hnone. apply Hin in Hnone.
    destruct Hnone as (t & Ht & Hu & _).
    rewrite Forall_forall in Hh. specialize (Hh t Ht).
    unfold handled in Hh.
    destruct (addr t); cbn in Hu; try discriminate; contradiction.
  - unfold withSweepOutput. cbn [txIn withOutputs].
    rewrite Hds, Htx, Hlen, length_map. lia.
Qed.

End NoPanic.

End Sign.

End SignFacts.

Import SignFacts.

(** A target whose address is neither a witness key hash, a witness script
    hash nor a taproot address gets no sign descriptor: the input loop has
    no case for it and appends nil.  With such a target (holding an output)
    the builder never returns a transaction, and once the dust check has
    passed and the inputs before it are signed, the signing loop
    dereferences the nil descriptor: the builder panics, it does not return
    an error. *)
Theorem unhandled_address_panics_when_signing :
  forall {ec : Btcec} {hd : Hdkeychain} {bu : Btcutil} {env : SweepEnv}
         {signing : Signing} (extendedKey : ExtendedKey)
         (targets : list targetAddr) (est : TxWeightEstimator)
         (sweepScript : bytes) (feeRate : Z) (st : buildState)
         (t : targetAddr),
    addTargets targets (initialState est) = Ok st ->
    In t targets ->
    unhandledAddress (addr t) = true ->
    utxos t <> [] ->
    In None (signDescs st)
    /\ (forall tx,
          buildAndSign extendedKey targets est sweepScript feeRate <> Ok tx)
    /\ (forall d1 d2 tx1,
          sweepDustLimit <= totalOutputValue st ->
          signDescs st = d1 ++ None :: d2 ->
          signLoop extendedKey
            (NewTxSigHashes (withSweepOutput st sweepScript feeRate)
               (prevOutFetcher st))
            (prevOutFetcher st) 0 d1
            (withSweepOutput st sweepScript feeRate)
          = Ok tx1 ->
          buildAndSign extendedKey targets est sweepScript feeRate = Panic).
Proof.
  intros ec hd bu env signing extendedKey targets est sweepScript feeRate st
    t Hadd Hin Hun Hne.
  pose proof (addTargets_descriptors _ _ _ Hadd) as (ds & Hds & _ & Hnone).
  cbn [signDescs initialState app] in Hds.
  assert (Hnil : In None (signDescs st)).
  { rewrite Hds. apply Hnone. exists t. repeat split; assumption. }
  split; [exact Hnil |]. split.
  - intros tx Hb.
    rewrite (buildAndSign_after_inputs extendedKey targets est sweepScript
               feeRate st Hadd) in Hb.
    destruct ((length targets =? 0)%nat
              || (totalOutputValue st <? sweepDustLimit)); [discriminate |].
    unfold signSweep in Hb. exact (signLoop_nil _ _ _ _ _ _ _ Hnil Hb).
  - intros d1 d2 tx1 Hdust Hsplit Hsigned.
    rewrite (buildAndSign_after_inputs extendedKey targets est sweepScript
               feeRate st Hadd).
    rewrite (dust_check_passes targets est st Hadd Hdust).
    unfold signSweep. rewrite Hsplit, signLoop_app, Hsigned. reflexivity.
Qed.

(** The builder does not panic on targets the input loop has a case for:
    when every target has a witness address (with its script tree, for a
    taproot address) and the control block and witness functions of [lnd]
    return, all indices the builder uses are in range and every descriptor
    is set, so it ends with a transaction or an error. *)
Theorem builder_returns_for_witness_targets :
  forall {ec : Btcec} {hd : Hdkeychain} {bu : Btcutil} {env : SweepEnv}
         {signing : Signing} (extendedKey : ExtendedKey)
         (targets : list targetAddr) (est : TxWeightEstimator)
         (sweepScript : bytes) (feeRate : Z),
    Forall handled targets ->
    (forall tree, CtrlBlockForPathSuccess tree <> Panic) ->
    (forall cb, ToBytes cb <> Panic) ->
    (forall d f tx, TaprootCommitSpendSuccess extendedKey d f tx <> Panic) ->
    (forall d f tx,
       CommitSpendToRemoteConfirmed extendedKey d f tx <> Panic) ->
    (forall d f tx b, CommitSpendNoDelay extendedKey d f tx b <> Panic) ->
    buildAndSign extendedKey targets est sweepScript feeRate <> Panic.
Proof.
  intros ec hd bu env signing extendedKey targets est sweepScript feeRate
    Hh Hcb Htb Ht Hc Hn.
  apply buildAndSign_returns; assumption.
Qed.

(** Which witness function signs an input.  A taproot input gets the
    descriptor of its script tree and is signed by
    [TaprootCommitSpendSuccess].  For a key hash or script hash input the
    choice is made by the target's script alone:
    [CommitSpendToRemoteConfirmed] when it has one, and otherwise
    [CommitSpendNoDelay], with the spent output's [PkScript] as witness
    script.  Only the key hash descriptor carries the target's tweak. *)
Theorem inputs_are_signed_by_script_and_method :
  forall {ec : Btcec} {hd : Hdkeychain} {bu : Btcutil} {env : SweepEnv}
         {signing : Signing} (extendedKey : ExtendedKey)
         (target : targetAddr) (u : utxo) (st st' : buildState)
         (fetcher : list (OutPoint * TxOut)) (h : TxSigHashes) (idx : nat)
         (tx : MsgTx),
    addUtxo target u st = Ok st' ->
    match addr target with
    | AddressTaproot _ _ =>
        exists tree cbb,
          scriptTree target = Some tree
          /\ signDescs st'
             = signDescs st
               ++ [Some (taprootDescriptor target u tree cbb
                           (length (txIn (sweepTx st))))]
          /\ signInput extendedKey fetcher
               (withSigning
                  (taprootDescriptor target u tree cbb
                     (length (txIn (sweepTx st)))) h idx) tx
             = TaprootCommitSpendSuccess extendedKey
                 (withSigning
                    (taprootDescriptor target u tree cbb
                       (length (txIn (sweepTx st)))) h idx) fetcher tx
    | AddressWitnessPubKeyHash _ _ =>
        signDescs st'
        = signDescs st
          ++ [Some (v0Descriptor target u (tweak target)
                      (length (txIn (sweepTx st))))]
        /\ signInput extendedKey fetcher
             (withSigning
                (v0Descriptor target u (tweak target)
                   (length (txIn (sweepTx st)))) h idx) tx
           = if (0 <? length (script target))%nat
             then CommitSpendToRemoteConfirmed extendedKey
                    (withSigning
                       (v0Descriptor target u (tweak target)
                          (length (txIn (sweepTx st)))) h idx) fetcher tx
             else CommitSpendNoDelay extendedKey
                    (withWitnessScript
                       (withSigning
                          (v0Descriptor target u (tweak target)
                             (length (txIn (sweepTx st)))) h idx)
                       (PkScript (utxoTxOut u))) fetcher tx true
    | AddressWitnessScriptHash _ _ =>
        signDescs st'
        = signDescs st
          ++ [Some (v0Descriptor target u [] (length (txIn (sweepTx st))))]
        /\ signInput extendedKey fetcher
             (withSigning
                (v0Descriptor target u [] (length (txIn (sweepTx st))))
                h idx) tx
           = if (0 <? length (script target))%nat
             then CommitSpendToRemoteConfirmed extendedKey
                    (withSigning
                       (v0Descriptor target u []
                          (length (txIn (sweepTx st)))) h idx) fetcher tx
             else CommitSpendNoDelay extendedKey
                    (withWitnessScript
                       (withSigning
                          (v0Descriptor target u []
                             (length (txIn (sweepTx st)))) h idx)
                       (PkScript (utxoTxOut u))) fetcher tx true
    | _ => signDescs st' = signDescs st ++ [None]
    end.
Proof.
  intros ec hd bu env signing extendedKey target u st st' fetcher h idx tx
    Hadd.
  apply addUtxo_descriptor in Hadd.
  destruct (addr target) as [a n | a n | pr n | pr n | pr n].
  - exact Hadd.
  - exact Hadd.
  - split; [exact Hadd |]. unfold signInput.
    cbn [withSigning v0Descriptor SignMethodOf isTaprootScriptSpend
           WitnessScript Output].
    reflexivity.
  - split; [exact Hadd |]. unfold signInput.
    cbn [withSigning v0Descriptor SignMethodOf isTaprootScriptSpend
           WitnessScript Output].
    reflexivity.
  - destruct Hadd as (tree & cb & cbb & Htree & _ & _ & Hd).
    exists tree, cbb. split; [exact Htree |]. split; [exact Hd |].
    reflexivity.
Qed.

(** ** The check of the ancient channels *)

Module AncientFacts.

Import GoStrings Lnd Sweep SweepLog SessionFacts.

Section Ancient.

Context {ec : Btcec} {hd : Hdkeychain} {bu : Btcutil} {env : SweepEnv}.

(** What the first pass returns: the records the cache holds a key for,
    in the order of the list; the explorer is not asked. *)
Lemma findAncientChannels_loop_Ok_inv :
  forall channels numKeys acc w found w',
    findAncientChannels_loop channels numKeys acc w = (Ok found, w') ->
    w' = w
    /\ exists new,
         found = acc ++ new
         /\ Forall (fun ch => In ch channels
                              /\ recordOutcome (cache w) numKeys ch = Ok true)
              new.
Proof.
  induction channels as [| ch rest IH]; intros numKeys acc w found w' Hl.
  - cbn in Hl. inversion Hl; subst. split; [reflexivity |].
    exists []. rewrite app_nil_r. split; [reflexivity | constructor].
  - rewrite findAncientChannels_loop_step in Hl.
    destruct (recordOutcome (cache w) numKeys ch) as [[|] | e | ] eqn:Hr;
      try discriminate.
    + apply IH in Hl. destruct Hl as (Hw & new & Hf & Hall).
      split; [exact Hw |]. exists (ch :: new). split.
      * rewrite Hf, <- app_assoc. reflexivity.
      * constructor; [split; [left; reflexivity | exact Hr] |].
        eapply Forall_impl; [| exact Hall]. intros x [Hx Hrx].
        split; [right; exact Hx | exact Hrx].
    + apply IH in Hl. destruct Hl as (Hw & new & Hf & Hall).
      split; [exact Hw |]. exists new. split; [exact Hf |].
      eapply Forall_impl; [| exact Hall]. intros x [Hx Hrx].
      split; [right; exact Hx | exact Hrx].
Qed.

Lemma recordOutcome_found :
  forall c numKeys ch,
    recordOutcome c numKeys ch = Ok true ->
    exists b cp a found,
      hexDecodeString (CP ch) = Ok b
      /\ ParsePubKey b = Ok cp
      /\ ParseAddress (Addr ch) chainParams = Ok a
      /\ keyInCache c numKeys (EncodeAddress a) cp = Ok found.
Proof.
  intros c numKeys ch Hr. unfold recordOutcome in Hr.
  destruct (hexDecodeString (CP ch)) as [b | e | ] eqn:Hb;
    cbn [wrapErr bind] in Hr; try discriminate.
  destruct (ParsePubKey b) as [cp | e | ] eqn:Hcp;
    cbn [wrapErr bind] in Hr; try discriminate.
  destruct (ParseAddress (Addr ch) chainParams) as [a | e | ] eqn:Ha;
    cbn [bind] in Hr; try discriminate.
  destruct (keyInCache c numKeys (EncodeAddress a) cp) as [found | e | ]
    eqn:Hk; try discriminate.
  - exists b, cp, a, found. repeat split; assumption.
  - destruct (isAddrNotFound e); discriminate.
Qed.

(** One pass of the second loop, for a record whose outpoint, commit point
    and address parse. *)
Lemma checkAncientChannelPoints_loop_step :
  forall api numKeys ch rest targets w op b cp a,
    ParseOutpoint (OP ch) = Ok op ->
    hexDecodeString (CP ch) = Ok b ->
    ParsePubKey b = Ok cp ->
    ParseAddress (Addr ch) chainParams = Ok a ->
    checkAncientChannelPoints_loop api numKeys (ch :: rest) targets w
    = let w1 := logged (CallTransaction (HashString (opHash op))) w in
      match Transaction api (HashString (opHash op)) with
      | Ok tx =>
          match nth_error (txVout tx) (Z.to_nat (opIndex op)) with
          | Some vout =>
              match hexDecodeString (ScriptPubkey vout) with
              | Ok pkScript =>
                  match keyInCache (cache w) numKeys (EncodeAddress a) cp
                  with
                  | Ok found =>
                      checkAncientChannelPoints_loop api numKeys rest
                        (targets
                         ++ [ {| addr := a; keyDesc := fst found;
                                 tweak := snd found;
                                 utxos :=
                                   [ {| utxoOutPoint := op;
                                        utxoTxOut :=
                                          {| Value := int64 (voutValue vout);
                                             PkScript := pkScript |} |} ];
                                 script := []; scriptTree := None |} ]) w1
                  | Err e => (Err e, w1)
                  | Panic => (Panic, w1)
                  end
              | Err e =>
                  (Err (errWrap "could not decode script pubkey" e), w1)
              | Panic => (Panic, w1)
              end
          | None => (Panic, w1)
          end
      | Err e => (Err (errWrap "could not query transaction" e), w1)
      | Panic => (Panic, w1)
      end.
Proof.
  intros api numKeys ch rest targets w op b cp a Hop Hb Hcp Ha.
  cbn [checkAncientChannelPoints_loop].
  unfold mbind at 1. unfold lift at 1. rewrite Hop. cbn [wrapErr].
  unfold mbind at 1. unfold lift at 1. rewrite Hb. cbn [wrapErr].
  unfold mbind at 1. unfold lift at 1. rewrite Hcp. cbn [wrapErr].
  unfold mbind at 1. unfold lift at 1. rewrite Ha.
  unfold mbind at 1. unfold wrapM, callTransaction.
  destruct (Transaction api (HashString (opHash op))) as [tx | e | ];
    cbn [wrapErr]; try reflexivity.
  unfold mbind at 1. unfold lift at 1.
  destruct (nth_error (txVout tx) (Z.to_nat (opIndex op))) as [vout |];
    [| reflexivity].
  unfold mbind at 1. unfold lift at 1.
  destruct (hexDecodeString (ScriptPubkey vout)) as [pkScript | e | ];
    cbn [wrapErr]; reflexivity.
Qed.

(** The second pass over records the cache holds a key for: it fails only
    while looking a record up. *)
Lemma checkAncientChannelPoints_loop_found :
  forall api numKeys channels targets w r w',
    Forall (fun ch => recordOutcome (cache w) numKeys ch = Ok true)
      channels ->
    checkAncientChannelPoints_loop api numKeys channels targets w = (r, w') ->
    cache w' = cache w
    /\ match r with
       | Err e => lookupError e
       | _ => True
       end.
Proof.
  intros api numKeys.
  induction channels as [| ch rest IH]; intros targets w r w' Hall Hl.
  - cbn in Hl. inversion Hl; subst. split; [reflexivity | exact I].
  - apply Forall_cons_iff in Hall. destruct Hall as [Hch Hall].
    apply recordOutcome_found in Hch.
    destruct Hch as (b & cp & a & found & Hb & Hcp & Ha & Hk).
    destruct (ParseOutpoint (OP ch)) as [op | e | ] eqn:Hop.
    + rewrite (checkAncientChannelPoints_loop_step api numKeys ch rest
                 targets w op b cp a Hop Hb Hcp Ha) in Hl.
      cbv zeta in Hl.
      destruct (Transaction api (HashString (opHash op))) as [tx | e | ].
      * destruct (nth_error (txVout tx) (Z.to_nat (opIndex op)))
          as [vout |].
        -- destruct (hexDecodeString (ScriptPubkey vout))
             as [pkScript | e | ].
           ++ rewrite Hk in Hl. apply IH in Hl; [exact Hl | exact Hall].
           ++ inversion Hl; subst. split; [reflexivity |].
              exists "could not decode script pubkey"%string, e. tauto.
           ++ inversion Hl; subst. split; [reflexivity | exact I].
        -- inversion Hl; subst. split; [reflexivity | exact I].
      * inversion Hl; subst. split; [reflexivity |].
        exists "could not query transaction"%string, e. tauto.
      * inversion Hl; subst. split; [reflexivity | exact I].
    + cbn [checkAncientChannelPoints_loop] in Hl.
      unfold mbind at 1 in Hl. unfold lift at 1 in Hl. rewrite Hop in Hl.
      cbn [wrapErr] in Hl. inversion Hl; subst. split; [reflexivity |].
      exists "unable to parse outpoint"%string, e. tauto.
    + cbn [checkAncientChannelPoints_loop] in Hl.
      unfold mbind at 1 in Hl. unfold lift at 1 in Hl. rewrite Hop in Hl.
      cbn [wrapErr] in Hl. inversion Hl; subst. split; [reflexivity | exact I].
Qed.

(** What the second pass returns: one target per record, in order. *)
Lemma checkAncientChannelPoints_loop_Ok_inv :
  forall api numKeys channels targets w ts w',
    checkAncientChannelPoints_loop api numKeys channels targets w
    = (Ok ts, w') ->
    exists new,
      ts = targets ++ new
      /\ Forall2 (ancientTarget api (cache w) numKeys) channels new
      /\ cache w' = cache w
      /\ apiLog w' = apiLog w ++ flat_map ancientCall channels.
Proof.
  intros api numKeys.
  induction channels as [| ch rest IH]; intros targets w ts w' Hl.
  - cbn in Hl. inversion Hl; subst. exists []. rewrite !app_nil_r.
    repeat split; try reflexivity. constructor.
  - pose proof Hl as Hl0. cbn [checkAncientChannelPoints_loop] in Hl0.
    unfold mbind at 1 in Hl0. unfold lift at 1 in Hl0.
    destruct (ParseOutpoint (OP ch)) as [op | e | ] eqn:Hop;
      cbn [wrapErr] in Hl0; try discriminate.
    unfold mbind at 1 in Hl0. unfold lift at 1 in Hl0.
    destruct (hexDecodeString (CP ch)) as [b | e | ] eqn:Hb;
      cbn [wrapErr] in Hl0; try discriminate.
    unfold mbind at 1 in Hl0. unfold lift at 1 in Hl0.
    destruct (ParsePubKey b) as [cp | e | ] eqn:Hcp;
      cbn [wrapErr] in Hl0; try discriminate.
    unfold mbind at 1 in Hl0. unfold lift at 1 in Hl0.
    destruct (ParseAddress (Addr ch) chainParams) as [a | e | ] eqn:Ha;
      try discriminate.
    clear Hl0.
    rewrite (checkAncientChannelPoints_loop_step api numKeys ch rest
               targets w op b cp a Hop Hb Hcp Ha) in Hl.
    cbv zeta in Hl.
    destruct (Transaction api (HashString (opHash op))) as [tx | e | ]
      eqn:Htx; try discriminate.
    destruct (nth_error (txVout tx) (Z.to_nat (opIndex op))) as [vout |]
      eqn:Hv; try discriminate.
    destruct (hexDecodeString (ScriptPubkey vout)) as [pkScript | e | ]
      eqn:Hs; try discriminate.
    destruct (keyInCache (cache w) numKeys (EncodeAddress a) cp)
      as [found | e | ] eqn:Hk; try discriminate.
    apply IH in Hl. destruct Hl as (new & Hts & Hall & Hc & Hlog).
    cbn [cache logged] in Hall, Hc. cbn [apiLog logged] in Hlog.
    eexists (_ :: new). split; [| split; [| split]].
    + rewrite Hts, <- app_assoc. reflexivity.
    + constructor; [| exact Hall].
      exists op, b, cp, a, tx, vout, pkScript, found.
      repeat split; assumption.
    + exact Hc.
    + rewrite Hlog, <- app_assoc. cbn [flat_map]. unfold ancientCall at 2.
      rewrite Hop. reflexivity.
Qed.

End Ancient.

End AncientFacts.

Import AncientFacts.

(** A record of an ancient channel whose outpoint names an output the
    transaction does not have makes the check panic: when the record's
    outpoint, commit point and address parse and the explorer returns the
    transaction, an output index at or past the number of outputs is an
    index out of range, not an error. *)
Theorem ancient_outpoint_past_outputs_panics :
  forall {ec : Btcec} {hd : Hdkeychain} {bu : Btcutil} {env : SweepEnv}
         (api : ExplorerAPI) (numKeys : Z) (channel : ancientChannel)
         (rest : list ancientChannel) (targets : list targetAddr) (w : World)
         (op : OutPoint) (commitPointBytes : bytes) (commitPoint : PublicKey)
         (a : Address Params) (tx : TX),
    ParseOutpoint (OP channel) = Ok op ->
    hexDecodeString (CP channel) = Ok commitPointBytes ->
    ParsePubKey commitPointBytes = Ok commitPoint ->
    ParseAddress (Addr channel) chainParams = Ok a ->
    Transaction api (HashString (opHash op)) = Ok tx ->
    (length (txVout tx) <= Z.to_nat (opIndex op))%nat ->
    checkAncientChannelPoints_loop api numKeys (channel :: rest) targets w
    = (Panic, logged (CallTransaction (HashString (opHash op))) w).
Proof.
  intros ec hd bu env api numKeys channel rest targets w op commitPointBytes
    commitPoint a tx Hop Hb Hcp Ha Htx Hlen.
  rewrite (checkAncientChannelPoints_loop_step api numKeys channel rest
             targets w op commitPointBytes commitPoint a Hop Hb Hcp Ha).
  cbv zeta. rewrite Htx.
  apply nth_error_None in Hlen. rewrite Hlen. reflexivity.
Qed.

(** What the check of the ancient channels returns: one target per found
    record, in order, each with the record's address, the key and tweak of
    the cache, and exactly one output, the one the record's outpoint names
    in the explorer's transaction; no target has a script or a script tree.
    The explorer was asked for one transaction per record and the cache is
    as before. *)
Theorem ancient_targets_hold_one_output_each :
  forall {ec : Btcec} {hd : Hdkeychain} {bu : Btcutil} {env : SweepEnv}
         (api : ExplorerAPI) (numKeys : Z) (channels : list ancientChannel)
         (targets ts : list targetAddr) (w w' : World),
    checkAncientChannelPoints_loop api numKeys channels targets w
    = (Ok ts, w') ->
    exists new,
      ts = targets ++ new
      /\ Forall2 (ancientTarget api (cache w) numKeys) channels new
      /\ Forall (fun t => length (utxos t) = 1%nat
                          /\ script t = [] /\ scriptTree t = None) new
      /\ cache w' = cache w
      /\ apiLog w' = apiLog w ++ flat_map ancientCall channels.
Proof.
  intros ec hd bu env api numKeys channels targets ts w w' Hl.
  apply checkAncientChannelPoints_loop_Ok_inv in Hl.
  destruct Hl as (new & Hts & Hall & Hc & Hlog).
  exists new. split; [exact Hts |]. split; [exact Hall |].
  split; [| split; assumption].
  clear Hts Hlog. induction Hall as [| ch t chs new' Ht _ IH];
    constructor; [| exact IH].
  destruct Ht as (op & b & cp & a & tx & vout & s & found & _ & _ & _ & _ & _
                  & _ & _ & _ & Ht).
  subst t. repeat split; reflexivity.
Qed.

(** The second pass cannot miss: every record [findAncientChannels]
    returned was found in the cache, its commit point and address parsed,
    and the cache has not changed since.  So when
    [checkAncientChannelPoints] goes through those records, an error can
    only come from parsing the outpoint, from the explorer's transaction,
    or from decoding that transaction's script. *)
Theorem ancient_check_fails_only_while_looking_up :
  forall {ec : Btcec} {hd : Hdkeychain} {bu : Btcutil} {env : SweepEnv}
         (api : ExplorerAPI) (numKeys : Z) (key : ExtendedKey)
         (channels found : list ancientChannel) (targets : list targetAddr)
         (w w1 w2 : World) (r : result (list targetAddr)),
    findAncientChannels channels numKeys key w = (Ok found, w1) ->
    checkAncientChannelPoints_loop api numKeys found targets w1 = (r, w2) ->
    Forall (fun ch => In ch channels
                      /\ recordOutcome (cache w1) numKeys ch = Ok true) found
    /\ cache w2 = cache w1
    /\ match r with
       | Err e => lookupError e
       | _ => True
       end.
Proof.
  intros ec hd bu env api numKeys key channels found targets w w1 w2 r Hf Hl.
  unfold findAncientChannels in Hf. unfold mbind at 1 in Hf.
  unfold doFillCache in Hf.
  destruct (fillCache numKeys key (cache w)) as [c | e | ]; try discriminate.
  apply findAncientChannels_loop_Ok_inv in Hf.
  destruct Hf as (Hw & new & Hfound & Hall). cbn [app] in Hfound.
  subst new w1. cbn [cache] in *.
  split; [exact Hall |].
  apply (checkAncientChannelPoints_loop_found api numKeys found targets
           {| apiLog := apiLog w; cache := c |} r w2); [| exact Hl].
  cbn [cache]. eapply Forall_impl; [| exact Hall]. intros ch [_ H]. exact H.
Qed.

Module SweepExamples.

Import Model ModelKeys.

Lemma scan_targets_pay_to_their_own_key_witness :
  exists targets w',
    scan (explorer fundedAddress 50000) rootKey 5 emptyWorld
    = (Ok targets, w')
    /\ length targets = 1%nat
    /\ Forall scanTarget targets
    /\ Forall handled targets
    /\ Forall (fun t => 0 <= Index (keyLocator (keyDesc t)) < 5) targets.
Proof.
  assert (Hlen : length (match fst (scan (explorer fundedAddress 50000)
                                      rootKey 5 emptyWorld) with
                         | Ok ts => ts
                         | _ => []
                         end) = 1%nat) by (vm_compute; reflexivity).
  destruct (scan (explorer fundedAddress 50000) rootKey 5 emptyWorld)
    as [[targets | e | ] w'] eqn:Hs; cbn [fst] in Hlen; try discriminate Hlen.
  exists targets, w'. split; [reflexivity |]. split; [exact Hlen |].
  exact (scan_targets_pay_to_their_own_key (explorer fundedAddress 50000)
           rootKey 5 emptyWorld w' targets Hs).
Defined.

Lemma unhandled_address_panics_when_signing_witness :
  exists st,
    addTargets [legacyTarget 1000] (initialState sampleEstimator) = Ok st
    /\ In (legacyTarget 1000) [legacyTarget 1000]
    /\ unhandledAddress (addr (legacyTarget 1000)) = true
    /\ utxos (legacyTarget 1000) <> []
    /\ sweepDustLimit <= totalOutputValue st
    /\ signDescs st = [] ++ None :: []
    /\ In None (signDescs st)
    /\ buildAndSign rootKey [legacyTarget 1000] sampleEstimator [0; 20] 10
       = Panic.
Proof.
  assert (Hok : isOk (addTargets [legacyTarget 1000]
                        (initialState sampleEstimator)) = true)
    by reflexivity.
  destruct (addTargets [legacyTarget 1000] (initialState sampleEstimator))
    as [st | e | ] eqn:Hadd; try discriminate Hok.
  assert (Hin : In (legacyTarget 1000) [legacyTarget 1000])
    by (left; reflexivity).
  assert (Hun : unhandledAddress (addr (legacyTarget 1000)) = true)
    by reflexivity.
  assert (Hne : utxos (legacyTarget 1000) <> []) by discriminate.
  assert (Hst : sweepDustLimit <= totalOutputValue st
                /\ signDescs st = [] ++ None :: []).
  { cbn in Hadd. inversion Hadd. split; [| reflexivity].
    cbn. unfold sweepDustLimit, uint64. cbn. lia. }
  destruct Hst as [Hdust Hdescs].
  pose proof (unhandled_address_panics_when_signing rootKey
                [legacyTarget 1000] sampleEstimator [0; 20] 10 st
                (legacyTarget 1000) Hadd Hin Hun Hne) as (Hnil & _ & Hpanic).
  exists st. split; [reflexivity |]. split; [exact Hin |].
  split; [exact Hun |]. split; [exact Hne |]. split; [exact Hdust |].
  split; [exact Hdescs |]. split; [exact Hnil |].
  exact (Hpanic [] [] _ Hdust Hdescs eq_refl).
Defined.

Lemma builder_returns_for_witness_targets_witness :
  Forall handled [p2wkhTarget 50000; anchorTarget 3000; taprootTarget 4000]
  /\ (forall tree, CtrlBlockForPathSuccess tree <> Panic)
  /\ (forall cb, ToBytes cb <> Panic)
  /\ (forall d f tx, TaprootCommitSpendSuccess rootKey d f tx <> Panic)
  /\ (forall d f tx, CommitSpendToRemoteConfirmed rootKey d f tx <> Panic)
  /\ (forall d f tx b, CommitSpendNoDelay rootKey d f tx b <> Panic)
  /\ buildAndSign rootKey
       [p2wkhTarget 50000; anchorTarget 3000; taprootTarget 4000]
       sampleEstimator [0; 20] 10
     <> Panic.
Proof.
  assert (Hh : Forall handled
                 [p2wkhTarget 50000; anchorTarget 3000; taprootTarget 4000]).
  { repeat (apply Forall_cons; [cbn; first [exact I | discriminate] |]).
    apply Forall_nil. }
  assert (Hcb : forall tree, CtrlBlockForPathSuccess tree <> Panic)
    by (intros; discriminate).
  assert (Htb : forall cb, ToBytes cb <> Panic) by (intros; discriminate).
  assert (Ht : forall d f tx, TaprootCommitSpendSuccess rootKey d f tx <> Panic)
    by (intros; discriminate).
  assert (Hc : forall d f tx,
             CommitSpendToRemoteConfirmed rootKey d f tx <> Panic)
    by (intros; discriminate).
  assert (Hn : forall d f tx b, CommitSpendNoDelay rootKey d f tx b <> Panic)
    by (intros; discriminate).
  repeat (split; [assumption |]).
  exact (builder_returns_for_witness_targets rootKey
           [p2wkhTarget 50000; anchorTarget 3000; taprootTarget 4000]
           sampleEstimator [0; 20] 10 Hh Hcb Htb Ht Hc Hn).
Defined.

Lemma inputs_are_signed_by_script_and_method_witness :
  exists st',
    addUtxo (p2wkhTarget 50000) (sampleUtxo 50000)
      (initialState sampleEstimator)
    = Ok st'
    /\ signDescs st'
       = [Some (v0Descriptor (p2wkhTarget 50000) (sampleUtxo 50000) [] 0)]
    /\ signInput rootKey []
         (withSigning
            (v0Descriptor (p2wkhTarget 50000) (sampleUtxo 50000) [] 0) tt 0)
         (NewMsgTx 2)
       = CommitSpendNoDelay rootKey
           (withWitnessScript
              (withSigning
                 (v0Descriptor (p2wkhTarget 50000) (sampleUtxo 50000) [] 0)
                 tt 0)
              (PkScript (utxoTxOut (sampleUtxo 50000)))) [] (NewMsgTx 2) true.
Proof.
  assert (Hok : isOk (addUtxo (p2wkhTarget 50000) (sampleUtxo 50000)
                        (initialState sampleEstimator)) = true)
    by reflexivity.
  destruct (addUtxo (p2wkhTarget 50000) (sampleUtxo 50000)
              (initialState sampleEstimator)) as [st' | e | ] eqn:Hadd;
    try discriminate Hok.
  exists st'. split; [reflexivity |].
  exact (inputs_are_signed_by_script_and_method rootKey (p2wkhTarget 50000)
           (sampleUtxo 50000) (initialState sampleEstimator) st' [] tt 0%nat
           (NewMsgTx 2) Hadd).
Defined.

Lemma ancient_outpoint_past_outputs_panics_witness :
  exists op commitPointBytes commitPoint a tx,
    ParseOutpoint (OP foundRecord) = Ok op
    /\ hexDecodeString (CP foundRecord) = Ok commitPointBytes
    /\ ParsePubKey commitPointBytes = Ok commitPoint
    /\ ParseAddress (Addr foundRecord) chainParams = Ok a
    /\ Transaction emptyExplorer (HashString (opHash op)) = Ok tx
    /\ (length (txVout tx) <= Z.to_nat (opIndex op))%nat
    /\ checkAncientChannelPoints_loop emptyExplorer 5 [foundRecord] []
         emptyWorld
       = (Panic, logged (CallTransaction (HashString (opHash op))) emptyWorld).
Proof.
  assert (Hop : isOk (ParseOutpoint (OP foundRecord)) = true) by reflexivity.
  destruct (ParseOutpoint (OP foundRecord)) as [op | e | ] eqn:Ho;
    try discriminate Hop.
  assert (Hb : isOk (hexDecodeString (CP foundRecord)) = true) by reflexivity.
  destruct (hexDecodeString (CP foundRecord)) as [b | e | ] eqn:Hbb;
    try discriminate Hb.
  assert (Hcp : isOk (ParsePubKey b) = true).
  { cbn in Hbb. inversion Hbb. reflexivity. }
  destruct (ParsePubKey b) as [cp | e | ] eqn:Hcpp; try discriminate Hcp.
  assert (Ha : isOk (ParseAddress (Addr foundRecord) chainParams) = true)
    by reflexivity.
  destruct (ParseAddress (Addr foundRecord) chainParams) as [a | e | ]
    eqn:Haa; try discriminate Ha.
  assert (Htx : Transaction emptyExplorer (HashString (opHash op))
                = Ok {| txVout := [] |}) by reflexivity.
  assert (Hlen : (length (txVout {| txVout := [] |})
                  <= Z.to_nat (opIndex op))%nat) by (cbn; lia).
  exists op, b, cp, a, {| txVout := [] |}.
  repeat (split; [first [reflexivity | assumption] |]).
  exact (ancient_outpoint_past_outputs_panics emptyExplorer 5 foundRecord []
           [] emptyWorld op b cp a {| txVout := [] |} Ho Hbb Hcpp Haa Htx
           Hlen).
Defined.

Lemma ancient_targets_hold_one_output_each_witness :
  exists ts w' new,
    checkAncientChannelPoints_loop (explorer fundedAddress 50000) 5
      [foundRecord] [] emptyWorld
    = (Ok ts, w')
    /\ ts = [] ++ new
    /\ length new = 1%nat
    /\ Forall (fun t => length (utxos t) = 1%nat
                        /\ script t = [] /\ scriptTree t = None) new
    /\ cache w' = cache emptyWorld.
Proof.
  assert (Hok : isOk (fst (checkAncientChannelPoints_loop
                             (explorer fundedAddress 50000) 5 [foundRecord]
                             [] emptyWorld)) = true)
    by (vm_compute; reflexivity).
  destruct (checkAncientChannelPoints_loop (explorer fundedAddress 50000) 5
              [foundRecord] [] emptyWorld) as [[ts | e | ] w'] eqn:Hl;
    try discriminate Hok.
  destruct (ancient_targets_hold_one_output_each
              (explorer fundedAddress 50000) 5 [foundRecord] [] ts
              emptyWorld w' Hl) as (new & Hts & Hall & Hshape & Hc & _).
  exists ts, w', new. split; [reflexivity |]. split; [exact Hts |].
  split; [symmetry; exact (Forall2_length Hall) |].
  split; [exact Hshape | exact Hc].
Defined.

Lemma ancient_check_fails_only_while_looking_up_witness :
  exists found w1 r w2,
    findAncientChannels [lostRecord; foundRecord] 5 rootKey emptyWorld
    = (Ok found, w1)
    /\ checkAncientChannelPoints_loop emptyExplorer 5 found [] w1 = (r, w2)
    /\ Forall (fun ch => In ch [lostRecord; foundRecord]
                         /\ recordOutcome (cache w1) 5 ch = Ok true) found
    /\ cache w2 = cache w1.
Proof.
  assert (Hok : isOk (fst (findAncientChannels [lostRecord; foundRecord] 5
                             rootKey emptyWorld)) = true)
    by (vm_compute; reflexivity).
  destruct (findAncientChannels [lostRecord; foundRecord] 5 rootKey emptyWorld)
    as [[found | e | ] w1] eqn:Hf; try discriminate Hok.
  destruct (checkAncientChannelPoints_loop emptyExplorer 5 found [] w1)
    as [r w2] eqn:Hl.
  destruct (ancient_check_fails_only_while_looking_up emptyExplorer 5 rootKey
              [lostRecord; foundRecord] found [] emptyWorld w1 w2 r Hf Hl)
    as (Hall & Hc & _).
  exists found, w1, r, w2. repeat split; assumption || reflexivity.
Defined.

End SweepExamples.

(** ** More on [FundingKey], [HardenedKey] and [DeriveChildren] *)

Module ClnSaltFacts.

Import Lnd Cln ClnSalt ClnFacts.

Section Salt.

Context {ec : Btcec} {kdf : Hkdf}.

Lemma copyInto_length :
  forall dst lo hi src,
    (lo <= length dst)%nat ->
    length (copyInto dst lo hi src) = length dst.
Proof.
  intros dst lo hi src Hlo. unfold copyInto.
  rewrite !length_app, !length_firstn, length_skipn. lia.
Qed.

Lemma app_same_length_inj :
  forall (A : Type) (a b c d : list A),
    length a = length b -> a ++ c = b ++ d -> a = b /\ c = d.
Proof.
  intros A. induction a as [| x a IH]; intros b c d Hl He;
    destruct b as [| y b]; cbn in Hl; try discriminate.
  - split; [reflexivity | exact He].
  - cbn in He. injection He as Hx He.
    destruct (IH b c d ltac:(lia) He) as [Ha Hc]. subst.
    split; reflexivity.
Qed.

Lemma peerAndChannel_returns :
  forall P n, exists salt,
    peerAndChannel P n = Ok salt /\ length salt = 41%nat.
Proof.
  intros P n. unfold peerAndChannel, PutUint64. cbv zeta.
  assert (Hl : length (copyInto (make (33 + 8)) 0 33 (SerializeCompressed P))
               = 41%nat).
  { rewrite copyInto_length; [| lia]. unfold make. apply repeat_length. }
  destruct (33 + 8 <=? length (copyInto (make (33 + 8)) 0 33
                                (SerializeCompressed P)))%nat eqn:Hc.
  - eexists. split; [reflexivity |].
    rewrite !length_app, length_firstn, length_skipn, Hl. cbn [length]. lia.
  - apply Nat.leb_gt in Hc. rewrite Hl in Hc. lia.
Qed.

Lemma peerAndChannel_value :
  forall P n,
    length (SerializeCompressed P) = 33%nat ->
    peerAndChannel P n = Ok (SerializeCompressed P ++ littleEndian 8 n).
Proof.
  intros P n Hlen. unfold peerAndChannel. cbv zeta.
  rewrite (copyInto_front 33 8) by exact Hlen.
  rewrite <- Hlen at 1. rewrite PutUint64_tail. reflexivity.
Qed.

Lemma FundingKey_salt :
  forall secret P n,
    FundingKey secret P n
    = bind (HkdfSha256 secret [] InfoPeerSeed) (fun channelBase =>
      bind (peerAndChannel P n) (fun salt =>
      bind (HkdfSha256 channelBase salt InfoPerPeer) (fun channelSeed =>
      bind (HkdfSha256 channelSeed [] InfoCLightning) (fun fundingKey =>
      Ok (PubKey (PrivKeyFromBytes fundingKey)))))).
Proof. reflexivity. Qed.

Lemma HkdfSha256_length :
  forall key salt info out,
    HkdfSha256 key salt info = Ok out -> length out = 32%nat.
Proof.
  intros key salt info out H. unfold HkdfSha256 in H.
  destruct (hkdfRead key salt info 32) as [read | e | ]; cbn [bind] in H;
    try discriminate.
  inversion H; subst out. rewrite copyInto_length; [| lia].
  unfold make. apply repeat_length.
Qed.

Lemma HkdfSha256_outcome :
  forall key salt info,
    match HkdfSha256 key salt info with
    | Ok _ => True
    | Err e => hkdfRead key salt info 32 = Err e
    | Panic => hkdfRead key salt info 32 = Panic
    end.
Proof.
  intros key salt info. unfold HkdfSha256.
  destruct (hkdfRead key salt info 32); cbn [bind]; auto.
Qed.

End Salt.

End ClnSaltFacts.

Import ClnSalt ClnSaltFacts.

(** The salt of the second expansion keeps peers and channels apart: for
    keys whose compressed serialization has 33 bytes and channel numbers
    within [uint64], [FundingKey] salts the second expansion with 41 bytes
    that are the same for two calls only if the serializations are the same
    and the channel numbers are equal. *)
Theorem funding_salt_separates_peers_and_channels :
  forall {ec : Btcec} {kdf : Hkdf} (P Q : PublicKey) (n m : Z),
    length (SerializeCompressed P) = 33%nat ->
    length (SerializeCompressed Q) = 33%nat ->
    0 <= n < 2 ^ 64 ->
    0 <= m < 2 ^ 64 ->
    exists s t,
      peerAndChannel P n = Ok s
      /\ peerAndChannel Q m = Ok t
      /\ length s = 41%nat
      /\ (s = t <-> SerializeCompressed P = SerializeCompressed Q /\ n = m)
      /\ forall secret,
           FundingKey secret P n
           = bind (HkdfSha256 secret [] InfoPeerSeed) (fun channelBase =>
             bind (HkdfSha256 channelBase s InfoPerPeer) (fun channelSeed =>
             bind (HkdfSha256 channelSeed [] InfoCLightning)
               (fun fundingKey =>
             Ok (PubKey (PrivKeyFromBytes fundingKey))))).
Proof.
  intros ec kdf P Q n m HP HQ Hn Hm.
  exists (SerializeCompressed P ++ littleEndian 8 n),
         (SerializeCompressed Q ++ littleEndian 8 m).
  split; [apply peerAndChannel_value; exact HP |].
  split; [apply peerAndChannel_value; exact HQ |].
  split.
  { rewrite length_app, HP. reflexivity. }
  split.
  - split.
    + intros Heq.
      assert (Hboth : SerializeCompressed P = SerializeCompressed Q
                      /\ littleEndian 8 n = littleEndian 8 m).
      { apply app_same_length_inj; [| exact Heq].
        rewrite HP, HQ. reflexivity. }
      destruct Hboth as [Hser Hle]. split; [exact Hser |].
      rewrite <- (littleEndian_value 8 n), <- (littleEndian_value 8 m), Hle
        by (change (256 ^ Z.of_nat 8) with (2 ^ 64); assumption).
      reflexivity.
    + intros [Hser Hnm]. rewrite Hser, Hnm. reflexivity.
  - intros secret. rewrite FundingKey_salt.
    rewrite (peerAndChannel_value P n HP). reflexivity.
Qed.

(** [FundingKey] fails only when an HKDF read does: whatever the secret,
    the key (also one whose serialization is not 33 bytes long) and the
    channel number, the copy and the eight stores stay within the 41 bytes,
    so when no read of the expander panics [FundingKey] does not panic, and
    an error it returns is the error of a read.  Every [HkdfSha256] result
    has 32 bytes. *)
Theorem FundingKey_fails_only_with_hkdf :
  forall {ec : Btcec} {kdf : Hkdf} (hsmSecret : bytes)
         (peerPubKey : PublicKey) (channelNum : Z),
    (forall key salt info, hkdfRead key salt info 32 <> Panic) ->
    FundingKey hsmSecret peerPubKey channelNum <> Panic
    /\ (forall e,
          FundingKey hsmSecret peerPubKey channelNum = Err e ->
          exists key salt info, hkdfRead key salt info 32 = Err e)
    /\ (forall key salt info out,
          HkdfSha256 key salt info = Ok out -> length out = 32%nat).
Proof.
  intros ec kdf hsmSecret peerPubKey channelNum Hread.
  split; [| split; [| apply HkdfSha256_length]].
  - rewrite FundingKey_salt.
    pose proof (HkdfSha256_outcome hsmSecret [] InfoPeerSeed) as H1.
    destruct (HkdfSha256 hsmSecret [] InfoPeerSeed) as [base | e | ];
      cbn [bind]; [| discriminate | exfalso; exact (Hread _ _ _ H1)].
    destruct (peerAndChannel_returns peerPubKey channelNum)
      as (salt & Hs & _).
    rewrite Hs. cbn [bind].
    pose proof (HkdfSha256_outcome base salt InfoPerPeer) as H2.
    destruct (HkdfSha256 base salt InfoPerPeer) as [seed | e | ];
      cbn [bind]; [| discriminate | exfalso; exact (Hread _ _ _ H2)].
    pose proof (HkdfSha256_outcome seed [] InfoCLightning) as H3.
    destruct (HkdfSha256 seed [] InfoCLightning) as [fk | e | ];
      cbn [bind]; [discriminate | discriminate | exfalso; exact (Hread _ _ _ H3)].
  - intros e He. rewrite FundingKey_salt in He.
    pose proof (HkdfSha256_outcome hsmSecret [] InfoPeerSeed) as H1.
    destruct (HkdfSha256 hsmSecret [] InfoPeerSeed) as [base | e1 | ];
      cbn [bind] in He; try discriminate.
    2: { inversion He; subst e1. eexists. eexists. eexists. exact H1. }
    destruct (peerAndChannel_returns peerPubKey channelNum)
      as (salt & Hs & _).
    rewrite Hs in He. cbn [bind] in He.
    pose proof (HkdfSha256_outcome base salt InfoPerPeer) as H2.
    destruct (HkdfSha256 base salt InfoPerPeer) as [seed | e2 | ];
      cbn [bind] in He; try discriminate.
    2: { inversion He; subst e2. eexists. eexists. eexists. exact H2. }
    pose proof (HkdfSha256_outcome seed [] InfoCLightning) as H3.
    destruct (HkdfSha256 seed [] InfoCLightning) as [fk | e3 | ];
      cbn [bind] in He; try discriminate.
    inversion He; subst e3. eexists. eexists. eexists. exact H3.
Qed.

(** [HardenedKey] adds [2^31] in [uint32] and does not check its argument:
    for an index within [uint32] the result is within [uint32], the index
    [DeriveChildren] reads back from it is the argument, a plain index
    becomes a hardened one, and an index that is already hardened wraps
    around to the plain index, so hardening twice changes nothing. *)
Theorem HardenedKey_wraps_around :
  forall key : Z,
    0 <= key < 2 ^ 32 ->
    0 <= HardenedKey key < 2 ^ 32
    /\ keyID (HardenedKey key) = key
    /\ HardenedKey (HardenedKey key) = key
    /\ (key < HardenedKeyStart ->
        HardenedKey key = key + HardenedKeyStart)
    /\ (HardenedKeyStart <= key ->
        HardenedKey key = key - HardenedKeyStart).
Proof.
  intros key Hk.
  unfold keyID, HardenedKey, add32, sub32, uint32, HardenedKeyStart.
  assert (H31 : 2 ^ 32 = 2 * 2 ^ 31) by reflexivity.
  assert (Hcases : (key + 2 ^ 31) mod 2 ^ 32
                   = if key <? 2 ^ 31 then key + 2 ^ 31 else key - 2 ^ 31).
  { destruct (key <? 2 ^ 31) eqn:Hlt;
      [apply Z.ltb_lt in Hlt | apply Z.ltb_ge in Hlt].
    - apply Z.mod_small. lia.
    - symmetry. apply (Z.mod_unique _ _ 1); lia. }
  rewrite Hcases.
  destruct (key <? 2 ^ 31) eqn:Hlt;
    [apply Z.ltb_lt in Hlt | apply Z.ltb_ge in Hlt].
  - split; [lia |]. split.
    + replace (key + 2 ^ 31 - 2 ^ 31) with key by lia.
      apply Z.mod_small. lia.
    + split; [| split; [reflexivity | lia]].
      replace (key + 2 ^ 31 + 2 ^ 31) with (key + 1 * 2 ^ 32) by lia.
      rewrite Z.mod_add by lia. apply Z.mod_small. lia.
  - split; [lia |]. split.
    + symmetry. apply (Z.mod_unique _ _ (-1)); lia.
    + split; [| split; [lia | reflexivity]].
      replace (key - 2 ^ 31 + 2 ^ 31) with key by lia.
      apply Z.mod_small. lia.
Qed.

(** [DeriveChildren] reads no segment past the end of the path: given the
    depth laws of [hdkeychain], when the derivation and the parsing of a
    serialized key return, [DeriveChildren] ends with a key or an error,
    never with an index out of range; and an error it returns is the
    error of a derivation or of the parsing of a serialized key. *)
Theorem DeriveChildren_stays_within_the_path :
  forall {ec : Btcec} {hd : Hdkeychain} (key : ExtendedKey) (path : list Z),
    depthLaws ->
    (forall k i, DeriveNonStandard k i <> Panic) ->
    (forall s, NewKeyFromString s <> Panic) ->
    DeriveChildren key path <> Panic
    /\ (forall e,
          DeriveChildren key path = Err e ->
          (exists k i, DeriveNonStandard k i = Err e)
          \/ (exists s, NewKeyFromString s = Err e)).
Proof.
  intros ec hd key path Hlaws Hder Hnew.
  unfold DeriveChildren.
  rewrite (DeriveFacts.DeriveChildren_loop_rule Hlaws path path 0 key)
    by (destruct Hlaws as (Hnonneg & _ & _); apply Hnonneg).
  generalize 0%nat as idx. generalize path at 2 4 as rest.
  intros rest. revert key.
  induction rest as [| pathPart rest IH]; intros key idx.
  - cbn. split; [discriminate | intros e He; discriminate].
  - cbn [deriveBy].
    pose proof (Hder key pathPart) as Hd.
    destruct (DeriveNonStandard key pathPart) as [d | e1 | ] eqn:Hde;
      cbn [bind]; [| | contradiction Hd; reflexivity].
    + destruct (roundTripRule (Depth d) path idx pathPart).
      * pose proof (Hnew (KeyString d)) as Hn.
        destruct (NewKeyFromString (KeyString d)) as [r | e2 | ] eqn:Hne;
          cbn [bind]; [apply IH | | contradiction Hn; reflexivity].
        split; [discriminate |]. intros e He. inversion He; subst e2.
        right. exists (KeyString d). exact Hne.
      * apply IH.
    + split; [discriminate |]. intros e He. inversion He; subst e1.
      left. exists key, pathPart. exact Hde.
Qed.

Module MoreExamples.

Import Model ModelKeys.

Lemma funding_salt_separates_peers_and_channels_witness :
  length (SerializeCompressed (descPubKey sampleKeyDesc)) = 33%nat
  /\ 0 <= 1 < 2 ^ 64
  /\ 0 <= 2 < 2 ^ 64
  /\ exists s t,
       peerAndChannel (descPubKey sampleKeyDesc) 1 = Ok s
       /\ peerAndChannel (descPubKey sampleKeyDesc) 2 = Ok t
       /\ length s = 41%nat
       /\ (s = t <->
           SerializeCompressed (descPubKey sampleKeyDesc)
           = SerializeCompressed (descPubKey sampleKeyDesc) /\ 1 = 2).
Proof.
  assert (Hl : length (SerializeCompressed (descPubKey sampleKeyDesc))
               = 33%nat) by reflexivity.
  assert (H1 : 0 <= 1 < 2 ^ 64) by (split; [lia | reflexivity]).
  assert (H2 : 0 <= 2 < 2 ^ 64) by (split; [lia | reflexivity]).
  split; [exact Hl |]. split; [exact H1 |]. split; [exact H2 |].
  destruct (funding_salt_separates_peers_and_channels
              (descPubKey sampleKeyDesc) (descPubKey sampleKeyDesc) 1 2
              Hl Hl H1 H2) as (s & t & Hs & Ht & Hlen & Hiff & _).
  exists s, t. split; [exact Hs |]. split; [exact Ht |].
  split; [exact Hlen | exact Hiff].
Defined.

Lemma FundingKey_fails_only_with_hkdf_witness :
  (forall key salt info, hkdfRead key salt info 32 <> Panic)
  /\ FundingKey (repeat 63 32) (descPubKey sampleKeyDesc) 1 <> Panic.
Proof.
  assert (Hread : forall key salt info, hkdfRead key salt info 32 <> Panic)
    by (intros; discriminate).
  split; [exact Hread |].
  exact (proj1 (FundingKey_fails_only_with_hkdf (repeat 63 32)
                  (descPubKey sampleKeyDesc) 1 Hread)).
Defined.

Lemma HardenedKey_wraps_around_witness :
  0 <= 2147483653 < 2 ^ 32
  /\ HardenedKey 2147483653 = 5
  /\ HardenedKey (HardenedKey 2147483653) = 2147483653.
Proof.
  assert (Hk : 0 <= 2147483653 < 2 ^ 32) by (split; [lia | reflexivity]).
  pose proof (HardenedKey_wraps_around 2147483653 Hk)
    as (_ & _ & Htwice & _ & Hwrap).
  split; [exact Hk |]. split; [| exact Htwice].
  assert (Hhard : HardenedKeyStart <= 2147483653)
    by (unfold HardenedKeyStart; discriminate).
  rewrite (Hwrap Hhard). reflexivity.
Defined.

Lemma DeriveChildren_stays_within_the_path_witness :
  @depthLaws btcec hdkeychain
  /\ (forall k i, DeriveNonStandard k i <> Panic)
  /\ (forall s, NewKeyFromString s <> Panic)
  /\ DeriveChildren rootKey [2147484665; 2147483648; 2147483651; 0; 3]
     <> Panic.
Proof.
  assert (Hder : forall k i, DeriveNonStandard k i <> Panic)
    by (intros; discriminate).
  assert (Hnew : forall s, NewKeyFromString s <> Panic)
    by (intros; discriminate).
  split; [exact DeriveFacts.model_depthLaws |]. split; [exact Hder |].
  split; [exact Hnew |].
  exact (proj1 (DeriveChildren_stays_within_the_path rootKey
                  [2147484665; 2147483648; 2147483651; 0; 3]
                  DeriveFacts.model_depthLaws Hder Hnew)).
Defined.

End MoreExamples.

(** ** The whole session *)

Module EndToEndFacts.

Import GoStrings Lnd Sweep SweepLog BuildFacts.

Section EndToEnd.

Context {ec : Btcec} {hd : Hdkeychain} {bu : Btcutil} {env : SweepEnv}.
Context {signing : Signing}.

(** A transaction the builder returns spends the outputs of the targets in
    order and has one output, which pays the sweep script. *)
Lemma buildAndSign_shape :
  forall key targets est sweepScript feeRate tx,
    buildAndSign key targets est sweepScript feeRate = Ok tx ->
    map PkScript (txOut tx) = [sweepScript]
    /\ map PreviousOutPoint (txIn tx)
       = map (fun au => utxoOutPoint (snd au)) (inputsOf targets)
    /\ targets <> [].
Proof.
  intros key targets est sweepScript feeRate tx Hb.
  assert (Hne : targets <> []).
  { intro Hnil. subst targets. cbn in Hb. discriminate. }
  apply buildAndSign_Ok_inv in Hb. destruct Hb as (st & Hadd & _ & Hsign).
  unfold signSweep in Hsign. apply signLoop_Ok in Hsign.
  destruct Hsign as (Hout & _ & Hprev).
  pose proof (addTargets_Ok _ _ _ Hadd) as (Hin & _).
  cbn [sweepTx initialState NewMsgTx txIn app] in Hin.
  split; [| split; [| exact Hne]].
  - rewrite Hout. reflexivity.
  - rewrite Hprev. unfold withSweepOutput. cbn [txIn withOutputs].
    rewrite Hin, map_map. reflexivity.
Qed.

End EndToEnd.

End EndToEndFacts.

Import EndToEndFacts.

(** What a session that published has done: the sweep address was
    prepared, the scan returned its targets, the check of the ancient
    channels, run in the state the scan left, returned its targets (none
    when it ended with an address that was not found), and the one publish
    request, the last request of the session, carries the serialized
    transaction that spends exactly the outputs of the scanned targets
    followed by those of the ancient channels, in order, and whose only
    output pays the script prepared for the sweep address.  The targets of
    the scan pay to keys of the payment base family, and all requests
    before the publish request were lookups. *)
Theorem published_sweep_pays_only_the_sweep_script :
  forall {ec : Btcec} {hd : Hdkeychain} {bu : Btcutil} {env : SweepEnv}
         {signing : Signing} (extendedKey : ExtendedKey) (api : ExplorerAPI)
         (sweepAddr : gostring) (recoveryWindow feeRate : Z) (w w' : World),
    sweepRemoteClosed extendedKey api sweepAddr recoveryWindow feeRate true w
    = (Ok tt, w') ->
    exists sweepScript est scanned w1 ancient w2 tx buf lookups,
      PrepareWalletAddress sweepAddr chainParams newEstimator extendedKey
      = Ok (sweepScript, est)
      /\ scan api extendedKey recoveryWindow w = (Ok scanned, w1)
      /\ Forall scanTarget scanned
      /\ (checkAncientChannelPoints api recoveryWindow extendedKey w1
          = (Ok ancient, w2)
          \/ exists e,
               checkAncientChannelPoints api recoveryWindow extendedKey w1
               = (Err e, w2)
               /\ isAddrNotFound e = true /\ ancient = [])
      /\ buildAndSign extendedKey (scanned ++ ancient) est sweepScript
           feeRate
         = Ok tx
      /\ Serialize tx = Ok buf
      /\ map PkScript (txOut tx) = [sweepScript]
      /\ map PreviousOutPoint (txIn tx)
         = map (fun au => utxoOutPoint (snd au))
             (inputsOf (scanned ++ ancient))
      /\ forallb isLookup lookups = true
      /\ apiLog w'
         = apiLog w ++ lookups ++ [CallPublishTx (hexEncodeToString buf)].
Proof.
  intros ec hd bu env signing extendedKey api sweepAddr recoveryWindow
    feeRate w w' Hs.
  destruct (PrepareWalletAddress sweepAddr chainParams newEstimator
              extendedKey) as [[sweepScript est] | e | ] eqn:Hprep.
  2, 3: unfold sweepRemoteClosed, mbind, lift in Hs; rewrite Hprep in Hs;
    discriminate.
  rewrite (sweepRemoteClosed_stages extendedKey api sweepAddr recoveryWindow
             feeRate true w sweepScript est Hprep) in Hs.
  destruct (looksUpOnly_scanLoop api extendedKey (Z.to_nat recoveryWindow) 0
              [] w) as (c1 & H1 & Hl1).
  fold (scan api extendedKey recoveryWindow) in H1.
  destruct (scan api extendedKey recoveryWindow w) as [[scanned | e | ] w1]
    eqn:Hscan; try discriminate.
  cbn [snd] in H1.
  destruct (looksUpOnly_ancientTargets api recoveryWindow extendedKey w1)
    as (c2 & H2 & Hl2).
  destruct (ancientTargets api recoveryWindow extendedKey w1)
    as [[ancient | e | ] w2] eqn:Hanc; try discriminate.
  cbn [snd] in H2.
  assert (Hcheck :
            checkAncientChannelPoints api recoveryWindow extendedKey w1
            = (Ok ancient, w2)
            \/ exists e,
                 checkAncientChannelPoints api recoveryWindow extendedKey w1
                 = (Err e, w2)
                 /\ isAddrNotFound e = true /\ ancient = []).
  { unfold ancientTargets in Hanc.
    destruct (checkAncientChannelPoints api recoveryWindow extendedKey w1)
      as [[ts | e | ] w3]; try discriminate.
    - inversion Hanc; subst ts w3. left. reflexivity.
    - destruct (isAddrNotFound e) eqn:Hnf; try discriminate.
      inversion Hanc; subst ancient w3. right. exists e.
      split; [reflexivity |]. split; [exact Hnf | reflexivity]. }
  unfold finishSweep, mbind, lift, callPublishTx, ret in Hs.
  destruct (buildAndSign extendedKey (scanned ++ ancient) est sweepScript
              feeRate) as [tx | e | ] eqn:Hb; try discriminate.
  destruct (Serialize tx) as [buf | e | ] eqn:Hser; try discriminate.
  destruct (PublishTx api (hexEncodeToString buf)) as [resp | e | ];
    try discriminate.
  inversion Hs; subst w'. clear Hs.
  destruct (buildAndSign_shape _ _ _ _ _ _ Hb) as (Hout & Hprev & _).
  exists sweepScript, est, scanned, w1, ancient, w2, tx, buf, (c1 ++ c2).
  split; [first [exact Hprep | reflexivity] |].
  split; [reflexivity |].
  split.
  { exact (proj1 (scan_targets_shape api extendedKey
                    recoveryWindow w w1 scanned Hscan)). }
  split; [exact Hcheck |].
  split; [exact Hb |]. split; [exact Hser |].
  split; [exact Hout |]. split; [exact Hprev |].
  split; [rewrite forallb_app, Hl1, Hl2; reflexivity |].
  cbn [apiLog logged]. rewrite H2, H1, <- !app_assoc. reflexivity.
Qed.

Module EndToEndExamples.

Import Model ModelKeys.

Lemma published_sweep_pays_only_the_sweep_script_witness :
  exists w' sweepScript scanned w1 ancient w2 tx buf lookups,
    sweepRemoteClosed rootKey (explorer fundedAddress 50000) (str "qdest") 5
      10 true emptyWorld
    = (Ok tt, w')
    /\ scan (explorer fundedAddress 50000) rootKey 5 emptyWorld
       = (Ok scanned, w1)
    /\ (checkAncientChannelPoints (explorer fundedAddress 50000) 5 rootKey
          w1
        = (Ok ancient, w2)
        \/ exists e,
             checkAncientChannelPoints (explorer fundedAddress 50000) 5
               rootKey w1
             = (Err e, w2)
             /\ isAddrNotFound e = true /\ ancient = [])
    /\ Serialize tx = Ok buf
    /\ map PkScript (txOut tx) = [sweepScript]
    /\ map PreviousOutPoint (txIn tx)
       = map (fun au => utxoOutPoint (snd au))
           (inputsOf (scanned ++ ancient))
    /\ forallb isLookup lookups = true
    /\ apiLog w'
       = apiLog emptyWorld ++ lookups
         ++ [CallPublishTx (hexEncodeToString buf)].
Proof.
  assert (Hok : isOk (fst (sweepRemoteClosed rootKey
                             (explorer fundedAddress 50000) (str "qdest") 5
                             10 true emptyWorld)) = true)
    by (vm_compute; reflexivity).
  destruct (sweepRemoteClosed rootKey (explorer fundedAddress 50000)
              (str "qdest") 5 10 true emptyWorld) as [[[] | e | ] w'] eqn:Hs;
    try discriminate Hok.
  destruct (published_sweep_pays_only_the_sweep_script rootKey
              (explorer fundedAddress 50000) (str "qdest") 5 10 emptyWorld w'
              Hs)
    as (sweepScript & est & scanned & w1 & ancient & w2 & tx & buf & lookups
        & _ & Hscan & _ & Hcheck & _ & Hser & Hout & Hprev & Hl & Hlog).
  exists w', sweepScript, scanned, w1, ancient, w2, tx, buf, lookups.
  split; [reflexivity |]. split; [exact Hscan |]. split; [exact Hcheck |].
  split; [exact Hser |]. split; [exact Hout |]. split; [exact Hprev |].
  split; [exact Hl | exact Hlog].
Defined.

End EndToEndExamples.

(** [DeriveKey] and [PrivKeyFromPath] agree: a path text [ParsePath]
    rejects makes [DeriveKey] fail with that error, wrapped, before the key
    is touched; and when [DeriveKey] returns, the text parses, the returned
    key is the one derived along the parsed path, the public key is its
    public key, and the WIF encodes the private key [PrivKeyFromPath]
    returns for the parsed path. *)
Theorem DeriveKey_agrees_with_PrivKeyFromPath :
  forall {ec : Btcec} {hd : Hdkeychain} {bu : Btcutil} {kt : KeyTools}
         (extendedKey : ExtendedKey) (path : gostring) (params : Params),
    (forall e,
        ParsePath path = Err e ->
        DeriveKey extendedKey path params
        = Err (errWrap "could not parse derivation path" e))
    /\ (forall derivedKey pubKey wif,
          DeriveKey extendedKey path params = Ok (derivedKey, pubKey, wif) ->
          exists parsedPath privKey,
            ParsePath path = Ok parsedPath
            /\ DeriveChildren extendedKey parsedPath = Ok derivedKey
            /\ ECPubKey derivedKey = Ok pubKey
            /\ PrivKeyFromPath extendedKey parsedPath = Ok privKey
            /\ ECPrivKey derivedKey = Ok privKey
            /\ NewWIF privKey params true = Ok wif).
Proof.
  intros ec hd bu kt extendedKey path params. unfold DeriveKey. split.
  - intros e He. rewrite He. reflexivity.
  - intros derivedKey pubKey wif Hd.
    destruct (ParsePath path) as [parsed | e | ]; cbn [wrapErr bind] in Hd;
      try discriminate.
    destruct (DeriveChildren extendedKey parsed) as [dk | e | ] eqn:Hdk;
      cbn [wrapErr bind] in Hd; try discriminate.
    destruct (ECPubKey dk) as [pk | e | ] eqn:Hpk;
      cbn [wrapErr bind] in Hd; try discriminate.
    destruct (ECPrivKey dk) as [priv | e | ] eqn:Hpriv;
      cbn [wrapErr bind] in Hd; try discriminate.
    destruct (NewWIF priv params true) as [w | e | ] eqn:Hw;
      cbn [wrapErr bind] in Hd; try discriminate.
    inversion Hd; subst dk pk w. exists parsed, priv.
    split; [reflexivity |]. split; [exact Hdk |]. split; [exact Hpk |].
    split; [| split; [exact Hpriv | exact Hw]].
    unfold PrivKeyFromPath. rewrite Hdk. cbn [wrapErr bind].
    rewrite Hpriv. reflexivity.
Qed.
